(** * The blockchain event stream and its subscriptions

    A shallow embedding of the subscription code of package
    [blockchain]: the [Event] value object, the append-only list of
    [eventElem] entries behind [eventStream], and the [subscription]
    cursor with its blocking [GetEvent].

    Go pointers are addresses into per-type object stores (lists indexed by
    address, allocation appends); [None] is the nil pointer.  A panic of
    the Go runtime is the [Panic] outcome.

    The helpers of package [staking] that compute storage slots and lay
    bytes out in them are embedded after the stream. *)

From stdpp Require Import base numbers list strings gmap.

(** ** Outcomes of Go code that may panic *)

Inductive res (A : Type) : Type :=
  | Done (a : A)
  | Panic (why : string).
Arguments Done {A} a.
Arguments Panic {A} why.

#[global] Instance res_ret : MRet res := λ A a, Done a.
#[global] Instance res_bind : MBind res := λ A B f m,
  match m with
  | Done a => f a
  | Panic why => Panic why
  end.

Definition nil_dereference : string :=
  "invalid memory address or nil pointer dereference"%string.
Definition index_out_of_range : string := "index out of range"%string.
Definition close_of_closed_channel : string := "close of closed channel"%string.
Definition send_on_closed_channel : string := "send on closed channel"%string.

(** A pointer: [None] is nil, [Some a] the address of an object. *)
Definition ptr : Type := option nat.

(** [*p] on a store: nil (and an address outside the store, which Go's
    memory safety excludes) panics. *)
Definition deref {A : Type} (st : list A) (p : ptr) : res A :=
  match p with
  | None => Panic nil_dereference
  | Some a =>
      match st !! a with
      | Some v => Done v
      | None => Panic nil_dereference
      end
  end.

(** ** Go slices, as far as the code uses them: nil or allocated, [len],
    [append] and indexing. *)

Inductive slice (A : Type) : Type :=
  | nil_slice
  | mk_slice (l : list A).
Arguments nil_slice {A}.
Arguments mk_slice {A} l.

Definition items {A : Type} (s : slice A) : list A :=
  match s with
  | nil_slice => []
  | mk_slice l => l
  end.

Definition len {A : Type} (s : slice A) : Z := Z.of_nat (length (items s)).

Definition append {A : Type} (s : slice A) (x : A) : slice A :=
  mk_slice (items s ++ [x]).

(** [s[i]] with Go's bounds check. *)
Definition index {A : Type} (s : slice A) (i : Z) : res A :=
  if decide (0 ≤ i < len s)%Z then
    match items s !! Z.to_nat i with
    | Some x => Done x
    | None => Panic index_out_of_range
    end
  else Panic index_out_of_range.

(** ** The Event value object *)

Module EventModel.

Inductive EventType : Type :=
  | EventHead    (* New head event *)
  | EventReorg   (* Chain reorganization event *)
  | EventFork.   (* Chain fork event *)

Record Event : Type := mkEvent {
  OldChain : slice ptr;     (* []*types.Header *)
  NewChain : slice ptr;     (* []*types.Header *)
  Difficulty : ptr;         (* *big.Int *)
  Type_ : EventType;
  Source : string
}.

Section WithHeader.

(** The contents of a [types.Header] object.  The type is declared in the
    [types] package; the event code only copies it. *)
Context {HeaderVal : Type}.

(** The objects the Event methods allocate and read: headers and big
    integers, each store indexed by address. *)
Record objects : Type := mkObjects {
  headers : list HeaderVal;
  bigs : list Z
}.

(** Modelled from the spec: [types.Header.Copy], declared in the [types]
    package.  The spec has each header "deep-copied at insertion time", the
    Header being "copyable; treated as opaque beyond field-wise copy": the
    copy is a newly allocated header object holding the same contents.
    Called on nil it dereferences its receiver. *)
Definition Header_Copy (h : ptr) (o : objects) : res (ptr * objects) :=
  v ← deref (headers o) h;
  Done (Some (length (headers o)),
        {| headers := headers o ++ [v]; bigs := bigs o |}).

(** [new(big.Int)]: a newly allocated integer of value 0. *)
Definition new_Int (o : objects) : ptr * objects :=
  (Some (length (bigs o)),
   {| headers := headers o; bigs := bigs o ++ [0%Z] |}).

(** [z.Set(x)] of math/big: sets the integer at [z] to the value of the one
    at [x] and returns [z]. *)
Definition Int_Set (z x : ptr) (o : objects) : res (ptr * objects) :=
  v ← deref (bigs o) x;
  match z with
  | None => Panic nil_dereference
  | Some a =>
      if decide (a < length (bigs o)) then
        Done (z, {| headers := headers o; bigs := <[a := v]> (bigs o) |})
      else Panic nil_dereference
  end.

(** Header returns the latest block header for the event:
    [e.NewChain[len(e.NewChain)-1]]. *)
Definition Header (e : Event) : res ptr :=
  index (NewChain e) (len (NewChain e) - 1).

(** SetDifficulty sets the event difficulty:
    [e.Difficulty = new(big.Int).Set(b)]. *)
Definition SetDifficulty (e : Event) (b : ptr) (o : objects)
  : res (Event * objects) :=
  let '(z, o) := new_Int o in
  '(d, o) ← Int_Set z b o;
  Done ({| OldChain := OldChain e; NewChain := NewChain e; Difficulty := d;
           Type_ := Type_ e; Source := Source e |}, o).

(** AddNewHeader appends a header to the event's NewChain array. *)
Definition AddNewHeader (e : Event) (newHeader : ptr) (o : objects)
  : res (Event * objects) :=
  '(header, o) ← Header_Copy newHeader o;
  let chain :=
    match NewChain e with
    | nil_slice => mk_slice []      (* Array doesn't exist yet, create it *)
    | s => s
    end in
  Done ({| OldChain := OldChain e; NewChain := append chain header;
           Difficulty := Difficulty e; Type_ := Type_ e;
           Source := Source e |}, o).

(** AddOldHeader appends a header to the event's OldChain array. *)
Definition AddOldHeader (e : Event) (oldHeader : ptr) (o : objects)
  : res (Event * objects) :=
  '(header, o) ← Header_Copy oldHeader o;
  let chain :=
    match OldChain e with
    | nil_slice => mk_slice []      (* Array doesn't exist yet, create it *)
    | s => s
    end in
  Done ({| OldChain := append chain header; NewChain := NewChain e;
           Difficulty := Difficulty e; Type_ := Type_ e;
           Source := Source e |}, o).

(** A caller's later write through a header pointer, or into a big integer
    in place (as [b.Add(b, x)] does). *)
Definition write_header (a : nat) (v : HeaderVal) (o : objects) : objects :=
  {| headers := <[a := v]> (headers o); bigs := bigs o |}.

Definition write_Int (a : nat) (v : Z) (o : objects) : objects :=
  {| headers := headers o; bigs := <[a := v]> (bigs o) |}.

End WithHeader.

Arguments objects : clear implicits.

End EventModel.

(** ** The event stream and its subscriptions *)

Module Stream.

(** eventElem contains the event, as well as the next list event. *)
Record eventElem : Type := mkElem {
  event : ptr;      (* *Event *)
  next : ptr        (* *eventElem *)
}.

(** eventStream is the structure that contains the event list, as well as
    the update channels which it uses to notify of updates.  Its [lock] is
    held over the whole of [Head] and of [push]: the two are atomic steps
    of the model. *)
Record eventStream : Type := mkStream {
  head : ptr;               (* *eventElem *)
  updateCh : slice nat      (* []chan void *)
}.

(** subscription is the blockchain event subscription object.  Channels
    are addresses into the store of channels.  Its [updateCh] field is
    [sub_updateCh] here, [eventStream] having a field of the same name. *)
Record subscription : Type := mkSub {
  sub_updateCh : nat;       (* Channel for update information *)
  closeCh : nat;            (* Channel for close signals *)
  elem : ptr                (* Reference to the blockchain event wrapper *)
}.

(** Where the goroutine that owns a subscription stands: outside
    [GetEvent], at the top of its [for] loop, at its [select], or parked
    in that [select]. *)
Inductive pc : Type := Idle | AtLoop | AtSelect | Parked.

#[global] Instance pc_eq_dec : EqDecision pc.
Proof. solve_decision. Defined.

(** What a [GetEvent] call returned: the event of the entry it advanced to
    ([return evnt]), or the nil of the close branch ([return nil]). *)
Inductive ret : Type :=
  | Evnt (e : ptr)
  | EndOfStream.

(** The [*Event] the caller of [GetEvent] receives. *)
Definition go_value (r : ret) : ptr :=
  match r with
  | Evnt e => e
  | EndOfStream => None
  end.

(** A subscription with its owner, the one goroutine that calls
    [GetEvent] on it: the owner's place in [GetEvent], and the values
    [GetEvent] has returned to it so far, oldest first. *)
Record cursor : Type := mkCursor {
  sub : subscription;
  at_ : pc;
  log : list ret
}.

(** The program state: the [eventElem] objects, the channels (all of type
    [chan void] and unbuffered, so a channel's state is whether it was
    closed; the receivers waiting on it are the cursors parked on it), the
    one [eventStream], and the subscriptions handed out by [subscribe]. *)
Record world : Type := mkWorld {
  elems : list eventElem;
  chans : list bool;
  stream : eventStream;
  cursors : list cursor
}.

Definition set_elems (f : list eventElem → list eventElem) (w : world) : world :=
  {| elems := f (elems w); chans := chans w; stream := stream w;
     cursors := cursors w |}.
Definition set_chans (f : list bool → list bool) (w : world) : world :=
  {| elems := elems w; chans := f (chans w); stream := stream w;
     cursors := cursors w |}.
Definition set_stream (f : eventStream → eventStream) (w : world) : world :=
  {| elems := elems w; chans := chans w; stream := f (stream w);
     cursors := cursors w |}.
Definition set_cursors (f : list cursor → list cursor) (w : world) : world :=
  {| elems := elems w; chans := chans w; stream := stream w;
     cursors := f (cursors w) |}.

(** The zero value [&eventStream{}] in a program that has allocated
    nothing yet. *)
Definition new_world : world :=
  {| elems := []; chans := [];
     stream := {| head := None; updateCh := nil_slice |};
     cursors := [] |}.

(** [make(chan void)]. *)
Definition make_chan (w : world) : nat * world :=
  (length (chans w), set_chans (λ cs, cs ++ [false]) w).

Definition chan_closed (w : world) (c : nat) : bool :=
  default false (chans w !! c).

(** *** Writer side *)

(** Head returns the event list head, and registers a new update
    channel. *)
Definition Head (w : world) : (ptr * nat) * world :=
  let head0 := head (stream w) in
  let '(ch, w) := make_chan w in
  let upd :=
    match updateCh (stream w) with
    | nil_slice => mk_slice []
    | s => s
    end in
  let w := set_stream (λ e, {| head := head e; updateCh := append upd ch |}) w in
  ((head0, ch), w).

(** subscribe creates a new blockchain event subscription. *)
Definition subscribe (w : world) : subscription * world :=
  let '((head0, updCh), w) := Head w in
  let '(clCh, w) := make_chan w in
  ({| elem := head0; sub_updateCh := updCh; closeCh := clCh |}, w).

Definition parked_on (c : nat) (k : cursor) : bool :=
  bool_decide (at_ k = Parked ∧ sub_updateCh (sub k) = c).

(** Hand-off of a send on [c] to the first receiver parked on it, whose
    [select] takes [case <-s.updateCh: continue]; no receiver, no change. *)
Fixpoint wake (c : nat) (ks : list cursor) : list cursor :=
  match ks with
  | [] => []
  | k :: ks' =>
      if parked_on c k
      then {| sub := sub k; at_ := AtLoop; log := log k |} :: ks'
      else k :: wake c ks'
  end.

(** [select { case update <- void{}: default: }]: the send happens only
    when a receiver is parked on the (unbuffered) channel, and otherwise
    the default branch drops it.  Sending on a closed channel panics. *)
Definition try_send (update : nat) (w : world) : res world :=
  if chan_closed w update then Panic send_on_closed_channel
  else Done (set_cursors (wake update) w).

(** [for _, update := range e.updateCh { ... }] *)
Fixpoint notify (chs : list nat) (w : world) : res world :=
  match chs with
  | [] => Done w
  | update :: chs' => w ← try_send update w; notify chs' w
  end.

(** [e.head.next = newHead] *)
Definition store_next (p : ptr) (n : ptr) (w : world) : res world :=
  x ← deref (elems w) p;
  match p with
  | Some a =>
      Done (set_elems (λ es, <[a := {| event := event x; next := n |}]> es) w)
  | None => Panic nil_dereference
  end.

(** push adds a new Event, and notifies listeners. *)
Definition push (ev : ptr) (w : world) : res world :=
  let newHead := Some (length (elems w)) in
  let w := set_elems (λ es, es ++ [{| event := ev; next := None |}]) w in
  w ← match head (stream w) with
      | Some _ => store_next (head (stream w)) newHead w
      | None => Done w
      end;
  let w := set_stream (λ e, {| head := newHead; updateCh := updateCh e |}) w in
  (* Notify the listeners *)
  notify (items (updateCh (stream w))) w.

(** *** Reader side *)

(** The first half of the loop body of [GetEvent]: when [s.elem.next] is
    set, advance to it and return its event. *)
Definition GetEvent_next (w : world) (s : subscription)
  : res (option (subscription * ptr)) :=
  x ← deref (elems w) (elem s);
  match next x with
  | Some _ =>
      let s := {| sub_updateCh := sub_updateCh s; closeCh := closeCh s;
                  elem := next x |} in
      y ← deref (elems w) (elem s);
      Done (Some (s, event y))
  | None => Done None
  end.

(** The [select] of [GetEvent] when it is reached.  No sender ever waits
    on [s.updateCh] ([push] sends without blocking) and that channel is
    never closed, so its case is taken only by the hand-off of [wake]; the
    select returns at once when [s.closeCh] is closed, and parks
    otherwise. *)
Inductive selected : Type := CaseClose | Wait.

Definition GetEvent_select (w : world) (s : subscription) : selected :=
  if chan_closed w (closeCh s) then CaseClose else Wait.

(** One scheduling step of the owner of a cursor inside [GetEvent]. *)
Definition GetEvent_step (w : world) (k : cursor) : res cursor :=
  match at_ k with
  | AtLoop =>
      r ← GetEvent_next w (sub k);
      match r with
      | Some (s, evnt) =>
          Done {| sub := s; at_ := Idle; log := log k ++ [Evnt evnt] |}
      | None => Done {| sub := sub k; at_ := AtSelect; log := log k |}
      end
  | AtSelect =>
      match GetEvent_select w (sub k) with
      | CaseClose =>
          Done {| sub := sub k; at_ := Idle; log := log k ++ [EndOfStream] |}
      | Wait => Done {| sub := sub k; at_ := Parked; log := log k |}
      end
  | Idle | Parked => Done k
  end.

(** A cursor parked on a channel that is being closed leaves its [select]
    through [case <-s.closeCh: return nil]. *)
Definition release (c : nat) (k : cursor) : cursor :=
  if bool_decide (at_ k = Parked ∧ closeCh (sub k) = c)
  then {| sub := sub k; at_ := Idle; log := log k ++ [EndOfStream] |}
  else k.

(** Close closes the subscription: [close(s.closeCh)]. *)
Definition Close (s : subscription) (w : world) : res world :=
  if chan_closed w (closeCh s) then Panic close_of_closed_channel
  else Done (set_cursors (fmap (release (closeCh s)))
               (set_chans (λ cs, <[closeCh s := true]> cs) w)).

(** *** Schedules *)

(** What can happen next: the writer pushes, someone subscribes, the owner
    of cursor [i] calls [GetEvent], runs one step of it, or calls
    [Close]. *)
Inductive action : Type :=
  | APush (ev : ptr)
  | ASubscribe
  | ACall (i : nat)
  | AStep (i : nat)
  | AClose (i : nat).

Definition enter (k : cursor) : cursor :=
  match at_ k with
  | Idle => {| sub := sub k; at_ := AtLoop; log := log k |}
  | _ => k
  end.

(** One step of the program.  [push] and [subscribe] run under the lock
    and are single steps.  [GetEvent] takes no lock: its test of
    [s.elem.next] and its [select] are separate steps, so that a push may
    fall between the two; reads and writes of [next] are taken to be
    atomic and seen in program order.  An action that names no cursor, and a step of an owner that
    is not inside [GetEvent] or is parked, leave the state as it is. *)
Definition step (a : action) (w : world) : res world :=
  match a with
  | APush ev => push ev w
  | ASubscribe =>
      let '(s, w) := subscribe w in
      Done (set_cursors (λ ks, ks ++ [{| sub := s; at_ := Idle; log := [] |}]) w)
  | ACall i =>
      match cursors w !! i with
      | Some k => Done (set_cursors (λ ks, <[i := enter k]> ks) w)
      | None => Done w
      end
  | AStep i =>
      match cursors w !! i with
      | Some k =>
          k' ← GetEvent_step w k;
          Done (set_cursors (λ ks, <[i := k']> ks) w)
      | None => Done w
      end
  | AClose i =>
      match cursors w !! i with
      | Some k => Close (sub k) w
      | None => Done w
      end
  end.

(** A panic ends the program. *)
Fixpoint run (acts : list action) (w : world) : res world :=
  match acts with
  | [] => Done w
  | a :: acts' => w ← step a w; run acts' w
  end.

Definition reachable (w : world) : Prop :=
  ∃ acts, run acts new_world = Done w.

(** A call of [GetEvent] by the owner of cursor [i] with nothing else
    scheduled in between: the call, the test of [s.elem.next], and the
    [select] when the test fails.  Afterwards the cursor is [Idle] (the
    call returned the last value of its log) or [Parked] (it blocks). *)
Definition GetEvent (i : nat) (w : world) : res world :=
  run [ACall i; AStep i; AStep i] w.

(** [n] calls in a row. *)
Fixpoint GetEvents (n : nat) (i : nat) (w : world) : res world :=
  match n with
  | 0 => Done w
  | S n' => w ← GetEvent i w; GetEvents n' i w
  end.

Definition pushes (evs : list ptr) : list action := fmap APush evs.

(** The events pushed by a schedule, in order. *)
Fixpoint pushes_of (acts : list action) : list ptr :=
  match acts with
  | [] => []
  | APush ev :: acts' => ev :: pushes_of acts'
  | _ :: acts' => pushes_of acts'
  end.

Fixpoint subscribes_of (acts : list action) : nat :=
  match acts with
  | [] => 0
  | ASubscribe :: acts' => S (subscribes_of acts')
  | _ :: acts' => subscribes_of acts'
  end.

(** The events among the values returned to a cursor. *)
Fixpoint events_of (l : list ret) : list ptr :=
  match l with
  | [] => []
  | Evnt e :: l' => e :: events_of l'
  | EndOfStream :: l' => events_of l'
  end.

(** The events met when following [next] links from [p]. *)
Fixpoint walk (fuel : nat) (es : list eventElem) (p : ptr) : list ptr :=
  match fuel, p with
  | S fuel', Some a =>
      match es !! a with
      | Some x => event x :: walk fuel' es (next x)
      | None => []
      end
  | _, _ => []
  end.

(** *** Shape of the reachable states *)

(** The entries form one chain in allocation order: each entry points to
    the entry allocated right after it, and the last one to nothing. *)
Definition linked (es : list eventElem) : Prop :=
  ∀ p x, es !! p = Some x →
    next x = if decide (S p < length es) then Some (S p) else None.

(** The address of the last entry, nil when there is none. *)
Definition tail_of (es : list eventElem) : ptr :=
  match length es with
  | 0 => None
  | S n => Some n
  end.

Definition update_chan (k : cursor) : nat := sub_updateCh (sub k).

(** The two channels of a cursor: update and close. *)
Definition chan_pair (k : cursor) : nat * nat :=
  (sub_updateCh (sub k), closeCh (sub k)).

(** The channels of the subscriptions: the update channels are pairwise
    distinct and open, the close channels are allocated, and no close
    channel is an update channel. *)
Record chans_ok (cs : list bool) (ps : list (nat * nat)) : Prop := mkChansOk {
  ok_distinct : NoDup (ps.*1);
  ok_update_open : ∀ c, c ∈ ps.*1 → cs !! c = Some false;
  ok_close_alloc : ∀ c, c ∈ ps.*2 → c < length cs;
  ok_close_update : ∀ c, c ∈ ps.*2 → c ∉ ps.*1
}.

Record wf (w : world) : Prop := mkWf {
  wf_linked : linked (elems w);
  wf_head : head (stream w) = tail_of (elems w);
  wf_registered : items (updateCh (stream w)) = (fmap chan_pair (cursors w)).*1;
  wf_chans : chans_ok (chans w) (fmap chan_pair (cursors w));
  wf_elem : ∀ i k p, cursors w !! i = Some k → elem (sub k) = Some p →
    p < length (elems w)
}.

(** A cursor parked in its [select] has an open close channel. *)
Definition parked_open (w : world) : Prop :=
  ∀ i k, cursors w !! i = Some k → at_ k = Parked →
    chan_closed w (closeCh (sub k)) = false.

(** The cursor after a successful notify. *)
Definition woken (k : cursor) : cursor :=
  if decide (at_ k = Parked)
  then {| sub := sub k; at_ := AtLoop; log := log k |}
  else k.

(** The events linked after the position of a cursor, which it has yet to
    return. *)
Definition pending (w : world) (k : cursor) : list ptr :=
  match elem (sub k) with
  | Some p => fmap event (drop (S p) (elems w))
  | None => []
  end.

(** What a step does to a cursor: it leaves the subscription as it is and
    returns no event, or it moves the position to the next entry and
    returns the event of that entry. *)
Definition keeps (k k' : cursor) : Prop :=
  sub k' = sub k ∧ events_of (log k') = events_of (log k).

Definition advances (w : world) (k k' : cursor) : Prop :=
  ∃ p y, elem (sub k) = Some p ∧ elems w !! S p = Some y ∧
    sub k' = {| sub_updateCh := sub_updateCh (sub k);
                closeCh := closeCh (sub k); elem := Some (S p) |} ∧
    log k' = log k ++ [Evnt (event y)].

(** What a cursor has returned and what it has yet to return, against
    the list [P] of the events pushed since it subscribed.  A cursor whose
    position is nil has returned no event. *)
Definition tracks (w : world) (k : cursor) (P : list ptr) : Prop :=
  match elem (sub k) with
  | Some _ => events_of (log k) ++ pending w k = P
  | None => events_of (log k) = []
  end.

End Stream.

(** ** Sequences of calls of the Event methods *)

Module EventCalls.
Import EventModel.

(** One call of a method that changes an Event. *)
Inductive call : Type :=
  | CallAddNewHeader (newHeader : ptr)
  | CallAddOldHeader (oldHeader : ptr)
  | CallSetDifficulty (b : ptr).

(** The headers a list of calls gives to AddNewHeader, and to
    AddOldHeader, in call order. *)
Fixpoint new_headers (cs : list call) : list ptr :=
  match cs with
  | [] => []
  | CallAddNewHeader h :: cs' => h :: new_headers cs'
  | _ :: cs' => new_headers cs'
  end.

Fixpoint old_headers (cs : list call) : list ptr :=
  match cs with
  | [] => []
  | CallAddOldHeader h :: cs' => h :: old_headers cs'
  | _ :: cs' => old_headers cs'
  end.

Section WithHeader.
Context {HeaderVal : Type}.

Definition do_call (c : call) (e : Event) (o : objects HeaderVal)
  : res (Event * objects HeaderVal) :=
  match c with
  | CallAddNewHeader h => AddNewHeader e h o
  | CallAddOldHeader h => AddOldHeader e h o
  | CallSetDifficulty b => SetDifficulty e b o
  end.

(** The calls made one after the other on the same Event; a panic ends
    the program. *)
Fixpoint do_calls (cs : list call) (e : Event) (o : objects HeaderVal)
  : res (Event * objects HeaderVal) :=
  match cs with
  | [] => Done (e, o)
  | c :: cs' => '(e, o) ← do_call c e o; do_calls cs' e o
  end.

(** [c] points to a header allocated after [n] headers existed, other
    than [h] and with the contents of [h]. *)
Definition copy_of (n : nat) (o : objects HeaderVal) (h c : ptr) : Prop :=
  ∃ a b v, h = Some a ∧ c = Some b ∧ n ≤ b ∧ a ≠ b ∧
    headers o !! a = Some v ∧ headers o !! b = Some v.

End WithHeader.

End EventCalls.

(** ** Further shape of the reachable states of the stream *)

Module StreamShape.
Import Stream.

(** A cursor that got as far as the [select] has a position: the test of
    [s.elem.next] before it went through. *)
Definition positioned (w : world) : Prop :=
  ∀ i k, cursors w !! i = Some k → at_ k = AtSelect ∨ at_ k = Parked →
    is_Some (elem (sub k)).

(** The cursors a schedule calls [Close] on, in order. *)
Fixpoint closes_of (acts : list action) : list nat :=
  match acts with
  | [] => []
  | AClose i :: acts' => i :: closes_of acts'
  | _ :: acts' => closes_of acts'
  end.

(** Every [subscribe] of the schedule comes after a push ([pushed] tells
    whether one came before the schedule). *)
Fixpoint subscribes_follow_push (pushed : bool) (acts : list action) : bool :=
  match acts with
  | [] => true
  | APush _ :: acts' => subscribes_follow_push true acts'
  | ASubscribe :: acts' => pushed && subscribes_follow_push pushed acts'
  | _ :: acts' => subscribes_follow_push pushed acts'
  end.

(** The pair of channels [subscribe] makes in state [w]. *)
Definition fresh_pair (w : world) : nat * nat :=
  (length (chans w), S (length (chans w))).

(** A closed close channel belongs to a cursor on which [Close] was
    called, and every cursor has a position. *)
Record careful (closed : list nat) (w : world) : Prop := mkCareful {
  careful_position : ∀ i k, cursors w !! i = Some k → is_Some (elem (sub k));
  careful_closed : ∀ i k, cursors w !! i = Some k →
    chan_closed w (closeCh (sub k)) = true → i ∈ closed
}.

End StreamShape.

(** ** GetEventCh: the goroutine that forwards events to a channel *)

Module Forward.
Import Stream.

(** Where the goroutine started by [GetEventCh] stands: at the top of its
    [for] loop, inside [s.GetEvent()], blocked in [eventCh <- evnt], or
    returned. *)
Inductive fpc : Type :=
  | FLoop
  | FInCall
  | FSend (evnt : ptr)
  | FReturned.

(** One call of [GetEventCh]: the subscription [s] it was called on (the
    index of its cursor), the goroutine, and the channel [eventCh] it
    returned.  The channel is unbuffered and nobody closes it; its only
    sender is the goroutine, so its state is the goroutine's: a send is
    waiting exactly when the goroutine is at [FSend].  [f_out] lists the
    values received from the channel so far, and [f_from] the number of
    values [GetEvent] had returned on [s] before [GetEventCh] was
    called. *)
Record forwarder : Type := mkForwarder {
  f_sub : nat;
  f_at : fpc;
  f_from : nat;
  f_out : list ptr
}.

Definition set_f_at (a : fpc) (f : forwarder) : forwarder :=
  {| f_sub := f_sub f; f_at := a; f_from := f_from f; f_out := f_out f |}.

Record fworld : Type := mkFworld {
  base : world;
  fwds : list forwarder
}.

Definition new_fworld : fworld := {| base := new_world; fwds := [] |}.

(** The cursor has a forwarding goroutine, which is then its one owner. *)
Definition owned (fw : fworld) (i : nat) : bool :=
  bool_decide (i ∈ f_sub <$> fwds fw).

(** [GetEventCh] on cursor [i]: makes the channel and starts the
    goroutine.  It is called by the owner of the cursor, outside
    [GetEvent], and once: from then on the goroutine is the one caller of
    [GetEvent] on the subscription. *)
Definition GetEventCh (i : nat) (fw : fworld) : fworld :=
  match cursors (base fw) !! i with
  | Some k =>
      if owned fw i || negb (bool_decide (at_ k = Idle)) then fw
      else {| base := base fw;
              fwds := fwds fw ++ [{| f_sub := i; f_at := FLoop;
                                     f_from := length (log k); f_out := [] |}] |}
  | None => fw
  end.

(** One step of the goroutine:
    [for { evnt := s.GetEvent(); if evnt == nil { return }; eventCh <- evnt }].
    Inside [GetEvent] it takes the steps of the cursor's owner; once the
    call has returned (the cursor is [Idle] again) it looks at the value
    returned, the last of the cursor's log. *)
Definition forward_step (fw : fworld) (f : forwarder) : res (world * forwarder) :=
  match f_at f with
  | FLoop =>
      w ← step (ACall (f_sub f)) (base fw);
      Done (w, set_f_at FInCall f)
  | FInCall =>
      match cursors (base fw) !! f_sub f with
      | Some k =>
          if bool_decide (at_ k = Idle) then
            match last (log k) with
            | Some r =>
                match go_value r with
                | None => Done (base fw, set_f_at FReturned f)
                | Some a => Done (base fw, set_f_at (FSend (Some a)) f)
                end
            | None => Done (base fw, f)
            end
          else
            w ← step (AStep (f_sub f)) (base fw);
            Done (w, f)
      | None => Done (base fw, f)
      end
  | FSend _ | FReturned => Done (base fw, f)
  end.

(** A receive on the channel of forwarder [f]: it completes when the
    goroutine is blocked in its send, which then goes back to the top of
    its loop; otherwise the receiver waits. *)
Definition receive (f : forwarder) : forwarder :=
  match f_at f with
  | FSend evnt =>
      {| f_sub := f_sub f; f_at := FLoop; f_from := f_from f;
         f_out := f_out f ++ [evnt] |}
  | _ => f
  end.

(** What can happen next: an action of the stream, a call of
    [GetEventCh] on cursor [i], a step of goroutine [j], a receive on the
    channel of goroutine [j]. *)
Inductive faction : Type :=
  | FBase (a : action)
  | FGetEventCh (i : nat)
  | FStep (j : nat)
  | FRecv (j : nat).

(** The goroutine being the one owner of its cursor, no one else's call
    or step of [GetEvent] on that cursor is scheduled. *)
Definition allowed (fw : fworld) (a : action) : bool :=
  match a with
  | ACall i | AStep i => negb (owned fw i)
  | _ => true
  end.

Definition fstep (a : faction) (fw : fworld) : res fworld :=
  match a with
  | FBase b =>
      if allowed fw b then
        w ← step b (base fw); Done {| base := w; fwds := fwds fw |}
      else Done fw
  | FGetEventCh i => Done (GetEventCh i fw)
  | FStep j =>
      match fwds fw !! j with
      | Some f =>
          '(w, f') ← forward_step fw f;
          Done {| base := w; fwds := <[j := f']> (fwds fw) |}
      | None => Done fw
      end
  | FRecv j =>
      match fwds fw !! j with
      | Some f => Done {| base := base fw; fwds := <[j := receive f]> (fwds fw) |}
      | None => Done fw
      end
  end.

Fixpoint frun (acts : list faction) (fw : fworld) : res fworld :=
  match acts with
  | [] => Done fw
  | a :: acts' => fw ← fstep a fw; frun acts' fw
  end.

(** The events pushed, and the subscribes made, by a schedule. *)
Fixpoint fpushes_of (acts : list faction) : list ptr :=
  match acts with
  | [] => []
  | FBase (APush ev) :: acts' => ev :: fpushes_of acts'
  | _ :: acts' => fpushes_of acts'
  end.

Fixpoint fsubscribes_of (acts : list faction) : nat :=
  match acts with
  | [] => 0
  | FBase ASubscribe :: acts' => S (fsubscribes_of acts')
  | _ :: acts' => fsubscribes_of acts'
  end.

(** The values [GetEvent] has returned to the goroutine. *)
Definition returned_to (f : forwarder) (k : cursor) : list ret :=
  drop (f_from f) (log k).

(** A call of [GetEvent] that is under way goes on, or returns a value. *)
Definition goes_on_or_returns (k k' : cursor) : Prop :=
  (at_ k' ≠ Idle ∧ log k' = log k) ∨ (at_ k' = Idle ∧ ∃ r, log k' = log k ++ [r]).

(** How a goroutine and its cursor stand to each other. *)
Definition in_step (f : forwarder) (k : cursor) : Prop :=
  f_from f ≤ length (log k) ∧
  (None ∉ f_out f) ∧
  match f_at f with
  | FLoop =>
      at_ k = Idle ∧ go_value <$> returned_to f k = f_out f
  | FInCall =>
      (at_ k ≠ Idle ∧ go_value <$> returned_to f k = f_out f) ∨
      (at_ k = Idle ∧ ∃ l r, returned_to f k = l ++ [r] ∧ go_value <$> l = f_out f)
  | FSend evnt =>
      at_ k = Idle ∧ evnt ≠ None ∧
      go_value <$> returned_to f k = f_out f ++ [evnt]
  | FReturned =>
      at_ k = Idle ∧
      ∃ l r, returned_to f k = l ++ [r] ∧ go_value r = None ∧
             go_value <$> l = f_out f
  end.

Record fwf (fw : fworld) : Prop := mkFwf {
  fwf_base : reachable (base fw);
  fwf_one : NoDup (f_sub <$> fwds fw);
  fwf_in_step : ∀ j f, fwds fw !! j = Some f →
    ∃ k, cursors (base fw) !! f_sub f = Some k ∧ in_step f k
}.

End Forward.

(** * Storage slots of the staking contract

    The helpers of package [staking] that lay bytes out in the storage
    map of the predeployed contract.  A [byte] is an integer from 0 to
    255, a [[]byte] a list of them, a [*big.Int] an integer; a
    [types.Hash], an array of 32 bytes, is a list of 32 of them. *)

Module Staking.

Definition HashLength : nat := 32.

Definition is_byte (b : Z) : Prop := (0 ≤ b < 256)%Z.

(** The conversion [byte(x)] of an [int]: the low eight bits. *)
Definition byte_of (x : Z) : Z := (x mod 256)%Z.

(** [types.Hash{}] *)
Definition zero_Hash : list Z := replicate HashLength 0%Z.

(** ** math/big *)

(** [new(big.Int).SetBytes(buf)]: [buf] read as a big-endian unsigned
    integer. *)
Definition SetBytes (buf : list Z) : Z :=
  foldl (λ acc b, acc * 256 + b)%Z 0%Z buf.

Fixpoint le_digits (fuel : nat) (z : Z) : list Z :=
  match fuel with
  | O => []
  | S fuel' =>
      if decide (z = 0%Z) then []
      else (z mod 256)%Z :: le_digits fuel' (z / 256)%Z
  end.

(** [x.Bytes()]: the absolute value of [x] as big-endian bytes, without
    leading zero bytes; no byte at all for zero. *)
Definition Bytes (x : Z) : list Z :=
  reverse (le_digits (S (Z.to_nat (Z.log2 (Z.abs x)))) (Z.abs x)).

(** The conversion [int64(u)] of a [uint64]: the same 64 bits read as a
    signed integer. *)
Definition int64_of_uint64 (u : Z) : Z :=
  if decide (u < 2 ^ 63)%Z then u else (u - 2 ^ 64)%Z.

(** [uint64(n)] of a non-negative [int]. *)
Definition uint64_of_int (n : nat) : Z := Z.of_nat n.

Definition getIndexWithOffset (keccakHash : list Z) (offset : Z) : list Z :=
  let bigOffset := int64_of_uint64 offset in
  let bigKeccak := SetBytes keccakHash in
  let bigKeccak := (bigKeccak + bigOffset)%Z in
  Bytes bigKeccak.

(** ** The storage map *)

(** The built-in [copy(dst, src)]: what [dst] holds afterwards. *)
Definition copy (dst src : list Z) : list Z :=
  take (length dst) src ++ drop (length src) dst.

Section WithHashing.

(** [types.BytesToHash] and [keccak.Keccak256(nil, ·)] are declared in
    other packages; the layout is the same whatever they compute. *)
Variable BytesToHash : list Z → list Z.
Variable Keccak256 : list Z → list Z.

Definition numBytesInSlot : nat := 256 / 8.

(** [storageMap[k]] read: the zero value for a missing key. *)
Definition map_get (storageMap : gmap (list Z) (list Z)) (k : list Z) : list Z :=
  default zero_Hash (storageMap !! k).

(** The slot index of the chunk at [offset]. *)
Definition slotIndex_at (zeroIndex : list Z) (offset : nat) : list Z :=
  BytesToHash (getIndexWithOffset zeroIndex (uint64_of_int offset)).

(** The body of the loop over [i], for [i] below [len(data)]. *)
Definition store_byte (zeroIndex data : list Z)
    (storageMap : gmap (list Z) (list Z)) (i : nat) : gmap (list Z) (list Z) :=
  let offset := i / numBytesInSlot in
  let slotIndex := slotIndex_at zeroIndex offset in
  let byteIndex := i mod numBytesInSlot in
  let slot := map_get storageMap slotIndex in
  let slot := <[byteIndex := default 0%Z (data !! i)]> slot in
  <[slotIndex := slot]> storageMap.

Definition setBytesToStorage (storageMap : gmap (list Z) (list Z))
    (baseIndexBytes data : list Z) : gmap (list Z) (list Z) :=
  let dataLen := length data in
  let baseIndex := BytesToHash baseIndexBytes in
  if decide (dataLen ≤ 31) then
    let bytes := zero_Hash in
    let bytes := copy (take (length data) bytes) data ++ drop (length data) bytes in
    let bytes := <[length bytes - 1 := byte_of (Z.of_nat (dataLen * 2))]> bytes in
    <[baseIndex := bytes]> storageMap
  else
    let baseSlot := zero_Hash in
    let baseSlot := <[31 := byte_of (Z.of_nat (2 * dataLen + 1))]> baseSlot in
    let storageMap := <[baseIndex := baseSlot]> storageMap in
    let zeroIndex := Keccak256 baseIndexBytes in
    foldl (store_byte zeroIndex data) storageMap (seq 0 dataLen).

End WithHashing.

(** An instance of the two functions, to run the layout on: the hash of
    the last 32 bytes, zeros in front of a shorter input, and a fixed
    digest. *)
Definition pad_left_32 (b : list Z) : list Z :=
  replicate (HashLength - length b) 0%Z ++ drop (length b - HashLength) b.

Definition fixed_digest (b : list Z) : list Z := replicate 31 0%Z ++ [byte_of (Z.of_nat (length b))].

End Staking.

(** * Properties of the Event methods *)

Module EventFacts.
Import EventModel.

Lemma index_last {A : Type} (l : list A) (x : A) :
  index (mk_slice (l ++ [x])) (len (mk_slice (l ++ [x])) - 1) = Done x.
Proof.
  unfold index, len; simpl. rewrite length_app; simpl.
  case_decide as Hr; [|lia].
  replace (Z.to_nat (Z.of_nat (length l + 1) - 1)) with (length l) by lia.
  by rewrite list_lookup_middle.
Qed.

Lemma index_empty {A : Type} (s : slice A) :
  items s = [] → index s (len s - 1) = Panic index_out_of_range.
Proof.
  intros He. unfold index, len. rewrite He.
  destruct (decide _) as [Hr|Hr]; [simpl in Hr; lia|done].
Qed.

Lemma items_snoc {A : Type} (s : slice A) (l : list A) (x : A) :
  items s = l ++ [x] → s = mk_slice (l ++ [x]).
Proof. destruct s as [|l']; simpl; [by destruct l|congruence]. Qed.

Lemma nonempty_snoc {A : Type} (l : list A) :
  l ≠ [] → ∃ l' x, l = l' ++ [x].
Proof.
  destruct l as [|a l] using rev_ind; [done|]. intros _. by exists l, a.
Qed.

(** C9: on an Event whose NewChain is non-empty, Header returns the last
    element of NewChain, so under that precondition it never fails; on an
    empty (or nil) NewChain the index [len-1 = -1] is out of range and the
    access panics. *)
Theorem Header_last_of_NewChain (e : Event) :
  (∀ l h, items (NewChain e) = l ++ [h] → Header e = Done h) ∧
  (items (NewChain e) ≠ [] → ∃ h, Header e = Done h ∧ last (items (NewChain e)) = Some h) ∧
  (items (NewChain e) = [] → Header e = Panic index_out_of_range).
Proof.
  split_and!.
  - intros l h Hl. unfold Header. rewrite (items_snoc _ _ _ Hl).
    apply index_last.
  - intros Hne. destruct (nonempty_snoc _ Hne) as (l & h & Hl).
    exists h. split.
    + unfold Header. rewrite (items_snoc _ _ _ Hl). apply index_last.
    + rewrite Hl. apply last_snoc.
  - apply index_empty.
Qed.

Lemma Header_last_of_NewChain_witness :
  let e := {| OldChain := nil_slice; NewChain := mk_slice [Some 4; Some 9];
              Difficulty := None; Type_ := EventHead; Source := ""%string |} in
  let e0 := {| OldChain := nil_slice; NewChain := nil_slice;
               Difficulty := None; Type_ := EventHead; Source := ""%string |} in
  Header e = Done (Some 9) ∧
  (∃ h, Header e = Done h ∧ last (items (NewChain e)) = Some h) ∧
  Header e0 = Panic index_out_of_range.
Proof.
  intros e e0. split_and!.
  - apply (proj1 (Header_last_of_NewChain e) [Some 4] (Some 9)). reflexivity.
  - apply (proj1 (proj2 (Header_last_of_NewChain e))). simpl. discriminate.
  - apply (proj2 (proj2 (Header_last_of_NewChain e0))). reflexivity.
Defined.

Section WithHeader.
Context {HeaderVal : Type}.
Implicit Types (o : objects HeaderVal) (e : Event).

Lemma AddNewHeader_Done e a v o :
  headers o !! a = Some v →
  AddNewHeader e (Some a) o =
    Done ({| OldChain := OldChain e;
             NewChain := mk_slice (items (NewChain e) ++ [Some (length (headers o))]);
             Difficulty := Difficulty e; Type_ := Type_ e; Source := Source e |},
          {| headers := headers o ++ [v]; bigs := bigs o |}).
Proof.
  intros Hv. unfold AddNewHeader, Header_Copy; simpl. rewrite Hv; simpl.
  by destruct (NewChain e).
Qed.

(** C5: for every allocated header [h] and every Event (NewChain nil,
    empty or not), AddNewHeader followed by Header returns a pointer [c]
    to a header with the contents of [h] (deep-equal) that is not [h]
    itself, the caller's header is left as it was, and writing to [h]
    afterwards does not change the header at [c]. *)
Theorem AddNewHeader_then_Header_is_a_copy e a v o :
  headers o !! a = Some v →
  ∃ e' o' c,
    AddNewHeader e (Some a) o = Done (e', o') ∧
    Header e' = Done (Some c) ∧
    c ≠ a ∧
    headers o' !! c = Some v ∧
    headers o' !! a = Some v ∧
    ∀ v', headers (write_header a v' o') !! c = Some v.
Proof.
  intros Hv. pose proof (lookup_lt_Some _ _ _ Hv) as Hlt.
  eexists _, _, (length (headers o)). split; [by apply AddNewHeader_Done|].
  split_and!.
  - unfold Header; simpl. apply index_last.
  - lia.
  - simpl. by rewrite list_lookup_middle.
  - simpl. by rewrite lookup_app_l.
  - intros v'. simpl. rewrite list_lookup_insert_ne by lia.
    by rewrite list_lookup_middle.
Qed.

(** C10: for every Event and every allocated big integer [d] of value
    [v], SetDifficulty stores in Difficulty a pointer to another integer
    of the same value, and writing to [d] afterwards does not change it. *)
Theorem SetDifficulty_stores_a_copy e a v o :
  bigs o !! a = Some v →
  ∃ e' o' c,
    SetDifficulty e (Some a) o = Done (e', o') ∧
    Difficulty e' = Some c ∧
    c ≠ a ∧
    bigs o' !! c = Some v ∧
    bigs o' !! a = Some v ∧
    (∀ v', bigs (write_Int a v' o') !! c = Some v) ∧
    OldChain e' = OldChain e ∧ NewChain e' = NewChain e ∧
    Type_ e' = Type_ e ∧ Source e' = Source e.
Proof.
  intros Hv. pose proof (lookup_lt_Some _ _ _ Hv) as Hlt.
  eexists _, _, (length (bigs o)). split.
  - unfold SetDifficulty, new_Int, Int_Set; simpl.
    rewrite lookup_app_l by done. rewrite Hv; simpl.
    rewrite length_app; simpl. case_decide; [|lia]. reflexivity.
  - simpl. split_and!; try done.
    + lia.
    + rewrite list_lookup_insert_eq; [done|]. rewrite length_app; simpl; lia.
    + rewrite list_lookup_insert_ne by lia. by rewrite lookup_app_l.
    + intros v'. rewrite list_lookup_insert_ne by lia.
      rewrite list_lookup_insert_eq; [done|]. rewrite length_app; simpl; lia.
Qed.

End WithHeader.

Lemma AddNewHeader_then_Header_is_a_copy_witness :
  let e := {| OldChain := nil_slice; NewChain := mk_slice [Some 0];
              Difficulty := None; Type_ := EventHead; Source := ""%string |} in
  let o := {| headers := [10; 20]; bigs := [] |} in
  ∃ e' o' c,
    AddNewHeader e (Some 1) o = Done (e', o') ∧
    Header e' = Done (Some c) ∧
    c ≠ 1 ∧
    headers o' !! c = Some 20 ∧
    headers o' !! 1 = Some 20 ∧
    ∀ v', headers (write_header 1 v' o') !! c = Some 20.
Proof.
  intros e o. apply (AddNewHeader_then_Header_is_a_copy e 1 20 o). reflexivity.
Defined.

Lemma SetDifficulty_stores_a_copy_witness :
  let e := {| OldChain := nil_slice; NewChain := nil_slice;
              Difficulty := Some 0; Type_ := EventReorg; Source := ""%string |} in
  let o := {| headers := @nil nat; bigs := [7%Z] |} in
  ∃ e' o' c,
    SetDifficulty e (Some 0) o = Done (e', o') ∧
    Difficulty e' = Some c ∧
    c ≠ 0 ∧
    bigs o' !! c = Some 7%Z ∧
    bigs o' !! 0 = Some 7%Z ∧
    (∀ v', bigs (write_Int 0 v' o') !! c = Some 7%Z) ∧
    OldChain e' = OldChain e ∧ NewChain e' = NewChain e ∧
    Type_ e' = Type_ e ∧ Source e' = Source e.
Proof.
  intros e o. apply (SetDifficulty_stores_a_copy e 0 7%Z o). reflexivity.
Defined.

End EventFacts.

(** * Properties of the event stream *)

Module StreamFacts.
Import Stream.

Implicit Types (w : world) (k : cursor) (s : subscription) (ev : ptr)
  (es : list eventElem) (acts : list action).

(** ** Notification *)

Lemma update_chan_woken k : update_chan (woken k) = update_chan k.
Proof. unfold woken. by case_decide. Qed.

Lemma woken_idem k : woken (woken k) = woken k.
Proof. unfold woken. repeat case_decide; done. Qed.

Lemma wake_map c (ks : list cursor) :
  NoDup (fmap update_chan ks) →
  wake c ks = fmap (λ k, if decide (update_chan k = c) then woken k else k) ks.
Proof.
  induction ks as [|k ks IH]; [done|]. intros Hnd.
  apply NoDup_cons in Hnd as [Hk Hnd]. simpl.
  unfold parked_on. case_bool_decide as Hp.
  - destruct Hp as [Hat Hc]. fold (update_chan k) in Hc.
    rewrite decide_True by done. unfold woken at 1. rewrite decide_True by done.
    f_equal. symmetry. etrans; [|apply list_fmap_id]. apply list_fmap_ext.
    intros i k' Hk'. simpl. case_decide as Hc'; [|done].
    exfalso. apply Hk. rewrite <- Hc, <- Hc' in *.
    apply list_elem_of_fmap. exists k'. split; [done|].
    by eapply list_elem_of_lookup_2.
  - rewrite IH by done. f_equal. case_decide as Hc; [|done].
    unfold woken. case_decide as Hat; [|done].
    exfalso. apply Hp. by split.
Qed.

Lemma notify_map (chs : list nat) w :
  NoDup (fmap update_chan (cursors w)) →
  (∀ c, c ∈ chs → chan_closed w c = false) →
  notify chs w =
    Done (set_cursors
            (fmap (λ k, if decide (update_chan k ∈ chs) then woken k else k)) w).
Proof.
  revert w. induction chs as [|c chs IH]; intros w Hnd Hopen.
  - simpl. f_equal. destruct w as [es cs st ks]. unfold set_cursors; simpl.
    f_equal. symmetry. etrans; [|apply list_fmap_id]. apply list_fmap_ext.
    by intros i k _.
  - simpl. unfold try_send. rewrite Hopen by left. simpl.
    rewrite IH; simpl.
    + f_equal. unfold set_cursors; simpl. f_equal.
      rewrite wake_map by done. rewrite <- list_fmap_compose.
      apply list_fmap_ext. intros i k _. simpl.
      destruct (decide (update_chan k = c)) as [Hc|Hc].
      * rewrite update_chan_woken. rewrite (decide_True (P := update_chan k ∈ c :: chs)).
        2:{ rewrite Hc. left. }
        case_decide; [apply woken_idem|done].
      * case_decide as Hin.
        -- rewrite decide_True; [done|]. by right.
        -- rewrite decide_False; [done|]. intros Hin'.
           apply elem_of_cons in Hin' as [?|?]; done.
    + rewrite wake_map by done. rewrite <- list_fmap_compose.
      erewrite list_fmap_ext; [exact Hnd|]. intros i k _. simpl.
      case_decide; [apply update_chan_woken|done].
    + intros c' Hc'. unfold chan_closed; simpl. apply Hopen. by right.
Qed.

Lemma notify_all w :
  NoDup (fmap update_chan (cursors w)) →
  (∀ k, k ∈ cursors w → chans w !! update_chan k = Some false) →
  notify (fmap update_chan (cursors w)) w = Done (set_cursors (fmap woken) w).
Proof.
  intros Hnd Hopen. rewrite notify_map; [|done|].
  - f_equal. unfold set_cursors. f_equal. apply list_fmap_ext.
    intros i k Hk. simpl. rewrite decide_True; [done|].
    apply list_elem_of_fmap. exists k. split; [done|].
    by eapply list_elem_of_lookup_2.
  - intros c Hc. apply list_elem_of_fmap in Hc as (k & -> & Hk).
    unfold chan_closed. by rewrite (Hopen k Hk).
Qed.

(** ** What [push] does to a well-formed state *)

Lemma wf_new_world : wf new_world.
Proof.
  split; simpl; try done.
  split; simpl; try (intros c Hc; by apply elem_of_nil in Hc).
  apply NoDup_nil_2.
Qed.

Lemma update_chans_fst (ks : list cursor) :
  fmap update_chan ks = (fmap chan_pair ks).*1.
Proof. by rewrite <- list_fmap_compose. Qed.

Lemma wf_distinct w : wf w → NoDup (fmap update_chan (cursors w)).
Proof. intros Hwf. rewrite update_chans_fst. apply Hwf. Qed.

Lemma wf_update_open w k :
  wf w → k ∈ cursors w → chans w !! update_chan k = Some false.
Proof.
  intros Hwf Hk. apply (ok_update_open _ _ (wf_chans _ Hwf)).
  rewrite <- update_chans_fst. apply list_elem_of_fmap. by exists k.
Qed.

Lemma tail_of_Some es t : tail_of es = Some t → length es = S t.
Proof. unfold tail_of. destruct (length es); naive_solver. Qed.

Lemma tail_of_None es : tail_of es = None → es = [].
Proof. unfold tail_of. destruct es; naive_solver. Qed.

(** The state [push] leaves before it notifies: the new entry allocated,
    the old tail linked to it, the head moved. *)
Lemma push_Done ev w :
  wf w →
  ∃ es',
    push ev w =
      Done {| elems := es'; chans := chans w;
              stream := {| head := Some (length (elems w));
                           updateCh := updateCh (stream w) |};
              cursors := fmap woken (cursors w) |} ∧
    length es' = S (length (elems w)) ∧
    es' !! length (elems w) = Some {| event := ev; next := None |} ∧
    ∀ p x, elems w !! p = Some x →
      es' !! p = Some (if decide (head (stream w) = Some p)
                       then {| event := event x; next := Some (length (elems w)) |}
                       else x).
Proof.
  intros Hwf. pose proof (wf_distinct _ Hwf) as Hnd.
  pose proof (λ k, wf_update_open _ k Hwf) as Hop.
  destruct Hwf as [Hl Hh Hr _ _]. rewrite <- update_chans_fst in Hr.
  unfold push. simpl.
  destruct (head (stream w)) as [t|] eqn:Ht.
  - symmetry in Hh. apply tail_of_Some in Hh as Hlen.
    assert (is_Some (elems w !! t)) as [x Hx] by (apply lookup_lt_is_Some; lia).
    unfold store_next, deref; simpl.
    rewrite lookup_app_l by lia. rewrite Hx; simpl.
    rewrite Hr. 
    pose proof (notify_all (set_stream
          (λ e, {| head := Some (length (elems w)); updateCh := updateCh e |})
          (set_elems
             (λ es, <[t:={| event := event x; next := Some (length (elems w)) |}]> es)
             (set_elems (λ es, es ++ [{| event := ev; next := None |}]) w)))) as Hn.
    simpl in Hn. rewrite Hn by done. clear Hn.
    eexists. split; [reflexivity|]. simpl. split_and!.
    + rewrite length_insert, length_app; simpl; lia.
    + rewrite list_lookup_insert_ne by lia. by rewrite list_lookup_middle.
    + intros p y Hp. pose proof (lookup_lt_Some _ _ _ Hp) as Hlt.
      case_decide as Hpt.
      * inversion Hpt; subst p. rewrite list_lookup_insert_eq.
        -- congruence.
        -- rewrite length_app; simpl; lia.
      * rewrite list_lookup_insert_ne by congruence. by rewrite lookup_app_l.
  - simpl. rewrite Hr.
    pose proof (notify_all (set_stream
          (λ e, {| head := Some (length (elems w)); updateCh := updateCh e |})
          (set_elems (λ es, es ++ [{| event := ev; next := None |}]) w))) as Hn.
    simpl in Hn. rewrite Hn by done. clear Hn.
    eexists. split; [reflexivity|]. simpl. split_and!.
    + rewrite length_app; simpl; lia.
    + by rewrite list_lookup_middle.
    + intros p y Hp. pose proof (lookup_lt_Some _ _ _ Hp) as Hlt.
      by rewrite lookup_app_l.
Qed.

(** ** Every reachable state is well formed *)

Lemma sub_woken k : sub (woken k) = sub k.
Proof. unfold woken. by case_decide. Qed.

Lemma chan_pairs_woken (ks : list cursor) :
  fmap chan_pair (fmap woken ks) = fmap chan_pair ks.
Proof.
  rewrite <- list_fmap_compose. apply list_fmap_ext. intros i k _. simpl.
  unfold chan_pair. by rewrite sub_woken.
Qed.

Lemma chan_pairs_insert (ks : list cursor) i k k' :
  ks !! i = Some k → chan_pair k' = chan_pair k →
  fmap chan_pair (<[i := k']> ks) = fmap chan_pair ks.
Proof.
  intros Hk Hp. rewrite list_fmap_insert, Hp.
  apply list_insert_id. rewrite list_lookup_fmap. by rewrite Hk.
Qed.

Lemma wf_push ev w w' : wf w → push ev w = Done w' → wf w'.
Proof.
  intros Hwf Hpush. destruct (push_Done ev w Hwf) as (es' & Heq & Hlen & Hnew & Hold).
  rewrite Heq in Hpush. inversion Hpush; subst w'; clear Hpush Heq.
  destruct Hwf as [Hl Hh Hr Hc He]. split; simpl.
  - intros p x' Hp. pose proof (lookup_lt_Some _ _ _ Hp) as Hlt.
    rewrite Hlen in *.
    destruct (decide (p = length (elems w))) as [->|Hne].
    + rewrite Hnew in Hp. inversion Hp; subst x'. simpl.
      rewrite decide_False by lia. done.
    + assert (is_Some (elems w !! p)) as [x Hx] by (apply lookup_lt_is_Some; lia).
      rewrite (Hold _ _ Hx) in Hp. inversion Hp; subst x'; clear Hp.
      rewrite (decide_True (P := S p < S (length (elems w)))) by lia.
      case_decide as Hhd; simpl.
      * rewrite Hh in Hhd. apply tail_of_Some in Hhd. f_equal. lia.
      * rewrite (Hl _ _ Hx). case_decide as Hs; [done|].
        exfalso. apply Hhd. rewrite Hh. unfold tail_of.
        destruct (length (elems w)) eqn:E; [lia|]. f_equal. lia.
  - unfold tail_of. by rewrite Hlen.
  - by rewrite chan_pairs_woken.
  - by rewrite chan_pairs_woken.
  - intros i k p Hk Hp. apply list_lookup_fmap_Some in Hk as (k0 & -> & Hk0).
    rewrite sub_woken in Hp. specialize (He _ _ _ Hk0 Hp). lia.
Qed.

Lemma wf_subscribe w :
  wf w →
  wf (set_cursors (λ ks, ks ++ [{| sub := (subscribe w).1; at_ := Idle; log := [] |}])
        (subscribe w).2).
Proof.
  intros [Hl Hh Hr Hc He]. unfold subscribe, Head, make_chan; simpl.
  split; simpl; try done.
  - rewrite !fmap_app; simpl.
    rewrite <- Hr. by destruct (updateCh (stream w)).
  - destruct Hc as [Hnd Hop Hal Hcu].
    rewrite !length_app; simpl.
    split; rewrite !fmap_app; simpl.
    + apply NoDup_app. split_and!; [done| |apply NoDup_singleton].
      intros c Hc Hc'. apply list_elem_of_singleton in Hc'. subst c.
      apply Hop in Hc. apply lookup_lt_Some in Hc. lia.
    + intros c Hc. apply elem_of_app in Hc as [Hc|Hc].
      * rewrite <- (assoc_L (++)). rewrite lookup_app_l; [by apply Hop|].
        apply Hop in Hc. by apply lookup_lt_Some in Hc.
      * apply list_elem_of_singleton in Hc. subst c.
        rewrite lookup_app_l by (rewrite length_app; simpl; lia).
        by rewrite list_lookup_middle.
    + intros c Hc. rewrite !length_app; simpl.
      apply elem_of_app in Hc as [Hc|Hc].
      * apply Hal in Hc. lia.
      * apply list_elem_of_singleton in Hc. subst c.
        rewrite ?length_app; simpl. lia.
    + intros c Hc Hc'. apply elem_of_app in Hc as [Hc|Hc];
        apply elem_of_app in Hc' as [Hc'|Hc'].
      * by apply (Hcu c).
      * apply list_elem_of_singleton in Hc'. subst c. apply Hal in Hc. lia.
      * apply list_elem_of_singleton in Hc. subst c.
        apply Hop in Hc'. apply lookup_lt_Some in Hc'.
        rewrite ?length_app in *; simpl in *. lia.
      * apply list_elem_of_singleton in Hc, Hc'.
        rewrite ?length_app in *; simpl in *. lia.
  - intros i k p Hk Hp. apply lookup_snoc_Some in Hk as [[_ Hk]|[_ <-]].
    + by eapply He.
    + simpl in Hp. rewrite Hh in Hp. apply tail_of_Some in Hp. lia.
Qed.

(** Replacing a cursor by one with the same channels and a valid
    position. *)
Lemma wf_set_cursor w i k k' :
  wf w → cursors w !! i = Some k → chan_pair k' = chan_pair k →
  (∀ p, elem (sub k') = Some p → p < length (elems w)) →
  wf (set_cursors (λ ks, <[i := k']> ks) w).
Proof.
  intros [Hl Hh Hr Hc He] Hk Hp Hel. split; simpl; try done.
  - by rewrite (chan_pairs_insert _ _ _ _ Hk Hp).
  - by rewrite (chan_pairs_insert _ _ _ _ Hk Hp).
  - intros j k0 p Hk0 Hp0.
    apply list_lookup_insert_Some in Hk0 as [(-> & -> & _)|[_ Hk0]].
    + by apply Hel.
    + by eapply He.
Qed.

Lemma events_of_app (l1 l2 : list ret) :
  events_of (l1 ++ l2) = events_of l1 ++ events_of l2.
Proof. induction l1 as [|[] l1 IH]; simpl; by rewrite ?IH. Qed.

Lemma keeps_refl k : keeps k k.
Proof. done. Qed.

Lemma keeps_chan_pair k k' : keeps k k' → chan_pair k' = chan_pair k.
Proof. intros [Hs _]. unfold chan_pair. by rewrite Hs. Qed.

Lemma advances_chan_pair w k k' : advances w k k' → chan_pair k' = chan_pair k.
Proof. intros (p & y & _ & _ & Hs & _). unfold chan_pair. by rewrite Hs. Qed.

Lemma GetEvent_step_Done w k k' :
  linked (elems w) →
  GetEvent_step w k = Done k' →
  keeps k k' ∨ advances w k k'.
Proof.
  intros Hl. unfold GetEvent_step, GetEvent_next, GetEvent_select, deref.
  destruct (at_ k) eqn:Hat; simpl.
  - intros [= <-]. by left.
  - destruct (elem (sub k)) as [p|] eqn:Hp; simpl; [|done].
    destruct (elems w !! p) as [x|] eqn:Hx; simpl; [|done].
    pose proof (Hl _ _ Hx) as Hn. rewrite Hn.
    case_decide as Hlt; simpl.
    + destruct (elems w !! S p) as [y|] eqn:Hy; simpl; [|done].
      intros [= <-]. right. by exists p, y.
    + intros [= <-]. by left.
  - destruct (chan_closed w (closeCh (sub k))); intros [= <-]; [|by left].
    left. split; [done|]. simpl. by rewrite events_of_app, app_nil_r.
  - intros [= <-]. by left.
Qed.

Lemma chan_pairs_release c (ks : list cursor) :
  fmap chan_pair (release c <$> ks) = fmap chan_pair ks.
Proof.
  rewrite <- list_fmap_compose. apply list_fmap_ext. intros i k _. simpl.
  unfold release. by case_bool_decide.
Qed.

Lemma wf_Close w i k w' :
  wf w → cursors w !! i = Some k → Close (sub k) w = Done w' → wf w'.
Proof.
  intros [Hl Hh Hr Hc He] Hk. unfold Close.
  destruct (chan_closed w (closeCh (sub k))); [done|]. intros [= <-].
  split; simpl; try done.
  - by rewrite chan_pairs_release.
  - rewrite chan_pairs_release. destruct Hc as [Hnd Hop Hal Hcu].
    split; try done.
    + intros c Hc. rewrite list_lookup_insert_ne; [by apply Hop|].
      intros <-. apply (Hcu (closeCh (sub k))); [|done].
      apply list_elem_of_fmap. exists (chan_pair k). split; [done|].
      apply list_elem_of_fmap. exists k. split; [done|].
      by eapply list_elem_of_lookup_2.
    + intros c Hc. rewrite length_insert. by apply Hal.
  - intros j k0 p Hk0 Hp. apply list_lookup_fmap_Some in Hk0 as (k1 & -> & Hk1).
    eapply He; [done|]. revert Hp. unfold release. by case_bool_decide.
Qed.

Lemma wf_step a w w' : wf w → step a w = Done w' → wf w'.
Proof.
  intros Hwf. destruct a as [ev| |i|i|i]; cbv beta iota delta [step].
  - by apply wf_push.
  - pose proof (wf_subscribe w Hwf) as Hs.
    destruct (subscribe w) as [s w1]. intros [= <-]. exact Hs.
  - destruct (cursors w !! i) as [k|] eqn:Hk; intros [= <-]; [|done].
    apply (wf_set_cursor w i k); try done.
    + unfold enter. by destruct (at_ k).
    + intros p Hp. apply (wf_elem _ Hwf i k); [done|].
      revert Hp. unfold enter. by destruct (at_ k).
  - destruct (cursors w !! i) as [k|] eqn:Hk; [|by intros [= <-]].
    destruct (GetEvent_step w k) as [k'|] eqn:Hst; simpl; [|done].
    intros [= <-].
    destruct (GetEvent_step_Done _ _ _ (wf_linked _ Hwf) Hst)
      as [Hkeep|Hadv].
    + apply (wf_set_cursor w i k); [done..|by apply keeps_chan_pair|].
      intros p Hp. destruct Hkeep as [Hsub _]. rewrite Hsub in Hp.
      by apply (wf_elem _ Hwf i k).
    + apply (wf_set_cursor w i k); [done..|by eapply advances_chan_pair|].
      destruct Hadv as (p0 & y & _ & Hy & Hsub & _). rewrite Hsub. simpl.
      intros p [= <-]. by apply lookup_lt_Some in Hy.
  - destruct (cursors w !! i) as [k|] eqn:Hk; [|by intros [= <-]].
    by apply (wf_Close w i k).
Qed.

Lemma wf_run acts w w' : wf w → run acts w = Done w' → wf w'.
Proof.
  revert w. induction acts as [|a acts IH]; intros w Hwf; simpl.
  - by intros [= <-].
  - destruct (step a w) as [w1|] eqn:Hs; simpl; [|done].
    apply IH. by eapply wf_step.
Qed.

Lemma reachable_wf w : reachable w → wf w.
Proof. intros [acts Hr]. eapply wf_run; [apply wf_new_world|done]. Qed.

Lemma run_app acts1 acts2 w :
  run (acts1 ++ acts2) w = (run acts1 w ≫= run acts2).
Proof.
  revert w. induction acts1 as [|a acts1 IH]; intros w; simpl; [done|].
  destruct (step a w); simpl; [apply IH|done].
Qed.

Lemma reachable_run acts w w' :
  reachable w → run acts w = Done w' → reachable w'.
Proof.
  intros [acts0 Hr] Hrun. exists (acts0 ++ acts). rewrite run_app, Hr. done.
Qed.

(** ** The entries and the pushes *)

Lemma step_elems a w w' :
  step a w = Done w' → (∀ ev, a ≠ APush ev) → elems w' = elems w.
Proof.
  destruct a as [ev| |i|i|i]; cbv beta iota delta [step]; intros Hs Hne.
  - by destruct (Hne ev).
  - unfold subscribe, Head, make_chan in Hs; simpl in Hs. by inversion Hs.
  - destruct (cursors w !! i); by inversion Hs.
  - destruct (cursors w !! i) as [k|]; [|by inversion Hs].
    destruct (GetEvent_step w k); by inversion Hs.
  - destruct (cursors w !! i) as [k|]; [|by inversion Hs].
    unfold Close in Hs. destruct (chan_closed w (closeCh (sub k))); by inversion Hs.
Qed.

Lemma push_events ev w w' :
  wf w → push ev w = Done w' → event <$> elems w' = (event <$> elems w) ++ [ev].
Proof.
  intros Hwf Hpush. destruct (push_Done ev w Hwf) as (es' & Heq & Hlen & Hnew & Hold).
  rewrite Heq in Hpush. inversion Hpush; subst w'; clear Hpush Heq. simpl.
  apply list_eq. intros p. rewrite list_lookup_fmap.
  destruct (decide (p < length (elems w))) as [Hlt|Hge].
  - assert (is_Some (elems w !! p)) as [x Hx] by by apply lookup_lt_is_Some.
    rewrite (Hold _ _ Hx). rewrite lookup_app_l by by rewrite length_fmap.
    rewrite list_lookup_fmap, Hx. simpl. by case_decide.
  - destruct (decide (p = length (elems w))) as [->|Hne].
    + rewrite Hnew. simpl.
      symmetry. apply list_lookup_middle. by rewrite length_fmap.
    + rewrite (lookup_ge_None_2 es') by lia. simpl. symmetry.
      apply lookup_ge_None_2. rewrite length_app, length_fmap; simpl. lia.
Qed.

Lemma step_events a w w' :
  wf w → step a w = Done w' →
  event <$> elems w' = (event <$> elems w) ++ pushes_of [a].
Proof.
  intros Hwf Hs. destruct a as [ev| |i|i|i];
    try (rewrite (step_elems _ _ _ Hs) by done; simpl; by rewrite app_nil_r).
  by apply push_events.
Qed.

Lemma pushes_of_app acts1 acts2 :
  pushes_of (acts1 ++ acts2) = pushes_of acts1 ++ pushes_of acts2.
Proof.
  induction acts1 as [|[] acts1 IH]; simpl; by rewrite ?IH.
Qed.

Lemma run_events acts w w' :
  wf w → run acts w = Done w' →
  event <$> elems w' = (event <$> elems w) ++ pushes_of acts.
Proof.
  revert w. induction acts as [|a acts IH]; intros w Hwf Hr; simpl in Hr.
  - inversion Hr; subst w'. simpl. by rewrite app_nil_r.
  - destruct (step a w) as [w1|] eqn:Hs; simpl in Hr; [|done].
    rewrite (IH w1) by (by eauto using wf_step).
    rewrite (step_events _ _ _ Hwf Hs).
    change (a :: acts) with ([a] ++ acts). by rewrite pushes_of_app, (assoc_L (++)).
Qed.

Lemma walk_linked es p n :
  linked es → p + n = length es → walk n es (Some p) = event <$> drop p es.
Proof.
  intros Hl. revert p. induction n as [|n IH]; intros p Hp.
  - rewrite drop_ge by lia. done.
  - assert (is_Some (es !! p)) as [x Hx] by (apply lookup_lt_is_Some; lia).
    simpl. rewrite Hx. rewrite (drop_S _ _ _ Hx). simpl. f_equal.
    rewrite (Hl _ _ Hx). case_decide as Hlt.
    + apply IH. lia.
    + assert (n = 0) as -> by lia. simpl. rewrite drop_ge by lia. done.
Qed.

(** C6: in every state [w] the program reaches, (1) the entries, followed
    through their [next] links from the first one allocated, carry exactly
    the events pushed so far, in push order; (2) a step that is not a push
    leaves the entries as they are; (3) a push allocates one new entry,
    and every older entry keeps its event, keeps its [next] when that was
    set, and gets the new entry as [next] when it had none: a link is
    written once, from nil to the entry of the push that follows. *)
Theorem entries_form_the_push_history acts w :
  run acts new_world = Done w →
  walk (length (elems w)) (elems w) (Some 0) = pushes_of acts ∧
  (∀ a w', step a w = Done w' → (∀ ev, a ≠ APush ev) → elems w' = elems w) ∧
  (∀ ev, ∃ w' n,
     push ev w = Done w' ∧
     elems w !! n = None ∧
     elems w' !! n = Some {| event := ev; next := None |} ∧
     length (elems w') = S (length (elems w)) ∧
     ∀ p x, elems w !! p = Some x →
       ∃ x', elems w' !! p = Some x' ∧ event x' = event x ∧
         next x' = match next x with Some m => Some m | None => Some n end).
Proof.
  intros Hrun. pose proof (wf_run _ _ _ wf_new_world Hrun) as Hwf.
  split_and!.
  - rewrite (walk_linked _ 0) by (by apply Hwf || lia).
    rewrite drop_0. by rewrite (run_events _ _ _ wf_new_world Hrun).
  - intros a w'. apply step_elems.
  - intros ev. destruct (push_Done ev w Hwf) as (es' & Heq & Hlen & Hnew & Hold).
    eexists _, (length (elems w)). split; [exact Heq|]. simpl. split_and!; try done.
    + by apply lookup_ge_None_2.
    + intros p x Hx. rewrite (Hold _ _ Hx). eexists. split; [done|].
      pose proof (lookup_lt_Some _ _ _ Hx) as Hlt.
      rewrite (wf_head _ Hwf). unfold tail_of.
      destruct (length (elems w)) as [|t] eqn:Ht; [lia|].
      case_decide as Hpt; simpl; (split; [done|]);
        rewrite (wf_linked _ Hwf _ _ Hx), Ht.
      * inversion Hpt; subst t. by rewrite decide_False by lia.
      * rewrite decide_True; [done|]. assert (p ≠ t) by congruence. lia.
Qed.

Lemma entries_form_the_push_history_witness :
  ∃ w, run [APush (Some 5); ASubscribe; APush (Some 6)] new_world = Done w ∧
    walk (length (elems w)) (elems w) (Some 0) = [Some 5; Some 6] ∧
    ∃ w' n, push (Some 7) w = Done w' ∧ elems w !! n = None ∧
      elems w' !! n = Some {| event := Some 7; next := None |}.
Proof.
  eexists. split; [reflexivity|].
  pose proof (entries_form_the_push_history
    [APush (Some 5); ASubscribe; APush (Some 6)] _ eq_refl) as (Hw & _ & Hp).
  split; [exact Hw|].
  destruct (Hp (Some 7)) as (w' & n & H1 & H2 & H3 & _). by exists w', n.
Defined.

(** ** push *)

Lemma registered_update_chan w i k :
  wf w → cursors w !! i = Some k → update_chan k ∈ items (updateCh (stream w)).
Proof.
  intros Hwf Hk. rewrite (wf_registered _ Hwf), <- update_chans_fst.
  apply list_elem_of_fmap. exists k. split; [done|].
  by eapply list_elem_of_lookup_2.
Qed.

(** C7: in every reachable state, [push ev] returns (it never blocks and
    does not panic), and in the state it leaves: one new entry holding
    [ev] with no successor was allocated; the old tail, when there was
    one, has the new entry as [next], and no other entry changed; the
    head is the new entry; the registered channels and the channels'
    state are as before; and every subscriber, all of whose update
    channels are registered, was notified once: a subscriber parked in its
    [select] is back at the top of its loop, and for any other subscriber
    the notify is dropped and nothing changes. *)
Theorem push_links_and_notifies w ev :
  reachable w →
  ∃ w' n,
    push ev w = Done w' ∧
    elems w !! n = None ∧
    elems w' !! n = Some {| event := ev; next := None |} ∧
    length (elems w') = S (length (elems w)) ∧
    (∀ t, head (stream w) = Some t →
       ∃ x, elems w !! t = Some x ∧
            elems w' !! t = Some {| event := event x; next := Some n |}) ∧
    (∀ p x, elems w !! p = Some x → head (stream w) ≠ Some p →
       elems w' !! p = Some x) ∧
    stream w' = {| head := Some n; updateCh := updateCh (stream w) |} ∧
    chans w' = chans w ∧
    length (cursors w') = length (cursors w) ∧
    ∀ i k, cursors w !! i = Some k →
      update_chan k ∈ items (updateCh (stream w)) ∧
      cursors w' !! i =
        Some (if decide (at_ k = Parked)
              then {| sub := sub k; at_ := AtLoop; log := log k |}
              else k).
Proof.
  intros Hre. pose proof (reachable_wf _ Hre) as Hwf.
  destruct (push_Done ev w Hwf) as (es' & Heq & Hlen & Hnew & Hold).
  eexists _, (length (elems w)). split; [exact Heq|]. simpl. split_and!; try done.
  - by apply lookup_ge_None_2.
  - intros t Ht. pose proof Ht as Ht'.
    rewrite (wf_head _ Hwf) in Ht'. apply tail_of_Some in Ht'.
    assert (is_Some (elems w !! t)) as [x Hx] by (apply lookup_lt_is_Some; lia).
    exists x. split; [done|]. rewrite (Hold _ _ Hx). by rewrite decide_True.
  - intros p x Hx Hne. rewrite (Hold _ _ Hx). by rewrite decide_False.
  - by rewrite length_fmap.
  - intros i k Hk. split; [by eapply registered_update_chan|].
    rewrite list_lookup_fmap, Hk. done.
Qed.

Lemma push_links_and_notifies_witness :
  ∃ w w' n,
    run [APush (Some 1); ASubscribe; ACall 0; AStep 0; AStep 0] new_world = Done w ∧
    push (Some 2) w = Done w' ∧
    elems w' !! n = Some {| event := Some 2; next := None |} ∧
    stream w' = {| head := Some n; updateCh := updateCh (stream w) |} ∧
    ∀ i k, cursors w !! i = Some k →
      cursors w' !! i =
        Some (if decide (at_ k = Parked)
              then {| sub := sub k; at_ := AtLoop; log := log k |}
              else k).
Proof.
  eexists.
  destruct (push_links_and_notifies _ (Some 2)
    (ex_intro (λ acts, run acts new_world = Done _)
       [APush (Some 1); ASubscribe; ACall 0; AStep 0; AStep 0] eq_refl))
    as (w' & n & H1 & _ & H3 & _ & _ & _ & H7 & _ & _ & H10).
  exists w', n. split_and!; try done. intros i k Hk. by apply H10.
Defined.

(** ** What a cursor returns *)

Lemma pending_push ev w w' k p :
  wf w → push ev w = Done w' → elem (sub k) = Some p → p < length (elems w) →
  event <$> drop (S p) (elems w') = (event <$> drop (S p) (elems w)) ++ [ev].
Proof.
  intros Hwf Hpush Hp Hlt.
  rewrite !fmap_drop, (push_events _ _ _ Hwf Hpush).
  rewrite drop_app_le; [done|]. rewrite length_fmap. lia.
Qed.

(** What one step of the program does to a cursor. *)
Lemma step_cursor a w w' i k :
  wf w → step a w = Done w' → cursors w !! i = Some k →
  ∃ k', cursors w' !! i = Some k' ∧
        (keeps k k' ∨ (advances w k k' ∧ elems w' = elems w)).
Proof.
  intros Hwf Hs Hk.
  destruct a as [ev| |j|j|j]; cbv beta iota delta [step] in Hs.
  - destruct (push_Done ev w Hwf) as (es' & Heq & _).
    rewrite Heq in Hs. inversion Hs; subst w'; clear Hs.
    exists (woken k). simpl. rewrite list_lookup_fmap, Hk. split; [done|].
    left. split; [apply sub_woken|]. unfold woken. by case_decide.
  - unfold subscribe, Head, make_chan in Hs; simpl in Hs.
    inversion Hs; subst w'; clear Hs. exists k. simpl.
    rewrite lookup_app_l by by eapply lookup_lt_Some. auto using keeps_refl.
  - destruct (cursors w !! j) as [kj|] eqn:Hkj; inversion Hs; subst w'; clear Hs;
      [|eauto using keeps_refl].
    simpl. destruct (decide (j = i)) as [->|Hne].
    + rewrite list_lookup_insert_eq by by eapply lookup_lt_Some.
      assert (kj = k) as -> by congruence. exists (enter k). split; [done|].
      left. unfold enter. by destruct (at_ k).
    + rewrite list_lookup_insert_ne by done. eauto using keeps_refl.
  - destruct (cursors w !! j) as [kj|] eqn:Hkj;
      [|inversion Hs; subst w'; eauto using keeps_refl].
    destruct (GetEvent_step w kj) as [k'|] eqn:Hst; simpl in Hs; [|done].
    inversion Hs; subst w'; clear Hs. simpl.
    destruct (decide (j = i)) as [->|Hne].
    + rewrite list_lookup_insert_eq by by eapply lookup_lt_Some.
      assert (kj = k) as -> by congruence. exists k'. split; [done|].
      destruct (GetEvent_step_Done _ _ _ (wf_linked _ Hwf) Hst); auto.
    + rewrite list_lookup_insert_ne by done. eauto using keeps_refl.
  - destruct (cursors w !! j) as [kj|] eqn:Hkj;
      [|inversion Hs; subst w'; eauto using keeps_refl].
    unfold Close in Hs. destruct (chan_closed w (closeCh (sub kj))); [done|].
    inversion Hs; subst w'; clear Hs. simpl.
    exists (release (closeCh (sub kj)) k). rewrite list_lookup_fmap, Hk.
    split; [done|]. left. unfold release. case_bool_decide; [|done].
    split; [done|]. simpl. by rewrite events_of_app, app_nil_r.
Qed.

Lemma step_chan_pair a w w' i k :
  wf w → step a w = Done w' → cursors w !! i = Some k →
  ∃ k', cursors w' !! i = Some k' ∧ chan_pair k' = chan_pair k.
Proof.
  intros Hwf Hs Hk.
  destruct (step_cursor _ _ _ _ _ Hwf Hs Hk) as (k' & Hk' & [Hkeep|[Hadv _]]);
    exists k'; eauto using keeps_chan_pair, advances_chan_pair.
Qed.

Lemma step_tracks a w w' i k P :
  wf w → step a w = Done w' → cursors w !! i = Some k → tracks w k P →
  ∃ k', cursors w' !! i = Some k' ∧ tracks w' k' (P ++ pushes_of [a]).
Proof.
  intros Hwf Hs Hk Ht.
  pose proof (step_events _ _ _ Hwf Hs) as Hev.
  destruct (step_cursor _ _ _ _ _ Hwf Hs Hk) as (k' & Hk' & [Hkeep|[Hadv He]]);
    exists k'; (split; [done|]); revert Ht; unfold tracks, pending.
  - destruct Hkeep as [-> ->].
    destruct (elem (sub k)) as [p|] eqn:Hp; [|done]. intros <-.
    rewrite !fmap_drop, Hev, drop_app_le, (assoc_L (++)); [done|].
    rewrite length_fmap. by eapply (wf_elem _ Hwf i k).
  - rewrite He in Hev. apply (f_equal length) in Hev.
    rewrite length_app in Hev.
    assert (pushes_of [a] = []) as -> by (apply length_zero_iff_nil; lia).
    destruct Hadv as (p & y & Hp & Hy & -> & ->). rewrite Hp. simpl. intros <-.
    rewrite He, (drop_S _ _ _ Hy), events_of_app. simpl.
    by rewrite app_nil_r, <- (assoc_L (++)).
Qed.

Lemma run_tracks acts w w' i k P :
  wf w → run acts w = Done w' → cursors w !! i = Some k → tracks w k P →
  ∃ k', cursors w' !! i = Some k' ∧ tracks w' k' (P ++ pushes_of acts).
Proof.
  revert w k P. induction acts as [|a acts IH]; intros w k P Hwf Hr Hk Ht;
    simpl in Hr.
  - inversion Hr; subst w'. exists k. simpl. by rewrite app_nil_r.
  - destruct (step a w) as [w1|] eqn:Hs; simpl in Hr; [|done].
    destruct (step_tracks _ _ _ _ _ _ Hwf Hs Hk Ht) as (k1 & Hk1 & Ht1).
    destruct (IH w1 k1 _ (wf_step _ _ _ Hwf Hs) Hr Hk1 Ht1) as (k' & Hk' & Ht').
    exists k'. split; [done|].
    change (a :: acts) with ([a] ++ acts).
    by rewrite pushes_of_app, (assoc_L (++)).
Qed.

Lemma tracks_prefix w k P : tracks w k P → events_of (log k) `prefix_of` P.
Proof.
  unfold tracks. destruct (elem (sub k)).
  - intros <-. by apply prefix_app_r.
  - intros ->. apply prefix_nil.
Qed.

Lemma step_cursors_length a w w' :
  wf w → step a w = Done w' →
  length (cursors w') = length (cursors w) + subscribes_of [a].
Proof.
  intros Hwf.
  destruct a as [ev| |j|j|j]; cbv beta iota delta [step]; intros Hs; simpl.
  - destruct (push_Done ev w Hwf) as (es' & Heq & _).
    rewrite Heq in Hs. inversion Hs; subst w'. simpl. rewrite length_fmap. lia.
  - unfold subscribe, Head, make_chan in Hs; simpl in Hs.
    inversion Hs; subst w'. simpl. by rewrite length_app.
  - destruct (cursors w !! j); inversion Hs; subst w'; simpl;
      rewrite ?length_insert; lia.
  - destruct (cursors w !! j) as [k|]; [|inversion Hs; subst w'; lia].
    destruct (GetEvent_step w k); simpl in Hs; inversion Hs; subst w'; simpl.
    rewrite length_insert. lia.
  - destruct (cursors w !! j) as [k|]; [|inversion Hs; subst w'; lia].
    unfold Close in Hs. destruct (chan_closed w (closeCh (sub k))); [done|].
    inversion Hs; subst w'; simpl. rewrite length_fmap. lia.
Qed.

Lemma run_cursors_length acts w w' :
  wf w → run acts w = Done w' →
  length (cursors w') = length (cursors w) + subscribes_of acts.
Proof.
  revert w. induction acts as [|a acts IH]; intros w Hwf Hr; simpl in Hr.
  - inversion Hr; subst w'. simpl. lia.
  - destruct (step a w) as [w1|] eqn:Hs; simpl in Hr; [|done].
    rewrite (IH _ (wf_step _ _ _ Hwf Hs) Hr), (step_cursors_length _ _ _ Hwf Hs).
    destruct a; simpl; lia.
Qed.

Lemma subscribe_cursor w :
  wf w →
  ∃ w1 k, step ASubscribe w = Done w1 ∧
    cursors w1 !! length (cursors w) = Some k ∧
    elems w1 = elems w ∧
    at_ k = Idle ∧ log k = [] ∧ elem (sub k) = head (stream w) ∧
    chan_closed w1 (closeCh (sub k)) = false ∧
    tracks w1 k [].
Proof.
  intros Hwf. eexists _, _. split; [reflexivity|]. simpl.
  split; [by rewrite list_lookup_middle|].
  split_and!; try done.
  - unfold chan_closed; simpl. rewrite length_app; simpl.
    rewrite lookup_app_r by (rewrite length_app; simpl; lia).
    rewrite length_app; simpl.
    by replace (length (chans w) + 1 - (length (chans w) + 1)) with 0 by lia.
  - unfold tracks, pending; simpl. rewrite (wf_head _ Hwf).
    destruct (tail_of (elems w)) as [t|] eqn:Ht; [|done].
    apply tail_of_Some in Ht. rewrite drop_ge by lia. done.
Qed.

Lemma subscribed_cursor_tracks pre post w :
  run (pre ++ ASubscribe :: post) new_world = Done w →
  ∃ k, cursors w !! subscribes_of pre = Some k ∧ tracks w k (pushes_of post).
Proof.
  intros Hr. rewrite run_app in Hr.
  destruct (run pre new_world) as [w0|] eqn:Hpre; [|done].
  pose proof (wf_run _ _ _ wf_new_world Hpre) as Hwf0.
  pose proof (run_cursors_length _ _ _ wf_new_world Hpre) as Hlen. simpl in Hlen.
  destruct (subscribe_cursor w0 Hwf0) as (w1 & k & Hs & Hk & _ & _ & _ & _ & _ & Ht).
  change (step ASubscribe w0 ≫= run post = Done w) in Hr.
  rewrite Hs in Hr. change (run post w1 = Done w) in Hr. rewrite Hlen in Hk.
  destruct (run_tracks post w1 w _ k [] (wf_step _ _ _ Hwf0 Hs) Hr Hk Ht)
    as (k' & Hk' & Ht').
  by exists k'.
Qed.

(** C4: (1) whatever the schedule before and after a [subscribe], the
    events the new cursor has been returned are, in order, the first of
    the events pushed after the [subscribe]: none of them comes from a push
    made before it.  (2) After push(E1); S1 := subscribe(); push(E2), the
    first [GetEvent] on S1 returns E2; and (3) when E1 is a (non-nil)
    event other than E2 and E1 is not pushed again, no schedule makes a
    [GetEvent] on S1 return E1. *)
Theorem cursor_sees_only_later_pushes :
  (∀ pre post w,
     run (pre ++ ASubscribe :: post) new_world = Done w →
     ∃ k, cursors w !! subscribes_of pre = Some k ∧
          events_of (log k) `prefix_of` pushes_of post) ∧
  (∀ E1 E2, ∃ w1 w2 k,
     run [APush E1; ASubscribe; APush E2] new_world = Done w1 ∧
     GetEvent 0 w1 = Done w2 ∧
     cursors w2 !! 0 = Some k ∧ at_ k = Idle ∧ log k = [Evnt E2]) ∧
  (∀ E1 E2 post w k,
     E1 ≠ None → E1 ≠ E2 → E1 ∉ pushes_of post →
     run ([APush E1; ASubscribe; APush E2] ++ post) new_world = Done w →
     cursors w !! 0 = Some k →
     E1 ∉ go_value <$> log k).
Proof.
  split_and!.
  - intros pre post w Hr.
    destruct (subscribed_cursor_tracks _ _ _ Hr) as (k & Hk & Ht).
    exists k. split; [done|]. by eapply tracks_prefix.
  - intros E1 E2. eexists _, _, _. split; [reflexivity|].
    split; [reflexivity|]. done.
  - intros E1 E2 post w k Hnil Hne Hpost Hr Hk Hin.
    destruct (subscribed_cursor_tracks [APush E1] (APush E2 :: post) w Hr)
      as (k' & Hk' & Ht).
    simpl in Hk'. assert (k' = k) as -> by congruence.
    apply tracks_prefix in Ht. simpl in Ht.
    apply list_elem_of_fmap in Hin as (r & Hr' & Hin).
    destruct r as [e|]; simpl in Hr'; [subst e|congruence].
    assert (E1 ∈ events_of (log k)) as Hev.
    { clear -Hin. induction (log k) as [|r l IH]; [by apply elem_of_nil in Hin|].
      apply elem_of_cons in Hin as [<-|Hin]; simpl; [left|].
      destruct r; [right|]; by apply IH. }
    destruct Ht as [rest Ht]. 
    assert (E1 ∈ events_of (log k) ++ rest) as HE by (apply elem_of_app; by left).
    rewrite <- Ht in HE. by apply elem_of_cons in HE as [?|?].
Qed.

Lemma cursor_sees_only_later_pushes_witness :
  ∃ w k,
    run ([APush (Some 1); ASubscribe; APush (Some 2)] ++ [ACall 0; AStep 0])
      new_world = Done w ∧
    cursors w !! 0 = Some k ∧
    events_of (log k) `prefix_of` [Some 2] ∧
    Some 1 ∉ go_value <$> log k.
Proof.
  eexists _, _. split; [reflexivity|]. split; [reflexivity|]. split.
  - destruct (proj1 cursor_sees_only_later_pushes
                [APush (Some 1)] [APush (Some 2); ACall 0; AStep 0] _ eq_refl)
      as (k & Hk & Hp).
    inversion Hk; subst k. exact Hp.
  - eapply (proj2 (proj2 cursor_sees_only_later_pushes)
              (Some 1) (Some 2) [ACall 0; AStep 0]);
      [discriminate|discriminate|simpl; apply not_elem_of_nil
      |reflexivity|reflexivity].
Defined.

(** ** Channels of a cursor over time *)

Lemma chan_closed_true w c : chan_closed w c = true ↔ chans w !! c = Some true.
Proof.
  unfold chan_closed. destruct (chans w !! c) as [[]|]; simpl; naive_solver.
Qed.

Lemma step_closed a w w' c :
  step a w = Done w' → chan_closed w c = true → chan_closed w' c = true.
Proof.
  rewrite !chan_closed_true. intros Hs Hc.
  destruct a as [ev| |j|j|j]; cbv beta iota delta [step] in Hs.
  - revert Hs. unfold push.
    destruct (match head (stream _) with Some _ => _ | None => _ end) as [w1|] eqn:E;
      simpl; [|done].
    assert (chans w1 = chans w) as Hw1.
    { revert E. simpl. destruct (head (stream w)); [|by intros [= <-]].
      unfold store_next. destruct (deref _ _); simpl; [|done]. by intros [= <-]. }
    set (w2 := set_stream _ w1). assert (chans w2 = chans w) as Hw2 by done.
    clearbody w2. clear E Hw1. revert w2 Hw2.
    induction (items (updateCh (stream w1))) as [|u chs IH]; intros w2 Hw2; simpl.
    + intros [= <-]. by rewrite Hw2.
    + unfold try_send. destruct (chan_closed w2 u); simpl; [done|]. by apply IH.
  - unfold subscribe, Head, make_chan in Hs; simpl in Hs.
    inversion Hs; subst w'; clear Hs. simpl.
    pose proof (lookup_lt_Some _ _ _ Hc).
    rewrite lookup_app_l by (rewrite length_app; simpl; lia).
    by rewrite lookup_app_l.
  - destruct (cursors w !! j); by inversion Hs; subst w'.
  - destruct (cursors w !! j) as [k|]; [|by inversion Hs; subst w'].
    destruct (GetEvent_step w k); simpl in Hs; by inversion Hs; subst w'.
  - destruct (cursors w !! j) as [k|]; [|by inversion Hs; subst w'].
    unfold Close in Hs. destruct (chan_closed w (closeCh (sub k))); [done|].
    inversion Hs; subst w'; clear Hs. simpl.
    destruct (decide (closeCh (sub k) = c)) as [->|Hne].
    + rewrite list_lookup_insert_eq; [done|]. by eapply lookup_lt_Some.
    + by rewrite list_lookup_insert_ne.
Qed.

(** Once closed, the close channel of a cursor stays closed. *)
Lemma run_closed acts w w' i k :
  wf w → run acts w = Done w' → cursors w !! i = Some k →
  chan_closed w (closeCh (sub k)) = true →
  ∃ k', cursors w' !! i = Some k' ∧ closeCh (sub k') = closeCh (sub k) ∧
        chan_closed w' (closeCh (sub k')) = true.
Proof.
  revert w k. induction acts as [|a acts IH]; intros w k Hwf Hr Hk Hc;
    simpl in Hr.
  - inversion Hr; subst w'. by exists k.
  - destruct (step a w) as [w1|] eqn:Hs; simpl in Hr; [|done].
    destruct (step_chan_pair _ _ _ _ _ Hwf Hs Hk) as (k1 & Hk1 & Hp1).
    assert (closeCh (sub k1) = closeCh (sub k)) as Hcl
      by (unfold chan_pair in Hp1; congruence).
    destruct (IH w1 k1 (wf_step _ _ _ Hwf Hs) Hr Hk1) as (k' & Hk' & Hcl' & Hc').
    { rewrite Hcl. by eapply step_closed. }
    exists k'. split; [done|]. split; [congruence|done].
Qed.

Lemma Close_closes w i k :
  wf w → cursors w !! i = Some k → chan_closed w (closeCh (sub k)) = false →
  ∃ w', step (AClose i) w = Done w' ∧ chan_closed w' (closeCh (sub k)) = true.
Proof.
  intros Hwf Hk Hopen. simpl. rewrite Hk. unfold Close. rewrite Hopen.
  eexists. split; [done|]. apply chan_closed_true. simpl.
  apply list_lookup_insert_eq.
  apply (ok_close_alloc _ _ (wf_chans _ Hwf)).
  apply list_elem_of_fmap. exists (chan_pair k). split; [done|].
  apply list_elem_of_fmap. exists k. split; [done|].
  by eapply list_elem_of_lookup_2.
Qed.

(** C8: (1) the subscription [subscribe] returns has an open close
    channel; (2) [Close] on a cursor of a reachable state whose close
    channel is still open succeeds and closes it; (3) from then on, after
    whatever else happens, a further [Close] on the same cursor panics
    with "close of closed channel". *)
Theorem Close_twice_panics :
  (∀ w, reachable w →
     ∃ w1 k, step ASubscribe w = Done w1 ∧
       cursors w1 !! length (cursors w) = Some k ∧
       chan_closed w1 (closeCh (sub k)) = false) ∧
  (∀ w i k,
     reachable w → cursors w !! i = Some k →
     chan_closed w (closeCh (sub k)) = false →
     ∃ w', step (AClose i) w = Done w' ∧
       chan_closed w' (closeCh (sub k)) = true ∧
       ∀ acts w'', run acts w' = Done w'' →
         step (AClose i) w'' = Panic close_of_closed_channel).
Proof.
  split.
  - intros w Hre. pose proof (reachable_wf _ Hre) as Hwf.
    destruct (subscribe_cursor w Hwf) as (w1 & k & Hs & Hk & _ & _ & _ & _ & Hc & _).
    by exists w1, k.
  - intros w i k Hre Hk Hopen. pose proof (reachable_wf _ Hre) as Hwf.
    destruct (Close_closes w i k Hwf Hk Hopen) as (w' & Hs & Hc).
    exists w'. split; [done|].
    split; [done|]. intros acts w'' Hr.
    destruct (step_chan_pair _ _ _ _ _ Hwf Hs Hk) as (k1 & Hk1 & Hp1).
    assert (closeCh (sub k1) = closeCh (sub k)) as Hcl
      by (unfold chan_pair in Hp1; congruence).
    destruct (run_closed acts w' w'' i k1 (wf_step _ _ _ Hwf Hs) Hr Hk1)
      as (k2 & Hk2 & _ & Hc2); [by rewrite Hcl|].
    simpl. rewrite Hk2. unfold Close. by rewrite Hc2.
Qed.

Lemma Close_twice_panics_witness :
  ∃ w w',
    run [APush (Some 0); ASubscribe] new_world = Done w ∧
    step (AClose 0) w = Done w' ∧
    step (AClose 0) w' = Panic close_of_closed_channel.
Proof.
  eexists.
  destruct (proj2 Close_twice_panics _ 0 _
    (ex_intro (λ acts, run acts new_world = Done _)
       [APush (Some 0); ASubscribe] eq_refl) eq_refl eq_refl)
    as (w' & Hs & _ & Hp).
  exists w'. split; [reflexivity|]. split; [exact Hs|]. by apply (Hp []).
Defined.

(** ** A call of GetEvent with nothing scheduled in between *)

Lemma GetEvent_nil w i k :
  cursors w !! i = Some k → at_ k = Idle → elem (sub k) = None →
  run [ACall i; AStep i] w = Panic nil_dereference ∧
  GetEvent i w = Panic nil_dereference.
Proof.
  intros Hk Hat Hel. pose proof (lookup_lt_Some _ _ _ Hk) as Hlt.
  unfold GetEvent. simpl. rewrite Hk. simpl.
  rewrite list_lookup_insert_eq by done. unfold enter. rewrite Hat. simpl.
  unfold GetEvent_step, GetEvent_next. simpl. rewrite Hel. done.
Qed.

Lemma step_AStep w i k k' :
  cursors w !! i = Some k → GetEvent_step w k = Done k' →
  step (AStep i) w = Done (set_cursors (λ ks, <[i := k']> ks) w).
Proof. intros Hk Hs. simpl. by rewrite Hk, Hs. Qed.

Lemma set_cursors_insert w i k1 k2 :
  set_cursors (λ ks, <[i := k2]> ks) (set_cursors (λ ks, <[i := k1]> ks) w)
  = set_cursors (λ ks, <[i := k2]> ks) w.
Proof. unfold set_cursors; simpl. by rewrite list_insert_insert_eq. Qed.

Lemma lookup_set_cursors w i k k' :
  cursors w !! i = Some k →
  cursors (set_cursors (λ ks, <[i := k']> ks) w) !! i = Some k'.
Proof.
  intros Hk. simpl. apply list_lookup_insert_eq. by eapply lookup_lt_Some.
Qed.

Lemma GetEvent_Idle w i k p x :
  cursors w !! i = Some k → at_ k = Idle →
  elem (sub k) = Some p → elems w !! p = Some x →
  (∀ n, next x = Some n → is_Some (elems w !! n)) →
  ∃ k',
    GetEvent i w = Done (set_cursors (λ ks, <[i := k']> ks) w) ∧
    match next x with
    | Some n =>
        ∃ y, elems w !! n = Some y ∧
          k' = {| sub := {| sub_updateCh := sub_updateCh (sub k);
                            closeCh := closeCh (sub k); elem := Some n |};
                  at_ := Idle; log := log k ++ [Evnt (event y)] |}
    | None =>
        k' = if chan_closed w (closeCh (sub k))
             then {| sub := sub k; at_ := Idle; log := log k ++ [EndOfStream] |}
             else {| sub := sub k; at_ := Parked; log := log k |}
    end.
Proof.
  intros Hk Hat Hel Hx Hnext.
  set (k1 := {| sub := sub k; at_ := AtLoop; log := log k |}).
  set (w1 := set_cursors (λ ks, <[i := k1]> ks) w).
  assert (step (ACall i) w = Done w1) as H1.
  { simpl. rewrite Hk. unfold enter. by rewrite Hat. }
  assert (cursors w1 !! i = Some k1) as Hk1 by by eapply lookup_set_cursors.
  unfold GetEvent.
  change (run [ACall i; AStep i; AStep i] w)
    with (step (ACall i) w ≫= λ w, step (AStep i) w ≫= λ w, step (AStep i) w ≫= Done).
  rewrite H1. cbn [mbind res_bind].
  destruct (next x) as [n|] eqn:Hn.
  - destruct (Hnext n eq_refl) as [y Hy].
    set (k2 := {| sub := {| sub_updateCh := sub_updateCh (sub k);
                            closeCh := closeCh (sub k); elem := Some n |};
                  at_ := Idle; log := log k ++ [Evnt (event y)] |}).
    assert (GetEvent_step w1 k1 = Done k2) as H2.
    { unfold GetEvent_step, GetEvent_next, deref; simpl.
      rewrite Hel, Hx; simpl. rewrite Hn; simpl. by rewrite Hy. }
    rewrite (step_AStep _ _ _ _ Hk1 H2). cbn [mbind res_bind].
    unfold w1. rewrite set_cursors_insert.
    erewrite step_AStep; [| by eapply lookup_set_cursors | reflexivity].
    cbn [mbind res_bind]. rewrite set_cursors_insert.
    exists k2. split; [done|]. by exists y.
  - set (k2 := {| sub := sub k; at_ := AtSelect; log := log k |}).
    assert (GetEvent_step w1 k1 = Done k2) as H2.
    { unfold GetEvent_step, GetEvent_next, deref; simpl.
      rewrite Hel, Hx; simpl. by rewrite Hn. }
    rewrite (step_AStep _ _ _ _ Hk1 H2). cbn [mbind res_bind].
    unfold w1. rewrite set_cursors_insert.
    set (k3 := if chan_closed w (closeCh (sub k))
               then {| sub := sub k; at_ := Idle; log := log k ++ [EndOfStream] |}
               else {| sub := sub k; at_ := Parked; log := log k |}).
    assert (GetEvent_step (set_cursors (λ ks, <[i := k2]> ks) w) k2 = Done k3) as H3.
    { unfold GetEvent_step, GetEvent_select, k3; simpl.
      change (chan_closed (set_cursors _ w) ?c) with (chan_closed w c).
      by destruct (chan_closed w (closeCh (sub k))). }
    rewrite (step_AStep _ _ _ _ (lookup_set_cursors _ _ _ _ Hk) H3).
    cbn [mbind res_bind]. rewrite set_cursors_insert.
    by exists k3.
Qed.

Lemma run_pushes evs w i k :
  wf w → cursors w !! i = Some k → at_ k = Idle →
  ∃ w', run (pushes evs) w = Done w' ∧ wf w' ∧
    cursors w' !! i = Some k ∧
    event <$> elems w' = (event <$> elems w) ++ evs ∧
    chans w' = chans w.
Proof.
  revert w. induction evs as [|ev evs IH]; intros w Hwf Hk Hat.
  - exists w. simpl. by rewrite app_nil_r.
  - destruct (push_Done ev w Hwf) as (es' & Heq & _).
    pose proof (wf_push _ _ _ Hwf Heq) as Hwf1.
    pose proof (push_events _ _ _ Hwf Heq) as Hev1.
    edestruct (IH _ Hwf1) as (w' & Hr & Hwf' & Hk' & Hev & Hch).
    { simpl. rewrite list_lookup_fmap, Hk. simpl. unfold woken.
      rewrite decide_False; [done|]. by rewrite Hat. }
    { done. }
    exists w'. split; [|split_and!; try done].
    + change (pushes (ev :: evs)) with (APush ev :: pushes evs).
      change (run (APush ev :: pushes evs) w)
        with (push ev w ≫= run (pushes evs)).
      by rewrite Heq.
    + rewrite Hev, Hev1. by rewrite <- (assoc_L (++)).
Qed.

(** C1, at the input on which the code breaks it: a cursor created on a
    stream that has never been pushed to holds a nil position, and after
    any number of pushes its first [GetEvent] dereferences nil instead of
    returning the first of them (or blocking when there is none). *)
Theorem GetEvent_after_subscribe_on_new_stream_panics (evs : list ptr) :
  run (ASubscribe :: pushes evs ++ [ACall 0; AStep 0]) new_world
  = Panic nil_dereference.
Proof.
  destruct (subscribe_cursor new_world wf_new_world)
    as (w1 & k & Hs & Hk & _ & Hat & _ & Hel & _).
  change (run (ASubscribe :: pushes evs ++ [ACall 0; AStep 0]) new_world)
    with (step ASubscribe new_world ≫= run (pushes evs ++ [ACall 0; AStep 0])).
  rewrite Hs. change (run (pushes evs ++ [ACall 0; AStep 0]) w1 = Panic nil_dereference).
  destruct (run_pushes evs w1 0 k) as (w2 & Hr & _ & Hk2 & _); [|done..|].
  { exact (wf_step _ _ _ wf_new_world Hs). }
  rewrite run_app, Hr.
  by apply (GetEvent_nil w2 0 k).
Qed.

Lemma no_pushes_no_entries acts w :
  run acts new_world = Done w → pushes_of acts = [] → elems w = [].
Proof.
  intros Hr Hp. pose proof (run_events _ _ _ wf_new_world Hr) as He.
  rewrite Hp in He. simpl in He. by apply fmap_nil_inv in He.
Qed.

(** C3: when no event has been pushed so far, the subscription that
    [subscribe] returns has a nil position; a [GetEvent] on it, at once
    (where a blocking pull would wait) or after any number of pushes
    (where it would return the first of them), panics on the nil
    dereference of [s.elem.next]. *)
Theorem subscribe_on_empty_log_then_GetEvent_panics acts w :
  run acts new_world = Done w → pushes_of acts = [] →
  ∃ w1 k,
    step ASubscribe w = Done w1 ∧
    cursors w1 !! length (cursors w) = Some k ∧
    elem (sub k) = None ∧ at_ k = Idle ∧
    ∀ evs, ∃ w2,
      run (pushes evs) w1 = Done w2 ∧
      GetEvent (length (cursors w)) w2 = Panic nil_dereference.
Proof.
  intros Hr Hp. pose proof (wf_run _ _ _ wf_new_world Hr) as Hwf.
  pose proof (no_pushes_no_entries _ _ Hr Hp) as He.
  destruct (subscribe_cursor w Hwf) as (w1 & k & Hs & Hk & _ & Hat & _ & Hel & _).
  rewrite (wf_head _ Hwf), He in Hel. simpl in Hel.
  exists w1, k. split_and!; try done. intros evs.
  destruct (run_pushes evs w1 (length (cursors w)) k (wf_step _ _ _ Hwf Hs) Hk Hat)
    as (w2 & Hr2 & _ & Hk2 & _).
  exists w2. split; [done|]. by apply (GetEvent_nil w2 _ k).
Qed.

Lemma subscribe_on_empty_log_then_GetEvent_panics_witness :
  ∃ w1 k,
    step ASubscribe new_world = Done w1 ∧
    cursors w1 !! 0 = Some k ∧
    elem (sub k) = None ∧ at_ k = Idle ∧
    ∀ evs, ∃ w2,
      run (pushes evs) w1 = Done w2 ∧
      GetEvent 0 w2 = Panic nil_dereference.
Proof.
  exact (subscribe_on_empty_log_then_GetEvent_panics [] new_world eq_refl eq_refl).
Defined.

(** ** Parked cursors *)

Lemma GetEvent_step_Parked w k k' :
  GetEvent_step w k = Done k' → at_ k' = Parked →
  chan_closed w (closeCh (sub k')) = false ∨ k' = k.
Proof.
  unfold GetEvent_step, GetEvent_select.
  destruct (at_ k) eqn:Hat; simpl.
  - intros [= <-]. auto.
  - destruct (GetEvent_next w (sub k)) as [[[s e]|]|]; simpl; [| |done];
      by intros [= <-].
  - destruct (chan_closed w (closeCh (sub k))) eqn:Hc; intros [= <-]; simpl;
      [done|auto].
  - intros [= <-]. auto.
Qed.

Lemma close_chan_alloc w i k :
  wf w → cursors w !! i = Some k → closeCh (sub k) < length (chans w).
Proof.
  intros Hwf Hk. apply (ok_close_alloc _ _ (wf_chans _ Hwf)).
  apply list_elem_of_fmap. exists (chan_pair k). split; [done|].
  apply list_elem_of_fmap. exists k. split; [done|].
  by eapply list_elem_of_lookup_2.
Qed.

Lemma parked_open_step a w w' :
  wf w → parked_open w → step a w = Done w' → parked_open w'.
Proof.
  intros Hwf Hpo Hs i k Hk Hat.
  destruct a as [ev| |j|j|j]; cbv beta iota delta [step] in Hs.
  - destruct (push_Done ev w Hwf) as (es' & Heq & _).
    rewrite Heq in Hs. inversion Hs; subst w'; clear Hs. simpl in Hk.
    apply list_lookup_fmap_Some in Hk as (k0 & -> & Hk0).
    revert Hat. unfold woken. by case_decide.
  - unfold subscribe, Head, make_chan in Hs; simpl in Hs.
    inversion Hs; subst w'; clear Hs. simpl in Hk.
    apply lookup_snoc_Some in Hk as [[_ Hk]|[_ <-]]; [|done].
    pose proof (close_chan_alloc _ _ _ Hwf Hk) as Hlt.
    pose proof (Hpo _ _ Hk Hat) as Hc. revert Hc.
    unfold chan_closed; simpl.
    rewrite lookup_app_l by (rewrite length_app; simpl; lia).
    by rewrite lookup_app_l.
  - destruct (cursors w !! j) as [kj|] eqn:Hkj; inversion Hs; subst w'; clear Hs;
      [|by eapply Hpo].
    simpl in Hk. apply list_lookup_insert_Some in Hk as [(-> & <- & _)|[_ Hk]].
    + assert (enter kj = kj) as Hen
        by (revert Hat; unfold enter; by destruct (at_ kj)).
      rewrite Hen in *. by eapply (Hpo i).
    + by eapply (Hpo i).
  - destruct (cursors w !! j) as [kj|] eqn:Hkj;
      [|inversion Hs; subst w'; by eapply Hpo].
    destruct (GetEvent_step w kj) as [k'|] eqn:Hst; simpl in Hs; [|done].
    inversion Hs; subst w'; clear Hs. simpl in Hk.
    apply list_lookup_insert_Some in Hk as [(-> & <- & _)|[_ Hk]].
    + destruct (GetEvent_step_Parked _ _ _ Hst Hat) as [Hc| ->]; [done|].
      by eapply (Hpo i).
    + by eapply (Hpo i).
  - destruct (cursors w !! j) as [kj|] eqn:Hkj;
      [|inversion Hs; subst w'; by eapply Hpo].
    unfold Close in Hs. destruct (chan_closed w (closeCh (sub kj))); [done|].
    inversion Hs; subst w'; clear Hs. simpl in Hk.
    apply list_lookup_fmap_Some in Hk as (k0 & -> & Hk0).
    revert Hat. unfold release. case_bool_decide as Hb; [done|]. intros Hat.
    assert (closeCh (sub k0) ≠ closeCh (sub kj)) as Hne by naive_solver.
    unfold chan_closed; simpl. rewrite list_lookup_insert_ne by done.
    by apply (Hpo i).
Qed.

Lemma reachable_parked_open w : reachable w → parked_open w.
Proof.
  intros [acts Hr].
  assert (∀ w0, wf w0 → parked_open w0 → run acts w0 = Done w → parked_open w)
    as Hgen.
  { clear Hr. induction acts as [|a acts IH]; intros w0 Hwf Hpo Hr; simpl in Hr.
    - by inversion Hr; subst w.
    - destruct (step a w0) as [w1|] eqn:Hs; simpl in Hr; [|done].
      apply (IH w1); [by eapply wf_step|by eapply parked_open_step|done]. }
  apply (Hgen new_world); [apply wf_new_world| |done].
  intros i k Hk. simpl in Hk. by rewrite lookup_nil in Hk.
Qed.

(** ** GetEvent on a closed cursor *)

(** C2 as stated fails: push; subscribe; push; Close; then the first
    [GetEvent] returns the event pushed before the [Close], not nil. *)
Lemma closed_cursor_returns_pending_event :
  ∃ w k0 w' k,
    run [APush (Some 0); ASubscribe; APush (Some 1); AClose 0] new_world = Done w ∧
    cursors w !! 0 = Some k0 ∧
    chan_closed w (closeCh (sub k0)) = true ∧
    GetEvent 0 w = Done w' ∧
    cursors w' !! 0 = Some k ∧
    log k = [Evnt (Some 1)] ∧
    go_value <$> log k ≠ [None].
Proof.
  eexists _, _, _, _. split; [reflexivity|]. split; [reflexivity|].
  split; [reflexivity|]. split; [reflexivity|].
  split; [reflexivity|]. split; [reflexivity|]. discriminate.
Qed.

(** C2, amended: after [Close] on a cursor, and whatever is scheduled
    after it, the close channel stays closed and a [GetEvent] call its
    owner makes on a non-nil position never blocks: the cursor is not
    parked in any later state, and a call run on its own advances to the
    entry linked after the position and returns its event when there is
    one, and otherwise returns nil. *)
Theorem GetEvent_after_Close_never_blocks w i k acts w1 w2 k2 :
  reachable w →
  cursors w !! i = Some k →
  step (AClose i) w = Done w1 →
  run acts w1 = Done w2 →
  cursors w2 !! i = Some k2 →
  chan_closed w2 (closeCh (sub k2)) = true ∧
  at_ k2 ≠ Parked ∧
  ∀ p, at_ k2 = Idle → elem (sub k2) = Some p →
  ∃ x w3 k3,
    elems w2 !! p = Some x ∧
    GetEvent i w2 = Done w3 ∧
    cursors w3 !! i = Some k3 ∧
    at_ k3 = Idle ∧
    match next x with
    | Some n =>
        ∃ y, elems w2 !! n = Some y ∧
          log k3 = log k2 ++ [Evnt (event y)] ∧ elem (sub k3) = Some n
    | None => log k3 = log k2 ++ [EndOfStream] ∧ sub k3 = sub k2
    end.
Proof.
  intros Hre Hk Hs Hr Hk2.
  pose proof (reachable_wf _ Hre) as Hwf.
  pose proof (wf_step _ _ _ Hwf Hs) as Hwf1.
  pose proof (wf_run _ _ _ Hwf1 Hr) as Hwf2.
  assert (chan_closed w2 (closeCh (sub k2)) = true) as Hc.
  { assert (chan_closed w (closeCh (sub k)) = false) as Hopen.
    { revert Hs. simpl. rewrite Hk. unfold Close.
      by destruct (chan_closed w (closeCh (sub k))). }
    destruct (Close_closes w i k Hwf Hk Hopen) as (w1' & Hs' & Hc1).
    assert (w1' = w1) as -> by congruence.
    destruct (step_chan_pair _ _ _ _ _ Hwf Hs Hk) as (k1 & Hk1 & Hp1).
    assert (closeCh (sub k1) = closeCh (sub k)) as Hcl
      by (unfold chan_pair in Hp1; congruence).
    destruct (run_closed acts w1 w2 i k1 Hwf1 Hr Hk1) as (k' & Hk' & _ & Hc');
      [by rewrite Hcl|].
    assert (k' = k2) as -> by congruence. done. }
  split; [done|]. split.
  { intros Hat.
    assert (reachable w2) as Hre2
      by (eapply reachable_run; [|exact Hr]; eapply (reachable_run [AClose i]);
          [exact Hre|]; simpl in *; by rewrite Hs).
    pose proof (reachable_parked_open _ Hre2 _ _ Hk2 Hat). congruence. }
  intros p Hat Hel.
  pose proof (wf_elem _ Hwf2 _ _ _ Hk2 Hel) as Hlt.
  destruct (lookup_lt_is_Some_2 (elems w2) p Hlt) as [x Hx].
  destruct (GetEvent_Idle w2 i k2 p x Hk2 Hat Hel Hx) as (k3 & Hg & Hk3).
  { intros n Hn. rewrite (wf_linked _ Hwf2 _ _ Hx) in Hn.
    case_decide as Hsp; [|done]. inversion Hn; subst n.
    by apply lookup_lt_is_Some_2. }
  exists x, (set_cursors (λ ks, <[i := k3]> ks) w2), k3.
  split; [done|]. split; [done|].
  split; [by eapply lookup_set_cursors|].
  destruct (next x) as [n|].
  - destruct Hk3 as (y & Hy & ->). simpl. split; [done|]. by exists y.
  - rewrite Hc in Hk3. subst k3. done.
Qed.

Lemma GetEvent_after_Close_never_blocks_witness :
  ∃ w w1 w2 w3 k3,
    run [APush (Some 0); ASubscribe; APush (Some 1)] new_world = Done w ∧
    step (AClose 0) w = Done w1 ∧
    GetEvent 0 w1 = Done w2 ∧
    GetEvent 0 w2 = Done w3 ∧
    cursors w3 !! 0 = Some k3 ∧
    at_ k3 = Idle ∧
    log k3 = [Evnt (Some 1); EndOfStream].
Proof.
  eexists _, _, _. 
  destruct (GetEvent_after_Close_never_blocks _ 0 _
    [ACall 0; AStep 0; AStep 0] _ _ _
    (ex_intro (λ acts, run acts new_world = Done _)
       [APush (Some 0); ASubscribe; APush (Some 1)] eq_refl)
    eq_refl eq_refl eq_refl eq_refl) as (_ & _ & Hget).
  destruct (Hget 1 eq_refl eq_refl)
    as (x & w3 & k3 & Hx & Hg & Hk3 & Hat & Hlog).
  exists w3, k3. split; [reflexivity|]. split; [reflexivity|].
  split; [reflexivity|]. split; [exact Hg|]. split; [exact Hk3|].
  split; [exact Hat|].
  inversion Hx; subst x. simpl in Hlog. by destruct Hlog as [-> _].
Defined.

(** ** A cursor attached to a non-empty log *)

Lemma GetEvents_pending n w i k p :
  wf w → cursors w !! i = Some k → at_ k = Idle → elem (sub k) = Some p →
  p + n < length (elems w) →
  ∃ w' k',
    GetEvents n i w = Done w' ∧ wf w' ∧
    cursors w' !! i = Some k' ∧ at_ k' = Idle ∧ elem (sub k') = Some (p + n) ∧
    closeCh (sub k') = closeCh (sub k) ∧
    log k' = log k ++ (Evnt <$> take n (pending w k)) ∧
    elems w' = elems w ∧ chans w' = chans w.
Proof.
  revert w k p. induction n as [|n IH]; intros w k p Hwf Hk Hat Hel Hlt.
  - exists w, k. simpl. rewrite Nat.add_0_r, app_nil_r. done.
  - destruct (lookup_lt_is_Some_2 (elems w) p) as [x Hx]; [lia|].
    destruct (lookup_lt_is_Some_2 (elems w) (S p)) as [y Hy]; [lia|].
    pose proof (wf_linked _ Hwf _ _ Hx) as Hn.
    rewrite decide_True in Hn by lia.
    destruct (GetEvent_Idle w i k p x Hk Hat Hel Hx) as (k1 & Hg & Hk1).
    { intros m Hm. rewrite Hn in Hm. inversion Hm; subst m. by eexists. }
    rewrite Hn in Hk1. destruct Hk1 as (y' & Hy' & Hk1).
    assert (y' = y) as -> by congruence.
    set (w1 := set_cursors (λ ks, <[i := k1]> ks) w) in *.
    assert (wf w1) as Hwf1.
    { apply (wf_set_cursor w i k); [done..| |].
      - by rewrite Hk1.
      - rewrite Hk1. simpl. intros ? [= <-]. lia. }
    destruct (IH w1 k1 (S p) Hwf1) as (w' & k' & Hgs & Hwf' & Hk' & Hat' & Hel' & Hcl' & Hlog' & He' & Hc').
    { by eapply lookup_set_cursors. }
    { by rewrite Hk1. }
    { by rewrite Hk1. }
    { simpl. lia. }
    exists w', k'. split.
    { change (GetEvents (S n) i w) with (GetEvent i w ≫= GetEvents n i).
      by rewrite Hg. }
    split_and!; try done.
    + rewrite Hel'. f_equal. lia.
    + rewrite Hcl', Hk1. done.
    + rewrite Hlog', Hk1. simpl. unfold pending. rewrite Hel. simpl.
      rewrite (drop_S _ _ _ Hy). simpl. by rewrite <- (assoc_L (++)).
Qed.

(** On a stream that already holds an entry, a cursor created before the
    pushes of [evs], whose owner then calls [GetEvent] once for each of
    them, is returned exactly [evs], in push order, and its next call
    blocks. *)
Lemma cursor_returns_the_pushes_in_order w evs :
  reachable w → head (stream w) ≠ None →
  let i := length (cursors w) in
  ∃ w1 w2 w3 w4 k3 k4,
    step ASubscribe w = Done w1 ∧
    run (pushes evs) w1 = Done w2 ∧
    GetEvents (length evs) i w2 = Done w3 ∧
    cursors w3 !! i = Some k3 ∧ at_ k3 = Idle ∧ log k3 = Evnt <$> evs ∧
    GetEvent i w3 = Done w4 ∧
    cursors w4 !! i = Some k4 ∧ at_ k4 = Parked ∧ log k4 = Evnt <$> evs.
Proof.
  intros Hre Hhd i. pose proof (reachable_wf _ Hre) as Hwf.
  destruct (subscribe_cursor w Hwf)
    as (w1 & k & Hs & Hk & He1 & Hat & Hlog & Hel & Hopen & _).
  pose proof (wf_step _ _ _ Hwf Hs) as Hwf1.
  destruct (head (stream w)) as [t|] eqn:Ht; [clear Hhd|done].
  pose proof Ht as Hlen. rewrite (wf_head _ Hwf) in Hlen. apply tail_of_Some in Hlen.
  destruct (run_pushes evs w1 i k Hwf1 Hk Hat) as (w2 & Hr & Hwf2 & Hk2 & Hev & Hch).
  assert (length (elems w2) = S t + length evs) as Hlen2.
  { rewrite <- (length_fmap event), Hev, length_app, length_fmap, He1. lia. }
  assert (pending w2 k = evs) as Hpend.
  { unfold pending. rewrite Hel, fmap_drop, Hev, He1.
    rewrite drop_app_length'; [done|]. by rewrite length_fmap. }
  destruct (GetEvents_pending (length evs) w2 i k t Hwf2 Hk2 Hat Hel)
    as (w3 & k3 & Hg & Hwf3 & Hk3 & Hat3 & Hel3 & Hcl3 & Hlog3 & He3 & Hc3); [lia|].
  rewrite Hpend, firstn_all, Hlog in Hlog3. simpl in Hlog3.
  destruct (lookup_lt_is_Some_2 (elems w3) (t + length evs)) as [x Hx];
    [rewrite He3; lia|].
  destruct (GetEvent_Idle w3 i k3 _ x Hk3 Hat3 Hel3 Hx) as (k4 & Hg4 & Hk4).
  { intros n Hn. rewrite (wf_linked _ Hwf3 _ _ Hx) in Hn.
    case_decide; [|done]. inversion Hn; subst n. by apply lookup_lt_is_Some_2. }
  rewrite (wf_linked _ Hwf3 _ _ Hx) in Hk4.
  rewrite decide_False in Hk4 by (rewrite He3; lia).
  assert (chan_closed w3 (closeCh (sub k3)) = false) as Hopen3.
  { unfold chan_closed in *. by rewrite Hc3, Hcl3, Hch. }
  rewrite Hopen3 in Hk4.
  exists w1, w2, w3, (set_cursors (λ ks, <[i := k4]> ks) w3), k3, k4.
  split_and!; try done.
  - by eapply lookup_set_cursors.
  - by rewrite Hk4.
  - by rewrite Hk4.
Qed.

(** ** A notification can be lost *)

(** The owner tests [s.elem.next] and finds it nil; a push then links an
    entry and sends while the owner is not yet parked, so the send is
    dropped; the owner parks with an entry linked after its position, and
    stays parked until the next push. *)
Example notification_lost_between_test_and_select :
  ∃ w k,
    run [APush (Some 0); ASubscribe; ACall 0; AStep 0; APush (Some 1); AStep 0]
      new_world = Done w ∧
    cursors w !! 0 = Some k ∧ at_ k = Parked ∧ pending w k = [Some 1].
Proof. by eexists _, _. Qed.

End StreamFacts.

(** * A scenario over both parts *)

Module Scenario.
Import EventModel Stream.

(** With headers [h1] (at address 0, contents 1) and [h2] (at address 1,
    contents 2): push an event whose NewChain is [h1], subscribe, push an
    event whose NewChain is [h1, h2]; the first [GetEvent] of the
    subscription returns the second event, whose [Header] is a copy of
    [h2]. *)
Example head_subscribe_head :
  let o0 := {| headers := [1; 2]; bigs := [] |} in
  let e0 := {| OldChain := nil_slice; NewChain := nil_slice;
               Difficulty := None; Type_ := EventHead; Source := ""%string |} in
  ∃ E1 E2 o w k h,
    ('(E1, o) ← AddNewHeader e0 (Some 0) o0;
     '(x, o) ← AddNewHeader e0 (Some 0) o;
     '(E2, o) ← AddNewHeader x (Some 1) o;
     Done (E1, E2, o)) = Done (E1, E2, o) ∧
    (run [APush (Some 0); ASubscribe; APush (Some 1)] new_world ≫= GetEvent 0)
      = Done w ∧
    cursors w !! 0 = Some k ∧
    go_value <$> log k = [Some 1] ∧
    (deref [E1; E2] (Some 1) ≫= Header) = Done (Some h) ∧
    h ≠ 1 ∧ headers o !! h = Some 2.
Proof. eexists _, _, _, _, _, _. repeat split; try reflexivity. simpl. lia. Qed.

End Scenario.

(** * Sequences of calls on an Event *)

Module EventCallsFacts.
Import EventModel EventCalls.

Section WithHeader.
Context {HeaderVal : Type}.
Implicit Types (o : objects HeaderVal) (e : Event) (cs : list call).

Lemma Header_snoc e l h : items (NewChain e) = l ++ [h] → Header e = Done h.
Proof.
  intros Hl. unfold Header. rewrite (EventFacts.items_snoc _ _ _ Hl).
  apply EventFacts.index_last.
Qed.

Lemma AddNewHeader_inv e h o e' o' :
  AddNewHeader e h o = Done (e', o') →
  ∃ a v, h = Some a ∧ headers o !! a = Some v ∧
    e' = {| OldChain := OldChain e;
            NewChain := mk_slice (items (NewChain e) ++ [Some (length (headers o))]);
            Difficulty := Difficulty e; Type_ := Type_ e; Source := Source e |} ∧
    o' = {| headers := headers o ++ [v]; bigs := bigs o |}.
Proof.
  unfold AddNewHeader, Header_Copy, deref.
  destruct h as [a|]; simpl; [|done].
  destruct (headers o !! a) as [v|] eqn:Hv; simpl; [|done].
  intros [= <- <-]. exists a, v. by destruct (NewChain e).
Qed.

Lemma AddOldHeader_inv e h o e' o' :
  AddOldHeader e h o = Done (e', o') →
  ∃ a v, h = Some a ∧ headers o !! a = Some v ∧
    e' = {| OldChain := mk_slice (items (OldChain e) ++ [Some (length (headers o))]);
            NewChain := NewChain e;
            Difficulty := Difficulty e; Type_ := Type_ e; Source := Source e |} ∧
    o' = {| headers := headers o ++ [v]; bigs := bigs o |}.
Proof.
  unfold AddOldHeader, Header_Copy, deref.
  destruct h as [a|]; simpl; [|done].
  destruct (headers o !! a) as [v|] eqn:Hv; simpl; [|done].
  intros [= <- <-]. exists a, v. by destruct (OldChain e).
Qed.

Lemma SetDifficulty_inv e b o e' o' :
  SetDifficulty e b o = Done (e', o') →
  ∃ v,
    e' = {| OldChain := OldChain e; NewChain := NewChain e;
            Difficulty := Some (length (bigs o));
            Type_ := Type_ e; Source := Source e |} ∧
    o' = {| headers := headers o; bigs := bigs o ++ [v] |}.
Proof.
  unfold SetDifficulty, new_Int, Int_Set, deref; simpl.
  destruct b as [a|]; simpl; [|done].
  destruct ((bigs o ++ [0%Z]) !! a) as [v|] eqn:Hv; simpl; [|done].
  rewrite length_app; simpl. case_decide; [|lia].
  intros [= <- <-]. exists v.
  rewrite insert_app_r_alt by lia. by rewrite Nat.sub_diag.
Qed.

Lemma do_call_inv c e o e' o' :
  do_call c e o = Done (e', o') →
  Type_ e' = Type_ e ∧ Source e' = Source e ∧
  ∃ hs bs news olds,
    headers o' = headers o ++ hs ∧ bigs o' = bigs o ++ bs ∧
    items (NewChain e') = items (NewChain e) ++ news ∧
    items (OldChain e') = items (OldChain e) ++ olds ∧
    Forall2 (copy_of (length (headers o)) o') (new_headers [c]) news ∧
    Forall2 (copy_of (length (headers o)) o') (old_headers [c]) olds ∧
    NoDup (news ++ olds).
Proof.
  destruct c as [h|h|b]; simpl; intros Hc.
  - apply AddNewHeader_inv in Hc as (a & v & -> & Hv & -> & ->). simpl.
    split; [done|]. split; [done|].
    exists [v], [], [Some (length (headers o))], []. rewrite !app_nil_r.
    split_and!; try done; [|apply NoDup_singleton].
    constructor; [|constructor].
    pose proof (lookup_lt_Some _ _ _ Hv).
    exists a, (length (headers o)), v. simpl.
    split_and!; try done; try lia.
    + by rewrite lookup_app_l.
    + by rewrite list_lookup_middle.
  - apply AddOldHeader_inv in Hc as (a & v & -> & Hv & -> & ->). simpl.
    split; [done|]. split; [done|].
    exists [v], [], [], [Some (length (headers o))]. rewrite !app_nil_r.
    split_and!; try done; [|apply NoDup_singleton].
    constructor; [|constructor].
    pose proof (lookup_lt_Some _ _ _ Hv).
    exists a, (length (headers o)), v. simpl.
    split_and!; try done; try lia.
    + by rewrite lookup_app_l.
    + by rewrite list_lookup_middle.
  - apply SetDifficulty_inv in Hc as (v & -> & ->). simpl.
    split; [done|]. split; [done|].
    exists [], [v], [], []. rewrite !app_nil_r.
    split_and!; try done; constructor.
Qed.

Lemma copy_of_mono n n' o o' h c :
  n ≤ n' → headers o `prefix_of` headers o' →
  copy_of n' o h c → copy_of n o' h c.
Proof.
  intros Hn [hs Hhs] (a & b & v & -> & -> & Hb & Hab & Ha & Hbv).
  exists a, b, v. rewrite Hhs. split_and!; try done; try lia.
  - rewrite lookup_app_l; [done|]. by eapply lookup_lt_Some.
  - rewrite lookup_app_l; [done|]. by eapply lookup_lt_Some.
Qed.

Lemma copies_bounds n o (hs cs' : list ptr) c :
  Forall2 (copy_of n o) hs cs' → c ∈ cs' →
  ∃ b, c = Some b ∧ n ≤ b < length (headers o).
Proof.
  induction 1 as [|h c' hs cs' (a & b & v & _ & -> & Hb & _ & _ & Hbv) _ IH].
  - intros Hin. by apply elem_of_nil in Hin.
  - intros [->|Hin]%elem_of_cons; [|by apply IH].
    exists b. split; [done|]. split; [done|]. by eapply lookup_lt_Some.
Qed.

Lemma new_headers_cons c cs : new_headers (c :: cs) = new_headers [c] ++ new_headers cs.
Proof. by destruct c. Qed.

Lemma old_headers_cons c cs : old_headers (c :: cs) = old_headers [c] ++ old_headers cs.
Proof. by destruct c. Qed.

(** What a list of calls leaves behind, in one statement the theorems
    below are read from. *)
Lemma do_calls_inv cs e o e' o' :
  do_calls cs e o = Done (e', o') →
  Type_ e' = Type_ e ∧ Source e' = Source e ∧
  ∃ hs bs news olds,
    headers o' = headers o ++ hs ∧ bigs o' = bigs o ++ bs ∧
    items (NewChain e') = items (NewChain e) ++ news ∧
    items (OldChain e') = items (OldChain e) ++ olds ∧
    Forall2 (copy_of (length (headers o)) o') (new_headers cs) news ∧
    Forall2 (copy_of (length (headers o)) o') (old_headers cs) olds ∧
    NoDup (news ++ olds).
Proof.
  revert e o. induction cs as [|c cs IH]; intros e o Hcs.
  - inversion Hcs; subst e' o'. split; [done|]. split; [done|].
    exists [], [], [], []. rewrite !app_nil_r. split_and!; try done; constructor.
  - change (do_calls (c :: cs) e o) with
      (do_call c e o ≫= λ '(e, o), do_calls cs e o) in Hcs.
    destruct (do_call c e o) as [[e1 o1]|] eqn:Hc; [|done]. simpl in Hcs.
    destruct (do_call_inv _ _ _ _ _ Hc)
      as (Ht1 & Hs1 & hs1 & bs1 & n1 & l1 & Hh1 & Hb1 & Hn1 & Hl1 & Fn1 & Fl1 & Hnd1).
    destruct (IH _ _ Hcs)
      as (Ht2 & Hs2 & hs2 & bs2 & n2 & l2 & Hh2 & Hb2 & Hn2 & Hl2 & Fn2 & Fl2 & Hnd2).
    split; [congruence|]. split; [congruence|].
    exists (hs1 ++ hs2), (bs1 ++ bs2), (n1 ++ n2), (l1 ++ l2).
    rewrite Hh2, Hh1, Hb2, Hb1, Hn2, Hn1, Hl2, Hl1, !(assoc_L (++)).
    split_and!; try done.
    + rewrite new_headers_cons. apply Forall2_app.
      * eapply Forall2_impl; [exact Fn1|]. intros h c'.
        apply copy_of_mono; [done|]. rewrite Hh2. by apply prefix_app_r.
      * eapply Forall2_impl; [exact Fn2|]. intros h c'.
        apply copy_of_mono; [|done]. rewrite Hh1, length_app. lia.
    + rewrite old_headers_cons. apply Forall2_app.
      * eapply Forall2_impl; [exact Fl1|]. intros h c'.
        apply copy_of_mono; [done|]. rewrite Hh2. by apply prefix_app_r.
      * eapply Forall2_impl; [exact Fl2|]. intros h c'.
        apply copy_of_mono; [|done]. rewrite Hh1, length_app. lia.
    + assert (((n1 ++ n2) ++ l1) ++ l2 ≡ₚ (n1 ++ l1) ++ (n2 ++ l2)) as ->.
      { rewrite <- !(assoc_L (++)). f_equiv. rewrite !(assoc_L (++)). f_equiv.
        apply Permutation_app_comm. }
      apply NoDup_app. split_and!; [done| |done].
      intros c1 Hc1 Hc2.
      assert (∃ b, c1 = Some b ∧ b < length (headers o1)) as (b1 & -> & Hlt).
      { apply elem_of_app in Hc1 as [Hc1|Hc1];
          [destruct (copies_bounds _ _ _ _ _ Fn1 Hc1) as (b & -> & _ & ?)
          |destruct (copies_bounds _ _ _ _ _ Fl1 Hc1) as (b & -> & _ & ?)];
          by exists b. }
      assert (∃ b, Some b1 = Some b ∧ length (headers o1) ≤ b) as (b2 & [= <-] & Hge).
      { apply elem_of_app in Hc2 as [Hc2|Hc2];
          [destruct (copies_bounds _ _ _ _ _ Fn2 Hc2) as (b & -> & ? & _)
          |destruct (copies_bounds _ _ _ _ _ Fl2 Hc2) as (b & -> & ? & _)];
          by exists b. }
      lia.
Qed.




End WithHeader.




End EventCallsFacts.


(** * More on the event stream *)

Module StreamMoreFacts.
Import Stream StreamShape StreamFacts.

Implicit Types (w : world) (k : cursor) (ev : ptr) (acts : list action).

Lemma events_of_Evnt (l : list ptr) : events_of (Evnt <$> l) = l.
Proof. induction l as [|e l IH]; [done|]. csimpl. by rewrite IH. Qed.

(** The channels of the cursors after a step: those of before, and the
    new pair when the step is a subscribe. *)
Lemma step_chan_pairs a w w' :
  wf w → step a w = Done w' →
  chan_pair <$> cursors w' =
    (chan_pair <$> cursors w) ++
    match a with ASubscribe => [fresh_pair w] | _ => [] end.
Proof.
  intros Hwf Hs.
  destruct a as [ev| |j|j|j]; cbv beta iota delta [step] in Hs;
    rewrite ?app_nil_r.
  - destruct (push_Done ev w Hwf) as (es' & Heq & _).
    rewrite Heq in Hs. inversion Hs; subst w'. simpl. apply chan_pairs_woken.
  - unfold subscribe, Head, make_chan in Hs; simpl in Hs.
    inversion Hs; subst w'. simpl. rewrite fmap_app. simpl.
    unfold fresh_pair, chan_pair. rewrite length_app; simpl.
    by rewrite Nat.add_1_r.
  - destruct (cursors w !! j) as [kj|] eqn:Hkj; inversion Hs; subst w'; [|done].
    simpl. apply (chan_pairs_insert _ _ kj); [done|].
    unfold enter. by destruct (at_ kj).
  - destruct (cursors w !! j) as [kj|] eqn:Hkj; [|by inversion Hs; subst w'].
    destruct (GetEvent_step w kj) as [k'|] eqn:Hst; simpl in Hs; [|done].
    inversion Hs; subst w'. simpl. apply (chan_pairs_insert _ _ kj); [done|].
    destruct (GetEvent_step_Done _ _ _ (wf_linked _ Hwf) Hst);
      eauto using keeps_chan_pair, advances_chan_pair.
  - destruct (cursors w !! j) as [kj|] eqn:Hkj; [|by inversion Hs; subst w'].
    unfold Close in Hs. destruct (chan_closed w (closeCh (sub kj))); [done|].
    inversion Hs; subst w'. simpl. apply chan_pairs_release.
Qed.

Lemma run_has_position acts w w' i k k' :
  wf w → run acts w = Done w' → cursors w !! i = Some k →
  cursors w' !! i = Some k' → is_Some (elem (sub k)) → is_Some (elem (sub k')).
Proof.
  revert w k. induction acts as [|a acts IH]; intros w k Hwf Hr Hk Hk' Hp;
    simpl in Hr.
  - inversion Hr; subst w'. by assert (k' = k) as -> by congruence.
  - destruct (step a w) as [w1|] eqn:Hs; simpl in Hr; [|done].
    destruct (step_cursor _ _ _ _ _ Hwf Hs Hk) as (k1 & Hk1 & Hc).
    apply (IH w1 k1); [by eapply wf_step|done..|].
    destruct Hc as [[-> _]|[(p & y & _ & _ & -> & _) _]]; [done|by eexists].
Qed.

(** A cursor subscribed once the stream holds an event misses none of the
    later ones: at any point of any schedule where its owner is outside
    [GetEvent], calling [GetEvent] once for each entry linked after its
    position leaves it with exactly the events pushed since its
    [subscribe], in push order, and at the tail. *)
Theorem cursor_drains_every_later_push pre post w k :
  pushes_of pre ≠ [] →
  run (pre ++ ASubscribe :: post) new_world = Done w →
  cursors w !! subscribes_of pre = Some k →
  at_ k = Idle →
  ∃ w' k',
    GetEvents (length (pending w k)) (subscribes_of pre) w = Done w' ∧
    cursors w' !! subscribes_of pre = Some k' ∧
    at_ k' = Idle ∧
    events_of (log k') = pushes_of post ∧
    pending w' k' = [].
Proof.
  intros Hne Hr Hk Hat. set (i := subscribes_of pre) in *.
  destruct (subscribed_cursor_tracks _ _ _ Hr) as (k0 & Hk0 & Ht).
  fold i in Hk0. assert (k0 = k) as -> by congruence. clear Hk0.
  pose proof (wf_run _ _ _ wf_new_world Hr) as Hwf.
  (* the position is not nil *)
  assert (is_Some (elem (sub k))) as [p Hp].
  { rewrite run_app in Hr.
    destruct (run pre new_world) as [w0|] eqn:Hpre; [|done].
    pose proof (wf_run _ _ _ wf_new_world Hpre) as Hwf0.
    pose proof (run_cursors_length _ _ _ wf_new_world Hpre) as Hlen.
    simpl in Hlen. fold i in Hlen.
    destruct (subscribe_cursor w0 Hwf0)
      as (w1 & k1 & Hs & Hk1 & _ & _ & _ & Hel & _).
    change (step ASubscribe w0 ≫= run post = Done w) in Hr.
    rewrite Hs in Hr. change (run post w1 = Done w) in Hr. rewrite Hlen in Hk1.
    apply (run_has_position post w1 w i k1 k); [by eapply wf_step|done..|].
    rewrite Hel, (wf_head _ Hwf0).
    pose proof (run_events _ _ _ wf_new_world Hpre) as Hev. simpl in Hev.
    unfold tail_of. destruct (elems w0); [by destruct Hne|]. by eexists. }
  pose proof (wf_elem _ Hwf _ _ _ Hk Hp) as Hlt.
  assert (length (pending w k) = length (elems w) - S p) as Hlen.
  { unfold pending. rewrite Hp, length_fmap, length_drop. done. }
  destruct (GetEvents_pending (length (pending w k)) w i k p Hwf Hk Hat Hp)
    as (w' & k' & Hg & _ & Hk' & Hat' & Hel' & _ & Hlog & He' & _); [lia|].
  exists w', k'. split_and!; try done.
  - rewrite Hlog, firstn_all, events_of_app, events_of_Evnt.
    revert Ht. unfold tracks. by rewrite Hp.
  - unfold pending. rewrite Hel', He', drop_ge; [done|]. lia.
Qed.

Lemma cursor_drains_every_later_push_witness :
  ∃ w k w' k',
    run ([APush (Some 0)] ++ ASubscribe ::
         [APush (Some 1); ACall 0; AStep 0; APush (Some 2); APush (Some 3)])
      new_world = Done w ∧
    cursors w !! 0 = Some k ∧
    GetEvents (length (pending w k)) 0 w = Done w' ∧
    cursors w' !! 0 = Some k' ∧
    events_of (log k') = [Some 1; Some 2; Some 3].
Proof.
  eexists _, _.
  destruct (cursor_drains_every_later_push [APush (Some 0)]
    [APush (Some 1); ACall 0; AStep 0; APush (Some 2); APush (Some 3)] _ _
    ltac:(discriminate) eq_refl eq_refl eq_refl)
    as (w' & k' & Hg & Hk' & _ & Hev & _).
  exists w', k'. split; [reflexivity|]. split; [reflexivity|]. by split_and!.
Defined.

(** ** Steps of an owner inside GetEvent *)

Lemma AStep_advance w i k p :
  wf w → cursors w !! i = Some k → at_ k = AtLoop →
  elem (sub k) = Some p → S p < length (elems w) →
  ∃ y, elems w !! S p = Some y ∧
    step (AStep i) w =
      Done (set_cursors (λ ks, <[i :=
        {| sub := {| sub_updateCh := sub_updateCh (sub k);
                     closeCh := closeCh (sub k); elem := Some (S p) |};
           at_ := Idle; log := log k ++ [Evnt (event y)] |}]> ks) w).
Proof.
  intros Hwf Hk Hat Hp Hlt.
  destruct (lookup_lt_is_Some_2 (elems w) p) as [x Hx]; [lia|].
  destruct (lookup_lt_is_Some_2 (elems w) (S p)) as [y Hy]; [lia|].
  exists y. split; [done|]. apply (step_AStep _ _ k); [done|].
  unfold GetEvent_step, GetEvent_next, deref. rewrite Hat, Hp. simpl.
  rewrite Hx. simpl. rewrite (wf_linked _ Hwf _ _ Hx).
  rewrite decide_True by done. simpl. by rewrite Hy.
Qed.

Lemma AStep_at_tail w i k p :
  wf w → cursors w !! i = Some k → at_ k = AtLoop →
  elem (sub k) = Some p → S p = length (elems w) →
  step (AStep i) w =
    Done (set_cursors (λ ks, <[i :=
      {| sub := sub k; at_ := AtSelect; log := log k |}]> ks) w).
Proof.
  intros Hwf Hk Hat Hp Hlt.
  destruct (lookup_lt_is_Some_2 (elems w) p) as [x Hx]; [lia|].
  apply (step_AStep _ _ k); [done|].
  unfold GetEvent_step, GetEvent_next, deref. rewrite Hat, Hp. simpl.
  rewrite Hx. simpl. rewrite (wf_linked _ Hwf _ _ Hx).
  by rewrite decide_False by lia.
Qed.

Lemma AStep_select w i k :
  cursors w !! i = Some k → at_ k = AtSelect →
  step (AStep i) w =
    Done (set_cursors (λ ks, <[i :=
      if chan_closed w (closeCh (sub k))
      then {| sub := sub k; at_ := Idle; log := log k ++ [EndOfStream] |}
      else {| sub := sub k; at_ := Parked; log := log k |}]> ks) w).
Proof.
  intros Hk Hat. apply (step_AStep _ _ k); [done|].
  unfold GetEvent_step, GetEvent_select. rewrite Hat.
  by destruct (chan_closed w (closeCh (sub k))).
Qed.

(** ** Cursors at the select have a position *)

Lemma GetEvent_step_at_select w k k' :
  GetEvent_step w k = Done k' → at_ k' = AtSelect ∨ at_ k' = Parked →
  sub k' = sub k ∧
  (is_Some (elem (sub k)) ∨ at_ k = AtSelect ∨ at_ k = Parked).
Proof.
  unfold GetEvent_step, GetEvent_next, GetEvent_select, deref.
  destruct (at_ k) eqn:Hat; simpl.
  - intros [= <-]. simpl. rewrite Hat. by intros [|].
  - destruct (elem (sub k)) as [p|]; simpl; [|done].
    destruct (elems w !! p) as [x|]; simpl; [|done].
    destruct (next x) as [n|]; simpl.
    + destruct (elems w !! n); simpl; [|done]. intros [= <-]. by intros [|].
    + intros [= <-]. simpl. intros _. split; [done|]. left. by eexists.
  - destruct (chan_closed w (closeCh (sub k))); intros [= <-]; simpl; auto.
  - intros [= <-]. auto.
Qed.

Lemma positioned_step a w w' :
  wf w → positioned w → step a w = Done w' → positioned w'.
Proof.
  intros Hwf Hpo Hs i k Hk Hat.
  destruct a as [ev| |j|j|j]; cbv beta iota delta [step] in Hs.
  - destruct (push_Done ev w Hwf) as (es' & Heq & _).
    rewrite Heq in Hs. inversion Hs; subst w'; clear Hs. simpl in Hk.
    apply list_lookup_fmap_Some in Hk as (k0 & -> & Hk0).
    rewrite sub_woken. apply (Hpo _ _ Hk0).
    revert Hat. unfold woken. case_decide; simpl; [by intros [|]|done].
  - unfold subscribe, Head, make_chan in Hs; simpl in Hs.
    inversion Hs; subst w'; clear Hs. simpl in Hk.
    apply lookup_snoc_Some in Hk as [[_ Hk]|[_ <-]]; [by eapply Hpo|].
    simpl in Hat. by destruct Hat.
  - destruct (cursors w !! j) as [kj|] eqn:Hkj; inversion Hs; subst w'; clear Hs;
      [|by eapply Hpo].
    simpl in Hk. apply list_lookup_insert_Some in Hk as [(-> & <- & _)|[_ Hk]];
      [|by eapply Hpo].
    assert (enter kj = kj) as Hen
      by (revert Hat; unfold enter; destruct (at_ kj); simpl; by intros [|]).
    rewrite Hen in *. by eapply (Hpo i).
  - destruct (cursors w !! j) as [kj|] eqn:Hkj;
      [|inversion Hs; subst w'; by eapply Hpo].
    destruct (GetEvent_step w kj) as [k'|] eqn:Hst; simpl in Hs; [|done].
    inversion Hs; subst w'; clear Hs. simpl in Hk.
    apply list_lookup_insert_Some in Hk as [(-> & <- & _)|[_ Hk]];
      [|by eapply Hpo].
    destruct (GetEvent_step_at_select _ _ _ Hst Hat) as (-> & [?|Hat']); [done|].
    by eapply (Hpo i).
  - destruct (cursors w !! j) as [kj|] eqn:Hkj;
      [|inversion Hs; subst w'; by eapply Hpo].
    unfold Close in Hs. destruct (chan_closed w (closeCh (sub kj))); [done|].
    inversion Hs; subst w'; clear Hs. simpl in Hk.
    apply list_lookup_fmap_Some in Hk as (k0 & -> & Hk0).
    revert Hat. unfold release. case_bool_decide; simpl; [by intros [|]|].
    by apply (Hpo i).
Qed.

Lemma reachable_positioned w : reachable w → positioned w.
Proof.
  intros [acts Hr].
  assert (∀ w0, wf w0 → positioned w0 → run acts w0 = Done w → positioned w)
    as Hgen.
  { clear Hr. induction acts as [|a acts IH]; intros w0 Hwf Hpo Hr; simpl in Hr.
    - by inversion Hr; subst w.
    - destruct (step a w0) as [w1|] eqn:Hs; simpl in Hr; [|done].
      apply (IH w1); [by eapply wf_step|by eapply positioned_step|done]. }
  apply (Hgen new_world); [apply wf_new_world| |done].
  intros i k Hk. simpl in Hk. by rewrite lookup_nil in Hk.
Qed.

(** ** A push and the cursor it finds parked, or about to park *)

Lemma run_two a b w :
  run [a; b] w = (step a w ≫= λ w1, step b w1).
Proof.
  simpl. destruct (step a w) as [w1|]; simpl; [|done].
  by destruct (step b w1).
Qed.

Lemma pending_set_cursors w i k k' :
  pending (set_cursors (λ ks, <[i := k']> ks) w) k = pending w k.
Proof. done. Qed.

(** A push wakes a parked subscriber, and the step the woken owner takes
    next returns the oldest event it has not returned yet: the pushed one
    when it was parked at the tail, an earlier one when a notification had
    been lost. *)
Theorem push_wakes_parked_cursor w i k ev :
  reachable w → cursors w !! i = Some k → at_ k = Parked →
  ∃ w' k' e,
    run [APush ev; AStep i] w = Done w' ∧
    cursors w' !! i = Some k' ∧
    at_ k' = Idle ∧
    (pending w k ++ [ev]) !! 0 = Some e ∧
    log k' = log k ++ [Evnt e] ∧
    pending w' k' = drop 1 (pending w k ++ [ev]).
Proof.
  intros Hre Hk Hat. pose proof (reachable_wf _ Hre) as Hwf.
  destruct (reachable_positioned _ Hre _ _ Hk) as [p Hp]; [by right|].
  pose proof (wf_elem _ Hwf _ _ _ Hk Hp) as Hlt.
  destruct (push_Done ev w Hwf) as (es' & Hpush & Hlen & _).
  pose proof (wf_push _ _ _ Hwf Hpush) as Hwf1.
  pose proof (pending_push _ _ _ _ _ Hwf Hpush Hp Hlt) as Hpend.
  set (w1 := {| elems := es' |}) in *.
  set (k1 := {| sub := sub k; at_ := AtLoop; log := log k |}).
  assert (cursors w1 !! i = Some k1) as Hk1.
  { simpl. rewrite list_lookup_fmap, Hk. simpl. unfold woken.
    by rewrite decide_True. }
  destruct (AStep_advance w1 i k1 p Hwf1 Hk1 eq_refl Hp) as (y & Hy & Hstep).
  { simpl. lia. }
  eexists _, _, (event y). split.
  { rewrite run_two. change (step (APush ev) w) with (push ev w).
    rewrite Hpush. exact Hstep. }
  split; [by eapply lookup_set_cursors|]. simpl.
  split; [done|]. split; [|split; [done|]].
  - unfold pending. rewrite Hp, <- Hpend. rewrite list_lookup_fmap, lookup_drop.
    rewrite Nat.add_0_r. by rewrite Hy.
  - unfold pending at 2. rewrite Hp, <- Hpend.
    unfold pending. simpl. rewrite !fmap_drop, drop_drop. f_equal. lia.
Qed.

Lemma push_wakes_parked_cursor_witness :
  ∃ w k w' k',
    run [APush (Some 0); ASubscribe; ACall 0; AStep 0; AStep 0] new_world = Done w ∧
    cursors w !! 0 = Some k ∧ at_ k = Parked ∧
    run [APush (Some 1); AStep 0] w = Done w' ∧
    cursors w' !! 0 = Some k' ∧ at_ k' = Idle ∧ log k' = [Evnt (Some 1)].
Proof.
  eexists _, _.
  destruct (push_wakes_parked_cursor _ 0 _ (Some 1)
    (ex_intro (λ acts, run acts new_world = Done _)
       [APush (Some 0); ASubscribe; ACall 0; AStep 0; AStep 0] eq_refl)
    eq_refl eq_refl) as (w' & k' & e & Hr & Hk' & Hat & He & Hlog & _).
  exists w', k'. split; [reflexivity|]. split; [reflexivity|].
  split; [reflexivity|]. split; [exact Hr|]. split; [exact Hk'|].
  split; [exact Hat|]. inversion He; subst e. exact Hlog.
Defined.

(** A push that falls between the owner's test of [s.elem.next] and its
    [select] notifies nobody: the send is dropped, the owner parks, and
    the pushed event stays linked after its position until the next push
    wakes it. *)
Theorem push_before_select_is_not_notified w i k ev :
  reachable w → cursors w !! i = Some k → at_ k = AtSelect →
  chan_closed w (closeCh (sub k)) = false →
  ∃ w' k',
    run [APush ev; AStep i] w = Done w' ∧
    cursors w' !! i = Some k' ∧
    at_ k' = Parked ∧
    log k' = log k ∧
    pending w' k' = pending w k ++ [ev].
Proof.
  intros Hre Hk Hat Hopen. pose proof (reachable_wf _ Hre) as Hwf.
  destruct (reachable_positioned _ Hre _ _ Hk) as [p Hp]; [by left|].
  pose proof (wf_elem _ Hwf _ _ _ Hk Hp) as Hlt.
  destruct (push_Done ev w Hwf) as (es' & Hpush & Hlen & _).
  pose proof (pending_push _ _ _ _ _ Hwf Hpush Hp Hlt) as Hpend.
  set (w1 := {| elems := es' |}) in *.
  assert (cursors w1 !! i = Some k) as Hk1.
  { simpl. rewrite list_lookup_fmap, Hk. simpl. unfold woken.
    rewrite decide_False; [done|]. by rewrite Hat. }
  pose proof (AStep_select w1 i k Hk1 Hat) as Hstep.
  change (chan_closed w1 (closeCh (sub k))) with (chan_closed w (closeCh (sub k)))
    in Hstep.
  rewrite Hopen in Hstep.
  eexists _, _. split.
  { rewrite run_two. change (step (APush ev) w) with (push ev w).
    rewrite Hpush. exact Hstep. }
  split; [by eapply lookup_set_cursors|]. simpl.
  split; [done|]. split; [done|].
  unfold pending. simpl. by rewrite Hp.
Qed.

Lemma push_before_select_is_not_notified_witness :
  ∃ w k w' k',
    run [APush (Some 0); ASubscribe; ACall 0; AStep 0] new_world = Done w ∧
    cursors w !! 0 = Some k ∧ at_ k = AtSelect ∧
    run [APush (Some 1); AStep 0] w = Done w' ∧
    cursors w' !! 0 = Some k' ∧ at_ k' = Parked ∧
    pending w' k' = [Some 1].
Proof.
  eexists _, _.
  destruct (push_before_select_is_not_notified _ 0 _ (Some 1)
    (ex_intro (λ acts, run acts new_world = Done _)
       [APush (Some 0); ASubscribe; ACall 0; AStep 0] eq_refl)
    eq_refl eq_refl eq_refl) as (w' & k' & Hr & Hk' & Hat & _ & Hpend).
  exists w', k'. split; [reflexivity|]. split; [reflexivity|].
  split; [reflexivity|]. by split_and!.
Defined.

(** ** Registered channels, close channels *)

(** Every subscription ever made stays registered: in any state reached,
    [e.updateCh] holds, in subscribe order, the update channel of each
    cursor, all distinct and open; [Close] removes none, so every push
    keeps sending to the channels of closed subscriptions too. *)
Theorem subscriptions_stay_registered acts w :
  run acts new_world = Done w →
  length (items (updateCh (stream w))) = subscribes_of acts ∧
  NoDup (items (updateCh (stream w))) ∧
  (∀ c, c ∈ items (updateCh (stream w)) → chans w !! c = Some false) ∧
  (∀ i k, cursors w !! i = Some k →
     items (updateCh (stream w)) !! i = Some (sub_updateCh (sub k))).
Proof.
  intros Hr. pose proof (wf_run _ _ _ wf_new_world Hr) as Hwf.
  pose proof (run_cursors_length _ _ _ wf_new_world Hr) as Hlen. simpl in Hlen.
  rewrite (wf_registered _ Hwf). split_and!.
  - by rewrite !length_fmap.
  - apply (ok_distinct _ _ (wf_chans _ Hwf)).
  - apply (ok_update_open _ _ (wf_chans _ Hwf)).
  - intros i k Hk. rewrite !list_lookup_fmap, Hk. done.
Qed.

Lemma subscriptions_stay_registered_witness :
  ∃ w,
    run [APush (Some 0); ASubscribe; ASubscribe; AClose 0; AClose 1] new_world
      = Done w ∧
    length (items (updateCh (stream w))) = 2 ∧
    NoDup (items (updateCh (stream w))).
Proof.
  eexists. split; [reflexivity|].
  destruct (subscriptions_stay_registered
    [APush (Some 0); ASubscribe; ASubscribe; AClose 0; AClose 1] _ eq_refl)
    as (H1 & H2 & _).
  by split.
Defined.

Lemma close_chans_distinct w :
  reachable w → NoDup ((chan_pair <$> cursors w).*2).
Proof.
  intros [acts Hr].
  assert (∀ w0, wf w0 → NoDup ((chan_pair <$> cursors w0).*2) →
            run acts w0 = Done w → NoDup ((chan_pair <$> cursors w).*2)) as Hgen.
  { clear Hr. induction acts as [|a acts IH]; intros w0 Hwf Hnd Hr; simpl in Hr.
    - by inversion Hr; subst w.
    - destruct (step a w0) as [w1|] eqn:Hs; simpl in Hr; [|done].
      apply (IH w1); [by eapply wf_step| |done].
      rewrite (step_chan_pairs _ _ _ Hwf Hs), fmap_app.
      destruct a; rewrite ?app_nil_r; try done.
      simpl. apply NoDup_app. split_and!; [done| |apply NoDup_singleton].
      intros c Hc Hc'. apply list_elem_of_singleton in Hc'. subst c.
      apply (ok_close_alloc _ _ (wf_chans _ Hwf)) in Hc. lia. }
  apply (Hgen new_world); [apply wf_new_world|apply NoDup_nil_2|done].
Qed.

Lemma close_chans_differ w i j ki kj :
  reachable w → cursors w !! i = Some ki → cursors w !! j = Some kj →
  closeCh (sub ki) = closeCh (sub kj) → i = j.
Proof.
  intros Hre Hi Hj Heq.
  eapply (NoDup_lookup _ i j (closeCh (sub ki)) (close_chans_distinct _ Hre)).
  - by rewrite !list_lookup_fmap, Hi.
  - rewrite !list_lookup_fmap, Hj. simpl. by rewrite Heq.
Qed.

(** [Close] on one subscription leaves every other one alone: the other
    cursor, its owner's place in [GetEvent] and the state of its close
    channel are as before, and so are the entries and the stream. *)
Theorem Close_leaves_other_cursors w i j ki kj w' :
  reachable w → cursors w !! i = Some ki → cursors w !! j = Some kj → i ≠ j →
  step (AClose i) w = Done w' →
  cursors w' !! j = Some kj ∧
  chan_closed w' (closeCh (sub kj)) = chan_closed w (closeCh (sub kj)) ∧
  elems w' = elems w ∧ stream w' = stream w.
Proof.
  intros Hre Hi Hj Hne. simpl. rewrite Hi. unfold Close.
  destruct (chan_closed w (closeCh (sub ki))); [done|]. intros [= <-]. simpl.
  assert (closeCh (sub kj) ≠ closeCh (sub ki)) as Hc.
  { intros Heq. apply Hne. symmetry. by eapply (close_chans_differ w j i). }
  split_and!; try done.
  - rewrite list_lookup_fmap, Hj. simpl. unfold release.
    rewrite bool_decide_eq_false_2; [done|]. by intros [_ ?].
  - unfold chan_closed. simpl. by rewrite list_lookup_insert_ne.
Qed.

Lemma Close_leaves_other_cursors_witness :
  ∃ w k1 w',
    run [APush (Some 0); ASubscribe; ASubscribe; ACall 1; AStep 1; AStep 1]
      new_world = Done w ∧
    cursors w !! 1 = Some k1 ∧ at_ k1 = Parked ∧
    step (AClose 0) w = Done w' ∧
    cursors w' !! 1 = Some k1.
Proof.
  eexists _, _, _. split; [reflexivity|]. split; [reflexivity|].
  split; [reflexivity|]. split; [reflexivity|].
  eapply (Close_leaves_other_cursors _ 0 1 _ _ _
    (ex_intro (λ acts, run acts new_world = Done _)
       [APush (Some 0); ASubscribe; ASubscribe; ACall 1; AStep 1; AStep 1]
       eq_refl)); [reflexivity|reflexivity|lia|reflexivity].
Defined.

(** ** The panics of the stream *)

Lemma step_Panic_inv a w why :
  wf w → step a w = Panic why →
  (∃ i k, a = AStep i ∧ cursors w !! i = Some k ∧ at_ k = AtLoop ∧
          elem (sub k) = None ∧ why = nil_dereference) ∨
  (∃ i k, a = AClose i ∧ cursors w !! i = Some k ∧
          chan_closed w (closeCh (sub k)) = true ∧
          why = close_of_closed_channel).
Proof.
  intros Hwf Hs.
  destruct a as [ev| |j|j|j]; cbv beta iota delta [step] in Hs.
  - destruct (push_Done ev w Hwf) as (es' & Heq & _). by rewrite Heq in Hs.
  - by destruct (subscribe w).
  - by destruct (cursors w !! j).
  - destruct (cursors w !! j) as [k|] eqn:Hk; [|done]. left. exists j, k.
    destruct (GetEvent_step w k) as [k'|why'] eqn:Hst; simpl in Hs; [done|].
    inversion Hs; subst why'; clear Hs. revert Hst.
    unfold GetEvent_step, GetEvent_next, GetEvent_select, deref.
    destruct (at_ k) eqn:Hat; simpl; try done.
    + destruct (elem (sub k)) as [p|] eqn:Hp; simpl; [|by intros [= <-]].
      pose proof (wf_elem _ Hwf _ _ _ Hk Hp) as Hlt.
      destruct (lookup_lt_is_Some_2 (elems w) p Hlt) as [x Hx].
      rewrite Hx. simpl. rewrite (wf_linked _ Hwf _ _ Hx).
      case_decide as Hsp; simpl; [|done].
      destruct (lookup_lt_is_Some_2 (elems w) (S p) Hsp) as [y Hy].
      by rewrite Hy.
    + by destruct (chan_closed w (closeCh (sub k))).
  - destruct (cursors w !! j) as [k|] eqn:Hk; [|done]. right. exists j, k.
    revert Hs. unfold Close.
    destruct (chan_closed w (closeCh (sub k))); [|done]. by intros [= <-].
Qed.



(** ** Schedules that never panic *)

Lemma step_chans a w w' :
  wf w → step a w = Done w' →
  chans w' =
    match a with
    | ASubscribe => chans w ++ [false; false]
    | AClose i =>
        match cursors w !! i with
        | Some k => <[closeCh (sub k) := true]> (chans w)
        | None => chans w
        end
    | _ => chans w
    end.
Proof.
  intros Hwf Hs.
  destruct a as [ev| |j|j|j]; cbv beta iota delta [step] in Hs.
  - destruct (push_Done ev w Hwf) as (es' & Heq & _).
    rewrite Heq in Hs. by inversion Hs; subst w'.
  - unfold subscribe, Head, make_chan in Hs; simpl in Hs.
    inversion Hs; subst w'. simpl. by rewrite <- (assoc_L (++)).
  - destruct (cursors w !! j); by inversion Hs; subst w'.
  - destruct (cursors w !! j) as [k|]; [|by inversion Hs; subst w'].
    destruct (GetEvent_step w k); simpl in Hs; by inversion Hs; subst w'.
  - destruct (cursors w !! j) as [k|]; [|by inversion Hs; subst w'].
    unfold Close in Hs. destruct (chan_closed w (closeCh (sub k))); [done|].
    by inversion Hs; subst w'.
Qed.

Lemma careful_step pushed closed a w :
  reachable w →
  (pushed = true → elems w ≠ []) →
  careful closed w →
  (a = ASubscribe → pushed = true) →
  (∀ i, a = AClose i → i ∉ closed) →
  ∃ w', step a w = Done w' ∧ careful (closes_of [a] ++ closed) w' ∧
        (elems w ≠ [] → elems w' ≠ []) ∧
        (∀ ev, a = APush ev → elems w' ≠ []).
Proof.
  intros Hre Hne [Hpos Hcl] Hsub Hclose. pose proof (reachable_wf _ Hre) as Hwf.
  destruct (step a w) as [w'|why] eqn:Hs.
  2:{ exfalso.
      destruct (step_Panic_inv _ _ _ Hwf Hs)
        as [(i & k & -> & Hk & _ & Hel & _)|(i & k & -> & Hk & Hc & _)].
      - destruct (Hpos _ _ Hk) as [p Hp]. congruence.
      - by apply (Hclose i), (Hcl i k). }
  exists w'. split; [done|].
  pose proof (step_cursors_length _ _ _ Hwf Hs) as Hlen.
  pose proof (step_chans _ _ _ Hwf Hs) as Hch.
  pose proof (step_events _ _ _ Hwf Hs) as Hev.
  split; [split|split].
  - (* positions *)
    intros i k' Hk'.
    destruct (cursors w !! i) as [k|] eqn:Hk.
    + destruct (step_cursor _ _ _ _ _ Hwf Hs Hk) as (k1 & Hk1 & Hc).
      assert (k1 = k') as -> by congruence.
      destruct (Hpos _ _ Hk) as [p Hp].
      destruct Hc as [[-> _]|[(p' & y & _ & _ & -> & _) _]]; by eexists.
    + apply lookup_ge_None in Hk. apply lookup_lt_Some in Hk' as Hlt.
      destruct a; simpl in Hlen; try lia.
      destruct (subscribe_cursor w Hwf)
        as (w1 & kn & Hs1 & Hkn & _ & _ & _ & Hel & _).
      assert (w1 = w') as -> by congruence.
      assert (i = length (cursors w)) as -> by lia.
      assert (kn = k') as -> by congruence.
      rewrite Hel, (wf_head _ Hwf). unfold tail_of.
      specialize (Hne (Hsub eq_refl)). destruct (elems w); [done|]. by eexists.
  - (* closed channels *)
    intros i k' Hk' Hc.
    destruct (cursors w !! i) as [k|] eqn:Hk.
    + destruct (step_chan_pair _ _ _ _ _ Hwf Hs Hk) as (k1 & Hk1 & Hp).
      assert (k1 = k') as -> by congruence.
      assert (closeCh (sub k') = closeCh (sub k)) as Hcc
        by (unfold chan_pair in Hp; congruence).
      rewrite Hcc in Hc. pose proof (close_chan_alloc _ _ _ Hwf Hk) as Hal.
      assert (chan_closed w (closeCh (sub k)) = true → i ∈ closes_of [a] ++ closed)
        as Hold by (intros ?; apply elem_of_app; right; by eapply Hcl).
      revert Hc. unfold chan_closed at 1. rewrite Hch.
      destruct a as [ev| |j|j|j]; try exact Hold.
      * rewrite lookup_app_l by done. exact Hold.
      * destruct (cursors w !! j) as [kj|] eqn:Hkj; [|exact Hold].
        destruct (decide (closeCh (sub kj) = closeCh (sub k))) as [Heq|Hneq].
        -- intros _. apply elem_of_app. left. simpl.
           rewrite (close_chans_differ w j i kj k Hre Hkj Hk Heq). left.
        -- rewrite list_lookup_insert_ne by done. exact Hold.
    + apply lookup_ge_None in Hk. apply lookup_lt_Some in Hk' as Hlt.
      destruct a; simpl in Hlen; try lia.
      destruct (subscribe_cursor w Hwf)
        as (w1 & kn & Hs1 & Hkn & _ & _ & _ & _ & Hopen & _).
      assert (w1 = w') as -> by congruence.
      assert (i = length (cursors w)) as -> by lia.
      assert (kn = k') as -> by congruence. congruence.
  - intros Hne' He'. rewrite He' in Hev. simpl in Hev.
    destruct (elems w); [done|]. by destruct (pushes_of [a]).
  - intros ev -> He'. rewrite He' in Hev. simpl in Hev.
    by destruct (event <$> elems w).
Qed.

Lemma careful_run acts pushed closed w :
  reachable w →
  (pushed = true → elems w ≠ []) →
  careful closed w →
  subscribes_follow_push pushed acts = true →
  NoDup (closes_of acts) → (∀ i, i ∈ closes_of acts → i ∉ closed) →
  ∃ w', run acts w = Done w'.
Proof.
  revert pushed closed w.
  induction acts as [|a acts IH]; intros pushed closed w Hre Hne Hca Hsf Hnd Hdis.
  - by exists w.
  - destruct (careful_step pushed closed a w Hre Hne Hca)
      as (w1 & Hs & Hca1 & Hne1 & Hne2).
    { intros ->. simpl in Hsf. by apply andb_prop in Hsf as [? _]. }
    { intros i ->. apply Hdis. simpl. left. }
    assert (reachable w1) as Hre1
      by (apply (reachable_run [a] w); [done|]; simpl; by rewrite Hs).
    change (run (a :: acts) w) with (step a w ≫= run acts). rewrite Hs. simpl.
    destruct a as [ev| |j|j|j]; simpl in *.
    + apply (IH true closed w1); try done. intros _. by eapply Hne2.
    + apply andb_prop in Hsf as [-> Hsf].
      apply (IH true closed w1); try done. intros _. by apply Hne1, Hne.
    + apply (IH pushed closed w1); try done. intros Hp. by apply Hne1, Hne.
    + apply (IH pushed closed w1); try done. intros Hp. by apply Hne1, Hne.
    + apply NoDup_cons in Hnd as [Hj Hnd].
      apply (IH pushed (j :: closed) w1); try done.
      * intros Hp. by apply Hne1, Hne.
      * intros i Hi [->|Hin]%elem_of_cons; [done|].
        apply (Hdis i); [by right|done].
Qed.



End StreamMoreFacts.

(** * The goroutine of GetEventCh *)

Module ForwardFacts.
Import Stream StreamShape StreamFacts Forward.

Implicit Types (w : world) (k : cursor) (fw : fworld) (f : forwarder)
  (a : action) (acts : list faction).

(** ** What the steps of the stream do to a cursor's call *)

Lemma GetEvent_step_under_way w k k' :
  at_ k ≠ Idle → GetEvent_step w k = Done k' → goes_on_or_returns k k'.
Proof.
  unfold GetEvent_step, GetEvent_next, GetEvent_select, deref.
  destruct (at_ k) eqn:Hat; simpl; intros Hne; [done| | |].
  - destruct (elem (sub k)) as [p|]; simpl; [|done].
    destruct (elems w !! p) as [x|]; simpl; [|done].
    destruct (next x) as [n|]; simpl.
    + destruct (elems w !! n) as [y|]; simpl; [|done].
      intros [= <-]. right. split; [done|]. by eexists.
    + intros [= <-]. by left.
  - destruct (chan_closed w (closeCh (sub k))); intros [= <-].
    + right. split; [done|]. by eexists.
    + by left.
  - intros [= <-]. left. by rewrite Hat.
Qed.

(** A step that is not a call or a step of [GetEvent] on cursor [i]
    leaves that cursor as it is when its owner is outside [GetEvent]. *)
Lemma step_elsewhere a w w' i k :
  wf w → step a w = Done w' → cursors w !! i = Some k →
  a ≠ ACall i → a ≠ AStep i →
  ∃ k', cursors w' !! i = Some k' ∧
    ((at_ k = Idle ∧ k' = k) ∨ (at_ k ≠ Idle ∧ goes_on_or_returns k k')).
Proof.
  intros Hwf Hs Hk Hn1 Hn2.
  assert (∀ k0, (at_ k0 = Idle ∧ k0 = k0) ∨ (at_ k0 ≠ Idle ∧ goes_on_or_returns k0 k0))
    as Hrefl.
  { intros k0. destruct (decide (at_ k0 = Idle)); [by left|]. right.
    split; [done|]. by left. }
  destruct a as [ev| |j|j|j]; cbv beta iota delta [step] in Hs.
  - destruct (push_Done ev w Hwf) as (es' & Heq & _).
    rewrite Heq in Hs. inversion Hs; subst w'; clear Hs.
    exists (woken k). simpl. rewrite list_lookup_fmap, Hk. split; [done|].
    unfold woken. case_decide as Hat; [|apply Hrefl].
    right. split; [by rewrite Hat|]. left. simpl. by split.
  - unfold subscribe, Head, make_chan in Hs; simpl in Hs.
    inversion Hs; subst w'; clear Hs. exists k. simpl.
    rewrite lookup_app_l by by eapply lookup_lt_Some. split; [done|]. apply Hrefl.
  - assert (j ≠ i) by congruence.
    destruct (cursors w !! j) as [kj|] eqn:Hkj; inversion Hs; subst w'; clear Hs;
      exists k; simpl; rewrite ?list_lookup_insert_ne by done; split; try done;
      apply Hrefl.
  - assert (j ≠ i) by congruence.
    destruct (cursors w !! j) as [kj|] eqn:Hkj.
    2:{ inversion Hs; subst w'. exists k. split; [done|]. apply Hrefl. }
    destruct (GetEvent_step w kj) as [k'|] eqn:Hst; simpl in Hs; [|done].
    inversion Hs; subst w'; clear Hs. exists k. simpl.
    rewrite list_lookup_insert_ne by done. split; [done|]. apply Hrefl.
  - destruct (cursors w !! j) as [kj|] eqn:Hkj.
    2:{ inversion Hs; subst w'. exists k. split; [done|]. apply Hrefl. }
    unfold Close in Hs. destruct (chan_closed w (closeCh (sub kj))); [done|].
    inversion Hs; subst w'; clear Hs. simpl.
    exists (release (closeCh (sub kj)) k). rewrite list_lookup_fmap, Hk.
    split; [done|]. unfold release. case_bool_decide as Hb; [|apply Hrefl].
    destruct Hb as [Hat _]. right. split; [by rewrite Hat|].
    right. split; [done|]. by eexists.
Qed.

(** A call or a step of [GetEvent] on cursor [i] leaves the other cursors
    as they are. *)
Lemma step_own_others a w w' i i' :
  step a w = Done w' → a = ACall i ∨ a = AStep i → i' ≠ i →
  cursors w' !! i' = cursors w !! i'.
Proof.
  intros Hs [->| ->] Hne; simpl in Hs.
  - destruct (cursors w !! i) as [k|]; inversion Hs; subst w'; [|done].
    simpl. by rewrite list_lookup_insert_ne.
  - destruct (cursors w !! i) as [k|]; [|by inversion Hs; subst w'].
    destruct (GetEvent_step w k); simpl in Hs; inversion Hs; subst w'.
    simpl. by rewrite list_lookup_insert_ne.
Qed.

(** ** The goroutine and its cursor stay in step *)

Lemma returned_to_snoc f k k' r :
  f_from f ≤ length (log k) → log k' = log k ++ [r] →
  returned_to f k' = returned_to f k ++ [r].
Proof. intros Hle Hlog. unfold returned_to. by rewrite Hlog, drop_app_le. Qed.

Lemma in_step_elsewhere f k k' :
  in_step f k →
  (at_ k = Idle ∧ k' = k) ∨ (at_ k ≠ Idle ∧ goes_on_or_returns k k') →
  in_step f k'.
Proof.
  intros Hin [[_ ->]|[Hat Hgo]]; [done|].
  destruct Hin as (Hle & Hnone & Hst).
  assert (f_from f ≤ length (log k')) as Hle'.
  { destruct Hgo as [[_ ->]|[_ [r ->]]]; [done|]. rewrite length_app. lia. }
  split; [done|]. split; [done|].
  destruct (f_at f); try (by destruct Hst as [? _]).
  destruct Hst as [[_ Hv]|[? _]]; [|done].
  destruct Hgo as [[Hat' Hlog]|[Hat' [r Hlog]]].
  - left. split; [done|]. unfold returned_to in *. by rewrite Hlog.
  - right. split; [done|]. exists (returned_to f k), r.
    split; [|done]. by apply returned_to_snoc.
Qed.

Lemma f_sub_insert (fs : list forwarder) j f f' :
  fs !! j = Some f → f_sub f' = f_sub f →
  f_sub <$> <[j := f']> fs = f_sub <$> fs.
Proof.
  intros Hf Hs. rewrite list_fmap_insert, Hs.
  apply list_insert_id. by rewrite list_lookup_fmap, Hf.
Qed.

Lemma owned_forwarder fw j f : fwds fw !! j = Some f → owned fw (f_sub f) = true.
Proof.
  intros Hf. apply bool_decide_eq_true_2, list_elem_of_fmap.
  exists f. split; [done|]. by eapply list_elem_of_lookup_2.
Qed.

Lemma forwarders_differ fw j1 j2 f1 f2 :
  NoDup (f_sub <$> fwds fw) → fwds fw !! j1 = Some f1 → fwds fw !! j2 = Some f2 →
  j1 ≠ j2 → f_sub f1 ≠ f_sub f2.
Proof.
  intros Hnd H1 H2 Hne Heq. apply Hne.
  eapply (NoDup_lookup _ j1 j2 (f_sub f1) Hnd).
  - by rewrite list_lookup_fmap, H1.
  - by rewrite list_lookup_fmap, H2, Heq.
Qed.

Lemma last_drop_snoc {A : Type} (l l' : list A) n r :
  drop n l = l' ++ [r] → last l = Some r.
Proof.
  intros Hd. rewrite <- (take_drop n l), Hd, (assoc_L (++)). apply last_snoc.
Qed.

Lemma reachable_step a w w' : reachable w → step a w = Done w' → reachable w'.
Proof.
  intros Hre Hs. apply (reachable_run [a] w); [done|]. simpl. by rewrite Hs.
Qed.

Lemma fwf_new : fwf new_fworld.
Proof.
  split; simpl.
  - by exists [].
  - apply NoDup_nil_2.
  - intros j f Hf. by rewrite lookup_nil in Hf.
Qed.

Lemma fwf_fstep (fa : faction) fw fw' :
  fwf fw → fstep fa fw = Done fw' → fwf fw'.
Proof.
  intros [Hre Hone Hin] Hs. pose proof (reachable_wf _ Hre) as Hwf.
  destruct fa as [b|i|j|j]; simpl in Hs.
  - (* an action of the stream *)
    destruct (allowed fw b) eqn:Hal; [|by inversion Hs; subst fw'].
    destruct (step b (base fw)) as [w'|] eqn:Hb; simpl in Hs; [|done].
    inversion Hs; subst fw'; clear Hs. split; simpl; [by eapply reachable_step|done|].
    intros j f Hf. destruct (Hin _ _ Hf) as (k & Hk & Hst).
    pose proof (owned_forwarder _ _ _ Hf) as Hown.
    destruct (step_elsewhere b _ _ _ _ Hwf Hb Hk) as (k' & Hk' & Hrel).
    { intros ->. simpl in Hal. by rewrite Hown in Hal. }
    { intros ->. simpl in Hal. by rewrite Hown in Hal. }
    exists k'. split; [done|]. by eapply in_step_elsewhere.
  - (* GetEventCh *)
    inversion Hs; subst fw'; clear Hs. unfold GetEventCh.
    destruct (cursors (base fw) !! i) as [k|] eqn:Hk; [|done].
    destruct (owned fw i) eqn:Hown; simpl; [done|].
    case_bool_decide as Hat; simpl; [|done].
    split; simpl; [done| |].
    + rewrite fmap_app. simpl. apply NoDup_app. split_and!; [done| |apply NoDup_singleton].
      intros x Hx ->%list_elem_of_singleton.
      apply bool_decide_eq_false_1 in Hown. done.
    + intros j f [[_ Hf]|[_ <-]]%lookup_snoc_Some; [by apply (Hin j)|].
      exists k. split; [done|]. unfold in_step, returned_to. simpl.
      split; [done|]. split; [apply not_elem_of_nil|].
      split; [done|]. by rewrite drop_all.
  - (* a step of the goroutine *)
    destruct (fwds fw !! j) as [f|] eqn:Hf; [|by inversion Hs; subst fw'].
    destruct (forward_step fw f) as [[w' f']|] eqn:Hfs; simpl in Hs; [|done].
    inversion Hs; subst fw'; clear Hs.
    destruct (Hin _ _ Hf) as (k & Hk & Hle & Hnone & Hst).
    (* what the step does to the goroutine and to its cursor *)
    assert (f_sub f' = f_sub f ∧ reachable w' ∧
            (∀ i', i' ≠ f_sub f → cursors w' !! i' = cursors (base fw) !! i') ∧
            ∃ k', cursors w' !! f_sub f = Some k' ∧ in_step f' k')
      as (Hsub & Hre' & Hoth & k' & Hk' & Hst').
    { revert Hfs. unfold forward_step.
      destruct (f_at f) eqn:Hfa.
      - (* the call *)
        destruct Hst as [Hat Hv].
        destruct (step (ACall (f_sub f)) (base fw)) as [w1|] eqn:Hc; simpl; [|done].
        intros [= <- <-]. split; [done|]. split; [by eapply reachable_step|].
        split; [intros i' Hi'; eapply step_own_others; eauto|].
        revert Hc. simpl. rewrite Hk. unfold enter. rewrite Hat. intros [= <-].
        eexists. split; [by eapply lookup_set_cursors|].
        split; [done|]. split; [done|]. simpl. left. by split.
      - (* inside GetEvent *)
        rewrite Hk. case_bool_decide as Hat.
        + destruct Hst as [[? _]|[_ (l & r & Hret & Hv)]]; [done|].
          rewrite (last_drop_snoc _ _ _ _ Hret).
          destruct (go_value r) as [e|] eqn:Hr; intros [= <- <-];
            (split; [done|]); (split; [done|]); (split; [done|]);
            exists k; (split; [done|]); (split; [done|]); (split; [done|]); simpl.
          * split; [done|]. split; [done|].
            change (returned_to (set_f_at (FSend (Some e)) f) k)
              with (returned_to f k).
            rewrite Hret, fmap_app, Hv. simpl. by rewrite Hr.
          * split; [done|]. by exists l, r.
        + destruct Hst as [[_ Hv]|[? _]]; [|done].
          destruct (step (AStep (f_sub f)) (base fw)) as [w1|] eqn:Hc; simpl; [|done].
          intros [= <- <-]. split; [done|]. split; [by eapply reachable_step|].
          split; [intros i' Hi'; eapply step_own_others; eauto|].
          revert Hc. simpl. rewrite Hk.
          destruct (GetEvent_step (base fw) k) as [k1|] eqn:Hg; simpl; [|done].
          intros [= <-]. exists k1. split; [by eapply lookup_set_cursors|].
          apply (in_step_elsewhere f k); [|right; split; [done|]].
          * split; [done|]. split; [done|]. rewrite Hfa. left. by split.
          * by eapply GetEvent_step_under_way.
      - intros [= <- <-]. split; [done|]. split; [done|]. split; [done|].
        exists k. split; [done|]. split; [done|]. split; [done|]. by rewrite Hfa.
      - intros [= <- <-]. split; [done|]. split; [done|]. split; [done|].
        exists k. split; [done|]. split; [done|]. split; [done|]. by rewrite Hfa. }
    split; simpl; [done|by rewrite (f_sub_insert _ _ f)|].
    intros j2 f2 [(-> & <- & _)|[Hne Hf2]]%list_lookup_insert_Some.
    + exists k'. by rewrite Hsub.
    + destruct (Hin _ _ Hf2) as (k2 & Hk2 & Hst2).
      exists k2. split; [|done]. rewrite Hoth; [done|].
      by eapply (forwarders_differ fw j2 j).
  - (* a receive *)
    destruct (fwds fw !! j) as [f|] eqn:Hf; inversion Hs; subst fw'; clear Hs;
      [|done].
    assert (f_sub (receive f) = f_sub f) as Hsub
      by (unfold receive; by destruct (f_at f)).
    split; simpl; [done|by rewrite (f_sub_insert _ _ f)|].
    intros j2 f2 [(-> & <- & _)|[Hne Hf2]]%list_lookup_insert_Some; [|by eapply Hin].
    destruct (Hin _ _ Hf) as (k & Hk & Hle & Hnone & Hst).
    exists k. rewrite Hsub. split; [done|]. unfold receive.
    destruct (f_at f) eqn:Hfa; try (split; [done|]; split; [done|]; by rewrite Hfa).
    destruct Hst as (Hat & He & Hv).
    split; [done|]. simpl. split.
    + intros [?|?%list_elem_of_singleton]%elem_of_app; [done|]. by apply He.
    + by split.
Qed.

Lemma fwf_frun acts fw fw' : fwf fw → frun acts fw = Done fw' → fwf fw'.
Proof.
  revert fw. induction acts as [|a acts IH]; intros fw Hwf Hr; simpl in Hr.
  - by inversion Hr; subst fw'.
  - destruct (fstep a fw) as [fw1|] eqn:Hs; simpl in Hr; [|done].
    apply (IH fw1); [by eapply fwf_fstep|done].
Qed.

(** ** The stream under the goroutines *)

Lemma forward_step_base fw f w' f' :
  forward_step fw f = Done (w', f') →
  ∃ bs : list action,
    run bs (base fw) = Done w' ∧ pushes_of bs = [] ∧ subscribes_of bs = 0.
Proof.
  unfold forward_step. destruct (f_at f).
  - destruct (step (ACall (f_sub f)) (base fw)) as [w1|] eqn:Hc; simpl; [|done].
    intros [= <- <-]. exists [ACall (f_sub f)]. split; [|done].
    change (step (ACall (f_sub f)) (base fw) ≫= run [] = Done w1).
    by rewrite Hc.
  - destruct (cursors (base fw) !! f_sub f) as [k|]; [|intros [= <- <-]; by exists []].
    case_bool_decide.
    + destruct (last (log k)) as [r|]; [|intros [= <- <-]; by exists []].
      destruct (go_value r); intros [= <- <-]; by exists [].
    + destruct (step (AStep (f_sub f)) (base fw)) as [w1|] eqn:Hc; simpl; [|done].
      intros [= <- <-]. exists [AStep (f_sub f)]. split; [|done].
      change (step (AStep (f_sub f)) (base fw) ≫= run [] = Done w1).
      by rewrite Hc.
  - intros [= <- <-]. by exists [].
  - intros [= <- <-]. by exists [].
Qed.

Lemma fstep_base (fa : faction) fw fw' :
  fstep fa fw = Done fw' →
  ∃ bs : list action, run bs (base fw) = Done (base fw') ∧
    pushes_of bs = fpushes_of [fa] ∧ subscribes_of bs = fsubscribes_of [fa].
Proof.
  destruct fa as [b|i|j|j]; simpl.
  - destruct (allowed fw b) eqn:Hal.
    + destruct (step b (base fw)) as [w1|] eqn:Hb; simpl; [|done].
      intros [= <-]. exists [b]. split; [|by destruct b].
      change (step b (base fw) ≫= run [] = Done w1). by rewrite Hb.
    + intros [= <-]. exists []. by destruct b.
  - intros [= <-]. exists []. split; [|done]. unfold GetEventCh.
    destruct (cursors (base fw) !! i); [|done].
    by destruct (owned fw i || negb (bool_decide (at_ c = Idle))).
  - destruct (fwds fw !! j) as [f|]; [|intros [= <-]; by exists []].
    destruct (forward_step fw f) as [[w1 f1]|] eqn:Hf; simpl; [|done].
    intros [= <-]. simpl. by eapply forward_step_base.
  - destruct (fwds fw !! j) as [f|]; intros [= <-]; by exists [].
Qed.

Lemma fpushes_of_cons (fa : faction) acts :
  fpushes_of (fa :: acts) = fpushes_of [fa] ++ fpushes_of acts.
Proof. destruct fa as [[]| | |]; done. Qed.

Lemma fsubscribes_of_cons (fa : faction) acts :
  fsubscribes_of (fa :: acts) = fsubscribes_of [fa] + fsubscribes_of acts.
Proof. destruct fa as [[]| | |]; done. Qed.

Lemma subscribes_of_app (l1 l2 : list action) :
  subscribes_of (l1 ++ l2) = subscribes_of l1 + subscribes_of l2.
Proof. induction l1 as [|[] l1 IH]; simpl; by rewrite ?IH. Qed.

Lemma frun_base acts fw fw' :
  frun acts fw = Done fw' →
  ∃ bs : list action, run bs (base fw) = Done (base fw') ∧
    pushes_of bs = fpushes_of acts ∧ subscribes_of bs = fsubscribes_of acts.
Proof.
  revert fw. induction acts as [|fa acts IH]; intros fw Hr; simpl in Hr.
  - inversion Hr; subst fw'. by exists [].
  - destruct (fstep fa fw) as [fw1|] eqn:Hs; simpl in Hr; [|done].
    destruct (fstep_base _ _ _ Hs) as (b1 & Hr1 & Hp1 & Hs1).
    destruct (IH _ Hr) as (b2 & Hr2 & Hp2 & Hs2).
    exists (b1 ++ b2). rewrite run_app, Hr1. split; [done|].
    rewrite pushes_of_app, subscribes_of_app.
    rewrite (fpushes_of_cons fa acts), (fsubscribes_of_cons fa acts).
    by rewrite Hp1, Hp2, Hs1, Hs2.
Qed.

Lemma frun_app acts1 acts2 fw :
  frun (acts1 ++ acts2) fw = (frun acts1 fw ≫= frun acts2).
Proof.
  revert fw. induction acts1 as [|fa acts1 IH]; intros fw; simpl; [done|].
  destruct (fstep fa fw); simpl; [apply IH|done].
Qed.

(** The cursor made by a subscribe, under goroutines too, has returned
    the first of the events pushed since and has the rest linked after
    its position. *)
Lemma fsubscribed_cursor_tracks pre post fw :
  frun (pre ++ FBase ASubscribe :: post) new_fworld = Done fw →
  ∃ k, cursors (base fw) !! fsubscribes_of pre = Some k ∧
       tracks (base fw) k (fpushes_of post).
Proof.
  intros Hr. rewrite frun_app in Hr.
  destruct (frun pre new_fworld) as [fw0|] eqn:Hpre; [|done].
  change (fstep (FBase ASubscribe) fw0 ≫= frun post = Done fw) in Hr.
  destruct (fstep (FBase ASubscribe) fw0) as [fw1|] eqn:Hs; [|done].
  change (frun post fw1 = Done fw) in Hr.
  destruct (frun_base _ _ _ Hpre) as (b0 & Hr0 & Hp0 & Hs0).
  destruct (frun_base _ _ _ Hr) as (b2 & Hr2 & Hp2 & Hs2).
  assert (step ASubscribe (base fw0) = Done (base fw1)) as Hb1.
  { revert Hs. simpl. destruct (subscribe (base fw0)). by intros [= <-]. }
  rewrite <- Hp2, <- Hs0.
  apply (subscribed_cursor_tracks b0 b2).
  rewrite run_app. simpl in Hr0. rewrite Hr0.
  change (step ASubscribe (base fw0) ≫= run b2 = Done (base fw)).
  by rewrite Hb1.
Qed.

(** ** What comes out of the channel *)

Lemma events_of_values (l : list ret) :
  None ∉ go_value <$> l → events_of l = go_value <$> l.
Proof.
  induction l as [|r l IH]; [done|]. csimpl. intros Hn.
  apply not_elem_of_cons in Hn as [Hr Hn].
  destruct r as [e|]; simpl in *; [|done]. by rewrite IH.
Qed.

Lemma received_in_step f k :
  in_step f k →
  f_out f `prefix_of` go_value <$> returned_to f k ∧
  length (returned_to f k) ≤ S (length (f_out f)).
Proof.
  intros (_ & _ & Hst). destruct (f_at f).
  - destruct Hst as [_ Hv]. rewrite <- Hv, length_fmap. split; [done|lia].
  - destruct Hst as [[_ Hv]|[_ (l & r & -> & Hv)]].
    + rewrite <- Hv, length_fmap. split; [done|lia].
    + rewrite fmap_app, Hv, length_app, <- Hv, length_fmap. simpl.
      split; [by apply prefix_app_r|lia].
  - destruct Hst as (_ & _ & Hv).
    split; [rewrite Hv; by apply prefix_app_r|].
    apply (f_equal length) in Hv. rewrite length_fmap, length_app in Hv.
    simpl in Hv. lia.
  - destruct Hst as (_ & l & r & -> & _ & Hv).
    rewrite fmap_app, Hv, length_app, <- Hv, length_fmap. simpl.
    split; [by apply prefix_app_r|lia].
Qed.





(** ** After the goroutine has returned *)

Lemma forward_step_others fw f w' f' i :
  forward_step fw f = Done (w', f') → i ≠ f_sub f →
  cursors w' !! i = cursors (base fw) !! i.
Proof.
  unfold forward_step. intros Hs Hne. destruct (f_at f).
  - destruct (step (ACall (f_sub f)) (base fw)) as [w1|] eqn:Hc; simpl in Hs; [|done].
    inversion Hs; subst w' f'. eapply step_own_others; [done|by left|done].
  - destruct (cursors (base fw) !! f_sub f) as [k|]; [|by inversion Hs; subst w'].
    case_bool_decide.
    + destruct (last (log k)) as [r|]; [|by inversion Hs; subst w'].
      destruct (go_value r); by inversion Hs; subst w'.
    + destruct (step (AStep (f_sub f)) (base fw)) as [w1|] eqn:Hc; simpl in Hs; [|done].
      inversion Hs; subst w' f'. eapply step_own_others; [done|by right|done].
  - by inversion Hs; subst w'.
  - by inversion Hs; subst w'.
Qed.

Lemma returned_fstep (fa : faction) fw fw' j f k :
  fwf fw → fstep fa fw = Done fw' →
  fwds fw !! j = Some f → f_at f = FReturned →
  cursors (base fw) !! f_sub f = Some k →
  fwds fw' !! j = Some f ∧ cursors (base fw') !! f_sub f = Some k.
Proof.
  intros [Hre Hone Hin] Hs Hf Hat Hk.
  pose proof (reachable_wf _ Hre) as Hwf.
  assert (at_ k = Idle) as Hidle.
  { destruct (Hin _ _ Hf) as (k0 & Hk0 & _ & _ & Hst).
    rewrite Hat in Hst. assert (k0 = k) as -> by congruence. apply Hst. }
  destruct fa as [b|i|j2|j2]; simpl in Hs.
  - destruct (allowed fw b) eqn:Hal; [|by inversion Hs; subst fw'].
    destruct (step b (base fw)) as [w1|] eqn:Hb; simpl in Hs; [|done].
    inversion Hs; subst fw'; clear Hs. simpl. split; [done|].
    pose proof (owned_forwarder _ _ _ Hf) as Hown.
    destruct (step_elsewhere _ _ _ _ _ Hwf Hb Hk) as (k' & Hk' & [[_ ->]|[Hn _]]);
      [intros ->; simpl in Hal; by rewrite Hown in Hal
      |intros ->; simpl in Hal; by rewrite Hown in Hal|done|done].
  - inversion Hs; subst fw'; clear Hs. unfold GetEventCh.
    destruct (cursors (base fw) !! i) as [k0|]; [|done].
    destruct (owned fw i || negb (bool_decide (at_ k0 = Idle))); [done|].
    simpl. split; [|done]. rewrite lookup_app_l; [done|]. by eapply lookup_lt_Some.
  - destruct (fwds fw !! j2) as [f2|] eqn:Hf2; [|by inversion Hs; subst fw'].
    destruct (forward_step fw f2) as [[w1 f1]|] eqn:Hfs; simpl in Hs; [|done].
    inversion Hs; subst fw'; clear Hs. simpl.
    destruct (decide (j2 = j)) as [->|Hne].
    + assert (f2 = f) as -> by congruence.
      unfold forward_step in Hfs. rewrite Hat in Hfs. inversion Hfs; subst w1 f1.
      split; [|done]. apply list_lookup_insert_eq. by eapply lookup_lt_Some.
    + rewrite list_lookup_insert_ne by done. split; [done|].
      rewrite (forward_step_others _ _ _ _ _ Hfs); [done|].
      by eapply (forwarders_differ fw j j2).
  - destruct (fwds fw !! j2) as [f2|] eqn:Hf2; [|by inversion Hs; subst fw'].
    inversion Hs; subst fw'; clear Hs. simpl. split; [|done].
    destruct (decide (j2 = j)) as [->|Hne].
    + assert (f2 = f) as -> by congruence.
      unfold receive. rewrite Hat. apply list_lookup_insert_eq. by eapply lookup_lt_Some.
    + by rewrite list_lookup_insert_ne.
Qed.

Lemma returned_frun acts fw fw' j f k :
  fwf fw → frun acts fw = Done fw' →
  fwds fw !! j = Some f → f_at f = FReturned →
  cursors (base fw) !! f_sub f = Some k →
  fwds fw' !! j = Some f ∧ cursors (base fw') !! f_sub f = Some k.
Proof.
  revert fw. induction acts as [|fa acts IH]; intros fw Hwf Hr Hf Hat Hk; simpl in Hr.
  - by inversion Hr; subst fw'.
  - destruct (fstep fa fw) as [fw1|] eqn:Hs; simpl in Hr; [|done].
    destruct (returned_fstep _ _ _ _ _ _ Hwf Hs Hf Hat Hk) as [Hf1 Hk1].
    apply (IH fw1); [by eapply fwf_fstep|done..].
Qed.



End ForwardFacts.

(** * Properties of the storage layout *)

Module StakingFacts.
Import Staking.

(** ** math/big *)

Lemma SetBytes_snoc l b : SetBytes (l ++ [b]) = (SetBytes l * 256 + b)%Z.
Proof. unfold SetBytes. by rewrite foldl_app. Qed.

Lemma SetBytes_cons b l :
  SetBytes (b :: l) = (b * 256 ^ Z.of_nat (length l) + SetBytes l)%Z.
Proof.
  induction l as [|c l IH] using rev_ind.
  - unfold SetBytes. simpl. lia.
  - rewrite app_comm_cons, !SetBytes_snoc, IH, length_app.
    rewrite Nat2Z.inj_add, Z.pow_add_r by lia.
    change (256 ^ Z.of_nat (length [c]))%Z with 256%Z. ring.
Qed.

Lemma SetBytes_bound l :
  Forall is_byte l → (0 ≤ SetBytes l < 256 ^ Z.of_nat (length l))%Z.
Proof.
  induction l as [|c l IH] using rev_ind; intros Hl.
  - unfold SetBytes. simpl. lia.
  - apply Forall_app in Hl as [Hl Hc]. rewrite Forall_singleton in Hc.
    specialize (IH Hl). unfold is_byte in Hc.
    rewrite SetBytes_snoc, length_app.
    rewrite Nat2Z.inj_add, Z.pow_add_r by lia.
    change (256 ^ Z.of_nat (length [c]))%Z with 256%Z. lia.
Qed.

Lemma SetBytes_lower l :
  Forall is_byte l → l ≠ [] → l !! 0 ≠ Some 0%Z →
  (256 ^ Z.of_nat (length l - 1) ≤ SetBytes l)%Z.
Proof.
  destruct l as [|b l]; [done|]. intros Hl _ Hb.
  apply Forall_cons in Hl as [Hb' Hl]. unfold is_byte in Hb'.
  assert (b ≠ 0%Z) by (intros ->; by apply Hb).
  pose proof (SetBytes_bound l Hl). rewrite SetBytes_cons. simpl.
  rewrite Nat.sub_0_r. nia.
Qed.

Lemma le_digits_value fuel z :
  (0 ≤ z < 2 ^ Z.of_nat fuel)%Z → SetBytes (reverse (le_digits fuel z)) = z.
Proof.
  revert z. induction fuel as [|fuel IH]; intros z Hz.
  - simpl in *. unfold SetBytes. simpl. lia.
  - simpl. case_decide as Hz0; [by subst z|].
    rewrite reverse_cons, SetBytes_snoc, IH.
    + pose proof (Z.div_mod z 256). lia.
    + rewrite Nat2Z.inj_succ, Z.pow_succ_r in Hz by lia.
      split; [apply Z.div_pos; lia|].
      apply Z.div_lt_upper_bound; lia.
Qed.

Lemma le_digits_bytes fuel z : Forall is_byte (le_digits fuel z).
Proof.
  revert z. induction fuel as [|fuel IH]; intros z; simpl; [done|].
  case_decide; [done|]. constructor; [|done].
  unfold is_byte. apply Z.mod_pos_bound. lia.
Qed.

Lemma le_digits_last fuel z :
  (0 ≤ z < 2 ^ Z.of_nat fuel)%Z → last (le_digits fuel z) ≠ Some 0%Z.
Proof.
  revert z. induction fuel as [|fuel IH]; intros z Hz; simpl; [done|].
  case_decide as Hz0; [done|].
  rewrite Nat2Z.inj_succ, Z.pow_succ_r in Hz by lia.
  assert (0 ≤ z / 256 < 2 ^ Z.of_nat fuel)%Z as Hq.
  { split; [apply Z.div_pos; lia|]. apply Z.div_lt_upper_bound; lia. }
  destruct (le_digits fuel (z / 256)) as [|d ds] eqn:Hds.
  - simpl. intros [= Hm].
    destruct fuel as [|fuel]; simpl in Hds.
    + simpl in Hq. pose proof (Z.div_mod z 256). lia.
    + case_decide as Hq0; [|done]. pose proof (Z.div_mod z 256). lia.
  - change (last (d :: ds) ≠ Some 0%Z). rewrite <- Hds. by apply IH.
Qed.

Lemma enough_fuel x :
  (0 ≤ Z.abs x < 2 ^ Z.of_nat (S (Z.to_nat (Z.log2 (Z.abs x)))))%Z.
Proof.
  split; [lia|]. pose proof (Z.log2_nonneg (Z.abs x)).
  rewrite Nat2Z.inj_succ, Z2Nat.id by done.
  destruct (decide (Z.abs x = 0%Z)) as [->|]; [done|].
  apply Z.log2_spec. lia.
Qed.

Lemma Bytes_value x : SetBytes (Bytes x) = Z.abs x.
Proof. apply le_digits_value, enough_fuel. Qed.

Lemma Bytes_ok x : Forall is_byte (Bytes x).
Proof. apply Forall_reverse, le_digits_bytes. Qed.

Lemma Bytes_first x : Bytes x !! 0 ≠ Some 0%Z.
Proof.
  unfold Bytes. rewrite <- head_lookup, head_reverse.
  apply le_digits_last, enough_fuel.
Qed.

Lemma Bytes_length x n :
  length (Bytes x) ≤ n ↔ (Z.abs x < 256 ^ Z.of_nat n)%Z.
Proof.
  pose proof (SetBytes_bound _ (Bytes_ok x)) as Hb. rewrite Bytes_value in Hb.
  split; intros Hn.
  - eapply Z.lt_le_trans; [apply Hb|]. apply Z.pow_le_mono_r; lia.
  - destruct (decide (length (Bytes x) ≤ n)) as [|Hgt]; [done|]. exfalso.
    assert (Bytes x ≠ []) as Hne by (intros Heq; rewrite Heq in Hgt; simpl in Hgt; lia).
    pose proof (SetBytes_lower _ (Bytes_ok x) Hne (Bytes_first x)) as Hlow.
    rewrite Bytes_value in Hlow.
    assert (256 ^ Z.of_nat n ≤ 256 ^ Z.of_nat (length (Bytes x) - 1))%Z
      by (apply Z.pow_le_mono_r; lia).
    lia.
Qed.

(** ** [getIndexWithOffset] *)

(** [getIndexWithOffset] adds exactly, for an offset below 2^63: read
    back as a big-endian number the result is the hash plus the offset,
    with no wrap-around at 2^256, written in bytes 0 to 255 with no
    leading zero byte. *)
Theorem getIndexWithOffset_adds keccakHash offset :
  Forall is_byte keccakHash → (0 ≤ offset < 2 ^ 63)%Z →
  SetBytes (getIndexWithOffset keccakHash offset)
    = (SetBytes keccakHash + offset)%Z ∧
  Forall is_byte (getIndexWithOffset keccakHash offset) ∧
  getIndexWithOffset keccakHash offset !! 0 ≠ Some 0%Z.
Proof.
  intros Hh Hoff. pose proof (SetBytes_bound _ Hh) as Hb.
  unfold getIndexWithOffset, int64_of_uint64.
  rewrite decide_True by lia.
  split; [rewrite Bytes_value; lia|].
  split; [apply Bytes_ok|apply Bytes_first].
Qed.

Lemma getIndexWithOffset_adds_witness :
  SetBytes (getIndexWithOffset [1; 255] 1)%Z = (SetBytes [1; 255] + 1)%Z ∧
  Forall is_byte (getIndexWithOffset [1; 255] 1)%Z ∧
  getIndexWithOffset [1; 255]%Z 1%Z !! 0 ≠ Some 0%Z.
Proof.
  apply (getIndexWithOffset_adds [1; 255]%Z 1%Z).
  - repeat constructor; unfold is_byte; lia.
  - lia.
Defined.

(** The result of [getIndexWithOffset] is as long as the sum needs: at
    most [n] bytes exactly when the hash plus the offset is below
    256^n.  So, from a hash of 32 bytes, it is longer than a hash when
    the sum reaches 2^256, and shorter when the sum is below 2^248. *)
Theorem getIndexWithOffset_length keccakHash offset n :
  Forall is_byte keccakHash → (0 ≤ offset < 2 ^ 63)%Z →
  length (getIndexWithOffset keccakHash offset) ≤ n ↔
  (SetBytes keccakHash + offset < 256 ^ Z.of_nat n)%Z.
Proof.
  intros Hh Hoff. pose proof (SetBytes_bound _ Hh) as Hb.
  unfold getIndexWithOffset, int64_of_uint64.
  rewrite decide_True by lia. rewrite Bytes_length.
  by rewrite Z.abs_eq by lia.
Qed.

Lemma getIndexWithOffset_length_witness :
  length (getIndexWithOffset (replicate 32 255%Z) 1%Z) = 33 ∧
  (length (getIndexWithOffset (replicate 32 255%Z) 1%Z) ≤ 32 ↔
   (SetBytes (replicate 32 255%Z) + 1 < 256 ^ Z.of_nat 32)%Z).
Proof.
  split; [reflexivity|].
  apply (getIndexWithOffset_length (replicate 32 255%Z) 1%Z 32).
  - apply Forall_replicate. unfold is_byte. lia.
  - lia.
Defined.

(** A [uint64] offset of 2^63 or more is converted to a negative [int64]:
    [getIndexWithOffset] then moves the hash down by 2^64 minus the
    offset, and [Bytes] drops the sign of the result. *)
Theorem getIndexWithOffset_large_offset keccakHash offset :
  (2 ^ 63 ≤ offset < 2 ^ 64)%Z →
  SetBytes (getIndexWithOffset keccakHash offset)
    = Z.abs (SetBytes keccakHash - (2 ^ 64 - offset))%Z.
Proof.
  intros Hoff. unfold getIndexWithOffset, int64_of_uint64.
  rewrite decide_False by lia. rewrite Bytes_value. f_equal. lia.
Qed.

Lemma getIndexWithOffset_large_offset_witness :
  getIndexWithOffset [5]%Z (2 ^ 64 - 1)%Z = [4]%Z ∧
  SetBytes (getIndexWithOffset [5]%Z (2 ^ 64 - 1)%Z)
    = Z.abs (SetBytes [5]%Z - (2 ^ 64 - (2 ^ 64 - 1)))%Z.
Proof.
  split; [reflexivity|].
  apply (getIndexWithOffset_large_offset [5]%Z (2 ^ 64 - 1)%Z). lia.
Defined.

(** ** [setBytesToStorage] *)

Lemma zero_Hash_length : length zero_Hash = 32.
Proof. done. Qed.

Lemma SetBytes_zeros n : SetBytes (replicate n 0%Z) = 0%Z.
Proof.
  induction n as [|n IH]; [done|].
  change (replicate (S n) 0%Z) with (0%Z :: replicate n 0%Z).
  rewrite SetBytes_cons, IH. lia.
Qed.

Section WithHashing.

Variable BytesToHash : list Z → list Z.
Variable Keccak256 : list Z → list Z.

Lemma map_get_length (m : gmap (list Z) (list Z)) k :
  map_Forall (λ _ slot, length slot = 32) m → length (map_get m k) = 32.
Proof.
  intros Hm. unfold map_get. destruct (m !! k) as [slot|] eqn:Hk; simpl; [|done].
  by apply (Hm k).
Qed.

Lemma store_byte_lookup_ne (z data : list Z) (m : gmap (list Z) (list Z)) i k :
  k ≠ slotIndex_at BytesToHash z (i / 32) →
  store_byte BytesToHash z data m i !! k = m !! k.
Proof.
  intros Hne. unfold store_byte. change numBytesInSlot with 32.
  by rewrite lookup_insert_ne.
Qed.

Lemma store_byte_get (z data : list Z) (m : gmap (list Z) (list Z)) i k :
  map_get (store_byte BytesToHash z data m i) k =
    if decide (k = slotIndex_at BytesToHash z (i / 32))
    then <[i mod 32 := default 0%Z (data !! i)]> (map_get m k)
    else map_get m k.
Proof.
  unfold map_get at 1. case_decide as Hk.
  - subst k. unfold store_byte. change numBytesInSlot with 32.
    by rewrite lookup_insert_eq.
  - by rewrite store_byte_lookup_ne.
Qed.

Lemma loop_S (z data : list Z) (m0 : gmap (list Z) (list Z)) n :
  foldl (store_byte BytesToHash z data) m0 (seq 0 (S n)) =
  store_byte BytesToHash z data (foldl (store_byte BytesToHash z data) m0 (seq 0 n)) n.
Proof. by rewrite seq_S, foldl_app. Qed.

Lemma loop_lengths (z data : list Z) (m0 : gmap (list Z) (list Z)) n :
  map_Forall (λ _ slot, length slot = 32) m0 →
  map_Forall (λ _ slot, length slot = 32)
    (foldl (store_byte BytesToHash z data) m0 (seq 0 n)).
Proof.
  intros Hm. induction n as [|n IH]; [done|]. rewrite loop_S.
  unfold store_byte at 1. apply map_Forall_insert_2; [|done].
  rewrite length_insert. by apply map_get_length.
Qed.

Lemma loop_frame (z data : list Z) (m0 : gmap (list Z) (list Z)) n k :
  (∀ i, i < n → slotIndex_at BytesToHash z (i / 32) ≠ k) →
  foldl (store_byte BytesToHash z data) m0 (seq 0 n) !! k = m0 !! k.
Proof.
  induction n as [|n IH]; intros Hk; [done|]. rewrite loop_S.
  rewrite store_byte_lookup_ne; [|intros ->; apply (Hk n); [lia|done]].
  apply IH. intros i Hi. apply Hk. lia.
Qed.

Lemma loop_present (z data : list Z) (m0 : gmap (list Z) (list Z)) n i :
  i < n →
  is_Some (foldl (store_byte BytesToHash z data) m0 (seq 0 n)
             !! slotIndex_at BytesToHash z (i / 32)).
Proof.
  induction n as [|n IH]; intros Hi; [lia|]. rewrite loop_S.
  destruct (decide (slotIndex_at BytesToHash z (i / 32)
                    = slotIndex_at BytesToHash z (n / 32))) as [Heq|Hne].
  - rewrite Heq. unfold store_byte at 1. change numBytesInSlot with 32.
    rewrite lookup_insert_eq. by eexists.
  - rewrite store_byte_lookup_ne by done.
    apply IH. destruct (decide (i = n)) as [->|]; [done|lia].
Qed.

Lemma loop_untouched (z data : list Z) (m0 : gmap (list Z) (list Z)) n k p :
  (∀ i, i < n → ¬ (slotIndex_at BytesToHash z (i / 32) = k ∧ i mod 32 = p)) →
  map_get (foldl (store_byte BytesToHash z data) m0 (seq 0 n)) k !! p
    = map_get m0 k !! p.
Proof.
  induction n as [|n IH]; intros Hk; [done|]. rewrite loop_S, store_byte_get.
  assert (map_get (foldl (store_byte BytesToHash z data) m0 (seq 0 n)) k !! p
          = map_get m0 k !! p) as IH'.
  { apply IH. intros i Hi. apply Hk. lia. }
  case_decide as Heq; [|done].
  rewrite list_lookup_insert_ne; [done|].
  intros Hp. apply (Hk n); [lia|]. by split.
Qed.

Lemma loop_written (z data : list Z) (m0 : gmap (list Z) (list Z)) n :
  n ≤ length data →
  map_Forall (λ _ slot, length slot = 32) m0 →
  (∀ o1 o2, o1 * 32 < n → o2 * 32 < n →
     slotIndex_at BytesToHash z o1 = slotIndex_at BytesToHash z o2 → o1 = o2) →
  ∀ i, i < n →
    map_get (foldl (store_byte BytesToHash z data) m0 (seq 0 n))
      (slotIndex_at BytesToHash z (i / 32)) !! (i mod 32) = data !! i.
Proof.
  intros Hn Hm. induction n as [|n IH]; intros Hinj i Hi; [lia|].
  rewrite loop_S, store_byte_get.
  assert (∀ j, j < S n → j / 32 * 32 < S n) as Hoff.
  { intros j Hj. pose proof (Nat.div_mod_eq j 32). lia. }
  assert (∀ j, j < n →
    map_get (foldl (store_byte BytesToHash z data) m0 (seq 0 n))
      (slotIndex_at BytesToHash z (j / 32)) !! (j mod 32) = data !! j) as IH'.
  { apply IH; [lia|]. intros o1 o2 H1 H2. apply Hinj; lia. }
  case_decide as Heq.
  - apply Hinj in Heq; [|by apply Hoff|apply Hoff; lia].
    destruct (decide (i = n)) as [->|Hne].
    + destruct (lookup_lt_is_Some_2 data n) as [d Hd]; [lia|].
      rewrite Hd. change (default 0%Z (Some d)) with d. apply list_lookup_insert_eq.
      rewrite map_get_length by by apply loop_lengths.
      apply Nat.mod_upper_bound. lia.
    + rewrite list_lookup_insert_ne; [apply IH'; lia|].
      intros Hmod. pose proof (Nat.div_mod_eq i 32). pose proof (Nat.div_mod_eq n 32).
      lia.
  - destruct (decide (i = n)) as [->|Hne]; [done|]. apply IH'. lia.
Qed.

(** Data of at most 31 bytes goes into the one slot at the base index:
    the data, zero bytes up to byte 30, and twice the length in byte 31.
    Nothing else is written. *)
Theorem setBytesToStorage_short (storageMap : gmap (list Z) (list Z)) baseIndexBytes data :
  length data ≤ 31 →
  setBytesToStorage BytesToHash Keccak256 storageMap baseIndexBytes data =
  <[BytesToHash baseIndexBytes :=
      data ++ replicate (31 - length data) 0%Z ++ [(2 * Z.of_nat (length data))%Z]]>
    storageMap.
Proof.
  intros Hlen. unfold setBytesToStorage. rewrite decide_True by done.
  f_equal. unfold copy.
  rewrite length_take, zero_Hash_length, Nat.min_l by lia.
  rewrite take_ge by lia.
  rewrite (drop_ge (take _ _)) by (rewrite length_take, zero_Hash_length; lia).
  rewrite app_nil_r. unfold zero_Hash, HashLength. rewrite drop_replicate.
  rewrite length_app, length_replicate.
  replace (length data + (32 - length data) - 1) with 31 by lia.
  replace (32 - length data) with ((31 - length data) + 1) by lia.
  rewrite replicate_add, (assoc_L (++)).
  rewrite insert_app_r_alt by (rewrite length_app, length_replicate; lia).
  rewrite length_app, length_replicate.
  replace (31 - (length data + (31 - length data))) with 0 by lia.
  rewrite <- (assoc_L (++)). do 2 f_equal. simpl. unfold byte_of.
  rewrite Z.mod_small by lia. f_equal. lia.
Qed.

(** Longer data goes into the slots at [keccak(base) + i/32], byte by
    byte: as long as these slot indexes differ from each other and from
    the base index, every byte of the data is afterwards at position
    [i mod 32] of the slot of its chunk, and the bytes of the last slot
    after the end of the data are not written: they keep what the map
    held there before the call (zero for a slot that was absent). *)
Theorem setBytesToStorage_long_chunks
    (storageMap : gmap (list Z) (list Z)) (baseIndexBytes data : list Z) :
  31 < length data →
  map_Forall (λ _ slot, length slot = 32) storageMap →
  (∀ o1 o2, o1 * 32 < length data → o2 * 32 < length data →
     slotIndex_at BytesToHash (Keccak256 baseIndexBytes) o1
       = slotIndex_at BytesToHash (Keccak256 baseIndexBytes) o2 → o1 = o2) →
  (∀ o, o * 32 < length data →
     slotIndex_at BytesToHash (Keccak256 baseIndexBytes) o
       ≠ BytesToHash baseIndexBytes) →
  (∀ i d, data !! i = Some d →
     ∃ slot,
       setBytesToStorage BytesToHash Keccak256 storageMap baseIndexBytes data
         !! slotIndex_at BytesToHash (Keccak256 baseIndexBytes) (i / 32) = Some slot ∧
       length slot = 32 ∧ slot !! (i mod 32) = Some d) ∧
  (∀ o p, o * 32 < length data → p < 32 → length data ≤ o * 32 + p →
     map_get (setBytesToStorage BytesToHash Keccak256 storageMap baseIndexBytes data)
         (slotIndex_at BytesToHash (Keccak256 baseIndexBytes) o) !! p
       = map_get storageMap
           (slotIndex_at BytesToHash (Keccak256 baseIndexBytes) o) !! p).
Proof.
  intros Hlen Hm Hinj Hbase. unfold setBytesToStorage.
  rewrite decide_False by lia.
  set (m0 := <[BytesToHash baseIndexBytes :=
                 <[31 := byte_of (Z.of_nat (2 * length data + 1))]> zero_Hash]>
               storageMap).
  set (z := Keccak256 baseIndexBytes) in *.
  assert (map_Forall (λ _ slot, length slot = 32) m0) as Hm0.
  { apply map_Forall_insert_2; [|done]. by rewrite length_insert. }
  assert (∀ j, j < length data → j / 32 * 32 < length data) as Hoff.
  { intros j Hj. pose proof (Nat.div_mod_eq j 32). lia. }
  split.
  - intros i d Hd. pose proof (lookup_lt_Some _ _ _ Hd) as Hi.
    destruct (loop_present z data m0 (length data) i Hi) as [slot Hslot].
    exists slot. split; [done|]. split; [by apply (loop_lengths z data m0 _ Hm0 _ _ Hslot)|].
    pose proof (loop_written z data m0 (length data) (le_n _) Hm0 Hinj i Hi) as Hw.
    unfold map_get in Hw. rewrite Hslot in Hw. rewrite <- Hd. exact Hw.
  - intros o p Ho Hp Hend. rewrite loop_untouched.
    + unfold map_get, m0. rewrite lookup_insert_ne; [done|].
      intros Heq. by apply (Hbase o).
    + intros i Hi [Heq Hmod]. apply Hinj in Heq; [|by apply Hoff|done].
      pose proof (Nat.div_mod_eq i 32). lia.
Qed.

(** For longer data the slot at the base index is to hold twice the
    length plus one.  [setBytesToStorage] writes only the low byte of
    that number, into byte 31 of a zero slot: the slot reads as
    [2 * len + 1] exactly when the data has at most 127 bytes. *)
Theorem setBytesToStorage_long_length
    (storageMap : gmap (list Z) (list Z)) (baseIndexBytes data : list Z) :
  31 < length data →
  (∀ o, o * 32 < length data →
     slotIndex_at BytesToHash (Keccak256 baseIndexBytes) o
       ≠ BytesToHash baseIndexBytes) →
  ∃ slot,
    setBytesToStorage BytesToHash Keccak256 storageMap baseIndexBytes data
      !! BytesToHash baseIndexBytes = Some slot ∧
    slot = replicate 31 0%Z ++ [((2 * Z.of_nat (length data) + 1) mod 256)%Z] ∧
    (SetBytes slot = (2 * Z.of_nat (length data) + 1)%Z ↔ length data ≤ 127).
Proof.
  intros Hlen Hbase. unfold setBytesToStorage. rewrite decide_False by lia.
  eexists. split; [|split; [reflexivity|]].
  - rewrite loop_frame.
    + rewrite lookup_insert_eq. f_equal. unfold byte_of.
      replace (Z.of_nat (2 * length data + 1)) with (2 * Z.of_nat (length data) + 1)%Z
        by lia.
      reflexivity.
    + intros i Hi. apply Hbase. pose proof (Nat.div_mod_eq i 32). lia.
  - rewrite SetBytes_snoc, SetBytes_zeros.
    pose proof (Z.mod_pos_bound (2 * Z.of_nat (length data) + 1) 256).
    split; intros Hs.
    + lia.
    + rewrite Z.mod_small; lia.
Qed.

(** [setBytesToStorage] writes to the slot at the base index and, for
    data of more than 31 bytes, to the slots of the chunks; every other
    key of the map is left as it was. *)
Theorem setBytesToStorage_other_keys
    (storageMap : gmap (list Z) (list Z)) (baseIndexBytes data k : list Z) :
  k ≠ BytesToHash baseIndexBytes →
  (∀ o, 31 < length data → o * 32 < length data →
     slotIndex_at BytesToHash (Keccak256 baseIndexBytes) o ≠ k) →
  setBytesToStorage BytesToHash Keccak256 storageMap baseIndexBytes data !! k
    = storageMap !! k.
Proof.
  intros Hk Hslots. unfold setBytesToStorage. case_decide as Hlen.
  - by rewrite lookup_insert_ne.
  - rewrite loop_frame; [by rewrite lookup_insert_ne|].
    intros i Hi. apply Hslots; [lia|]. pose proof (Nat.div_mod_eq i 32). lia.
Qed.

End WithHashing.

Lemma setBytesToStorage_short_witness :
  setBytesToStorage pad_left_32 fixed_digest ∅ [7]%Z [10; 20; 30]%Z =
  <[pad_left_32 [7]%Z := [10; 20; 30]%Z ++ replicate 28 0%Z ++ [6]%Z]> ∅.
Proof.
  apply (setBytesToStorage_short pad_left_32 fixed_digest ∅ [7]%Z [10; 20; 30]%Z).
  simpl. lia.
Defined.

Lemma two_chunks_differ (o1 o2 : nat) :
  o1 * 32 < 40 → o2 * 32 < 40 →
  slotIndex_at pad_left_32 (fixed_digest [7]%Z) o1
    = slotIndex_at pad_left_32 (fixed_digest [7]%Z) o2 → o1 = o2.
Proof.
  intros H1 H2.
  assert (o1 = 0 ∨ o1 = 1) as [-> | ->] by lia;
    assert (o2 = 0 ∨ o2 = 1) as [-> | ->] by lia; vm_compute; congruence.
Qed.

Lemma two_chunks_not_base (o : nat) :
  o * 32 < 40 →
  slotIndex_at pad_left_32 (fixed_digest [7]%Z) o ≠ pad_left_32 [7]%Z.
Proof.
  intros H1. assert (o = 0 ∨ o = 1) as [-> | ->] by lia; vm_compute; congruence.
Qed.

Lemma setBytesToStorage_long_chunks_witness :
  (∀ i d, (Z.of_nat <$> seq 0 40) !! i = Some d →
     ∃ slot,
       setBytesToStorage pad_left_32 fixed_digest ∅ [7]%Z (Z.of_nat <$> seq 0 40)
         !! slotIndex_at pad_left_32 (fixed_digest [7]%Z) (i / 32) = Some slot ∧
       length slot = 32 ∧ slot !! (i mod 32) = Some d) ∧
  (∀ o p, o * 32 < 40 → p < 32 → 40 ≤ o * 32 + p →
     map_get (setBytesToStorage pad_left_32 fixed_digest ∅ [7]%Z (Z.of_nat <$> seq 0 40))
         (slotIndex_at pad_left_32 (fixed_digest [7]%Z) o) !! p
       = map_get ∅ (slotIndex_at pad_left_32 (fixed_digest [7]%Z) o) !! p).
Proof.
  refine (setBytesToStorage_long_chunks pad_left_32 fixed_digest ∅ [7]%Z
            (Z.of_nat <$> seq 0 40) _ _ _ _).
  - simpl. lia.
  - apply map_Forall_empty.
  - apply two_chunks_differ.
  - apply two_chunks_not_base.
Defined.

Lemma setBytesToStorage_long_length_witness :
  ∃ slot,
    setBytesToStorage pad_left_32 fixed_digest ∅ [7]%Z (Z.of_nat <$> seq 0 40)
      !! pad_left_32 [7]%Z = Some slot ∧
    slot = replicate 31 0%Z ++ [81]%Z ∧
    (SetBytes slot = 81%Z ↔ 40 ≤ 127).
Proof.
  refine (setBytesToStorage_long_length pad_left_32 fixed_digest ∅ [7]%Z
            (Z.of_nat <$> seq 0 40) _ _).
  - simpl. lia.
  - apply two_chunks_not_base.
Defined.

Lemma setBytesToStorage_other_keys_witness :
  setBytesToStorage pad_left_32 fixed_digest {[ [9]%Z := [1]%Z ]} [7]%Z
      (Z.of_nat <$> seq 0 40) !! [9]%Z
    = ({[ [9]%Z := [1]%Z ]} : gmap (list Z) (list Z)) !! [9]%Z.
Proof.
  apply (setBytesToStorage_other_keys pad_left_32 fixed_digest).
  - vm_compute. congruence.
  - intros o _ Ho.
    assert (o = 0 ∨ o = 1) as [-> | ->] by (simpl in Ho; lia); vm_compute; congruence.
Defined.

End StakingFacts.
